(** * AnimationController: blend tree, cross-fade scheduler and transition
      evaluator

    Shallow embedding of [src/behaviors/animation/AnimationController.ts].

    Conventions of the embedding.
    - A JavaScript [number] is a real number ([R]) in the embedding of the
      controller: arithmetic is exact there, and of the special values only
      [NaN] is represented, as a value of a variable.  Comparisons are the
      decidable order and equality of [R].  What the source's binary64
      arithmetic does differently (rounding, overflow) is stated on the
      module [Binary64], which repeats the arithmetic on binary64 floats.
    - [AnimationState] is the string enum of the source; [stateName] gives
      the string each member stands for at run time (the source looks nodes
      up by it in [updateCrossFadeWeights] and [completeCrossFade]).
    - A [Map] that the code iterates in insertion order, or that the claims
      sum over, is an association list with the insertion discipline of a
      JavaScript [Map] ([jsmap_set]); the variable store, which is only read
      and written by key, is a [gmap].
    - The animation groups of Babylon.js are the Clip Handle Provider of the
      specification: a group has a weight, a playing flag, a loop flag and a
      speed ratio.
    - Code that may throw returns a [Result]; a throw carries the state
      reached so far, because [playNode] catches and carries on.
    - The node list, the transition list and the initial node id are module
      constants in the source ([ANIMATION_NODES], [ANIMATION_TRANSITIONS],
      [INITIAL_NODE_ID]); the constructor is embedded as a function of
      its argument and of them, and the constants are given as well. *)

From Stdlib Require Import Floats.PrimFloat.
From Stdlib Require Import Reals Lra.
From stdpp Require Import base decidable option list strings gmap.

Set Warnings "-inexact-float".

Set Default Proof Using "Type".

(** ** Numbers *)

#[global] Instance Rlt_decision (x y : R) : Decision (x < y)%R := Rlt_dec x y.
#[global] Instance Rle_decision (x y : R) : Decision (x <= y)%R := Rle_dec x y.
#[global] Instance Rgt_decision (x y : R) : Decision (x > y)%R := Rgt_dec x y.
#[global] Instance Rge_decision (x y : R) : Decision (x >= y)%R := Rge_dec x y.
#[global] Instance R_eq_decision : EqDecision R := Req_dec_T.

(** ** Data model *)

Inductive AnimationState :=
  | IDLE | WALK_FORWARD | WALK_BACKWARD | WALK_LEFT | WALK_RIGHT
  | RUN_FORWARD | RUN_BACKWARD | RUN_LEFT | RUN_RIGHT
  | JUMP_UP | JUMP_FALLING.

#[global] Instance AnimationState_eq_dec : EqDecision AnimationState.
Proof. solve_decision. Defined.

Definition stateName (s : AnimationState) : string :=
  match s with
  | IDLE => "Idle" | WALK_FORWARD => "WalkForward"
  | WALK_BACKWARD => "WalkBackward" | WALK_LEFT => "WalkLeft"
  | WALK_RIGHT => "WalkRight" | RUN_FORWARD => "RunForward"
  | RUN_BACKWARD => "RunBackward" | RUN_LEFT => "RunLeft"
  | RUN_RIGHT => "RunRight" | JUMP_UP => "JumpUp"
  | JUMP_FALLING => "JumpFalling"
  end.

Definition allStates : list AnimationState :=
  [IDLE; WALK_FORWARD; WALK_BACKWARD; WALK_LEFT; WALK_RIGHT;
   RUN_FORWARD; RUN_BACKWARD; RUN_LEFT; RUN_RIGHT; JUMP_UP; JUMP_FALLING].


Record BlendInfo := mkBlendInfo {
  fromState : AnimationState;
  toState : AnimationState;
  progress : R;
  duration : R;
}.

Record AnimationSingleNode := mkSingle {
  single_id : string;
  single_state : AnimationState;
  single_speed : R;
  single_loop : bool;
}.

Record BlendSample := mkSample {
  sample_state : AnimationState;
  position_x : R;
  position_z : R;
}.

Record AnimationBlendNode := mkBlend {
  blend_id : string;
  animations : list BlendSample;
}.

Inductive AnimationNode :=
  | Single (n : AnimationSingleNode)
  | Blend (n : AnimationBlendNode).

Definition node_id (n : AnimationNode) : string :=
  match n with
  | Single s => single_id s
  | Blend b => blend_id b
  end.

Inductive Operator := OpEq | OpNe | OpGt | OpLt | OpGe | OpLe.

(** [number | boolean]. A number is a finite number ([VNum]) or [NaN]
    ([VNaN]), which [setVariable] accepts like any other number: [NaN] is
    unequal to everything, itself included, fails every order comparison,
    and is falsy. The infinities are not represented. *)
Inductive Value :=
  | VNum (r : R)
  | VBool (b : bool)
  | VNaN.

Record TransitionCondition := mkCondition {
  variable : string;
  operator : Operator;
  value : Value;
}.

Record AnimationTransition := mkTransition {
  from : string;
  to : string;
  conditions : list TransitionCondition;
  crossFadeDuration : R;
}.

(** The clip handle: what the controller reads and writes of an
    [AnimationGroup]. *)
Record AnimGroup := mkGroup {
  weight : R;
  isPlaying : bool;
  loopAnimation : bool;
  speedRatio : R;
}.

(** ** JavaScript [Map] in insertion order *)

Section JsMap.
Context {K V : Type} `{EqDecision K}.

Fixpoint jsmap_get (k : K) (m : list (K * V)) : option V :=
  match m with
  | [] => None
  | (k', v) :: m' => if decide (k = k') then Some v else jsmap_get k m'
  end.

Definition jsmap_has (k : K) (m : list (K * V)) : bool :=
  match jsmap_get k m with Some _ => true | None => false end.

(** [set] on a present key replaces the value in place; on an absent key it
    appends the entry. *)
Fixpoint jsmap_set (k : K) (v : V) (m : list (K * V)) : list (K * V) :=
  match m with
  | [] => [(k, v)]
  | (k', v') :: m' =>
      if decide (k = k') then (k, v) :: m' else (k', v') :: jsmap_set k v m'
  end.

(** [m.get(k)?.update()]: the object stored under [k], if any, is mutated in
    place. *)
Fixpoint jsmap_alter (f : V → V) (k : K) (m : list (K * V)) : list (K * V) :=
  match m with
  | [] => []
  | (k', v) :: m' =>
      if decide (k = k') then (k', f v) :: m' else (k', v) :: jsmap_alter f k m'
  end.

(** [m.forEach(v => update(v))] *)
Definition jsmap_forEach (f : V → V) (m : list (K * V)) : list (K * V) :=
  map (λ '(k, v), (k, f v)) m.
End JsMap.

(** ** The controller *)

Record Controller := mkController {
  currentNodeId : string;
  nodes : list (string * AnimationNode);
  animationGroups : list (AnimationState * AnimGroup);
  activeBlend : option BlendInfo;
  blendWeights : list (AnimationState * R);
  transitions : list AnimationTransition;
  variables : gmap string Value;
}.

Inductive Error :=
  | DuplicateNodeId (id : string)
  | UnknownTransitionNode (id : string)
  | UnknownInitialNode (id : string)
  | NodeNotFound (id : string)
  | AnimationStateNotFound (s : AnimationState)
  | ToStateNotFound (id : string)
  | PreviousNodeNotFound (id : string)
  | CurrentNodeNotFound (id : string)
  | TypeError
  | ZodError.

(** Outcome of a method: it returns, or it throws in the state reached so
    far. *)
Inductive Result :=
  | Ok (c : Controller)
  | Throw (c : Controller) (e : Error).

Definition bind (r : Result) (k : Controller → Result) : Result :=
  match r with
  | Ok c => k c
  | Throw c e => Throw c e
  end.

(** ** Transition conditions *)

(** [value === targetValue] on [number | boolean]; [NaN === NaN] is
    false. *)
Definition strictEq (a b : Value) : bool :=
  match a, b with
  | VNum x, VNum y => bool_decide (x = y)
  | VBool x, VBool y => bool_decide (x = y)
  | _, _ => false
  end.

(** [typeof value === 'number' && typeof targetValue === 'number' && ...];
    [typeof NaN] is ['number'], and every order comparison with [NaN] is
    false. *)
Definition bothNumbers (a b : Value) (cmp : R → R → bool) : bool :=
  match a, b with
  | VNum x, VNum y => cmp x y
  | _, _ => false
  end.

Definition evaluateCondition (c : Controller)
    (condition : TransitionCondition) : bool :=
  match variables c !! variable condition with
  | None => false
  | Some v =>
      let targetValue := value condition in
      match operator condition with
      | OpEq => strictEq v targetValue
      | OpNe => negb (strictEq v targetValue)
      | OpGt => bothNumbers v targetValue (λ x y, bool_decide (x > y)%R)
      | OpLt => bothNumbers v targetValue (λ x y, bool_decide (x < y)%R)
      | OpGe => bothNumbers v targetValue (λ x y, bool_decide (x >= y)%R)
      | OpLe => bothNumbers v targetValue (λ x y, bool_decide (x <= y)%R)
      end
  end.

(** ** Easing *)

(** The source's expression in exact arithmetic; [Binary64.easeInOutQuad]
    is the same expression in binary64, where its values can differ from
    these in the last place. *)
Definition easeInOutQuad (t : R) : R :=
  if decide (t < 0.5)%R then (2 * t * t)%R else (-1 + (4 - 2 * t) * t)%R.

(** ** Clip handle operations

    [animGroup?.m()] does nothing when the state has no bound group, which is
    what [jsmap_alter] does on an absent key. *)

Definition setWeight (s : AnimationState) (w : R)
    (gs : list (AnimationState * AnimGroup)) : list (AnimationState * AnimGroup) :=
  jsmap_alter (λ g, mkGroup w (isPlaying g) (loopAnimation g) (speedRatio g)) s gs.

Definition start (s : AnimationState)
    (gs : list (AnimationState * AnimGroup)) : list (AnimationState * AnimGroup) :=
  jsmap_alter (λ g, mkGroup (weight g) true (loopAnimation g) (speedRatio g)) s gs.

Definition stop (s : AnimationState)
    (gs : list (AnimationState * AnimGroup)) : list (AnimationState * AnimGroup) :=
  jsmap_alter (λ g, mkGroup (weight g) false (loopAnimation g) (speedRatio g)) s gs.

Definition with_groups (c : Controller)
    (gs : list (AnimationState * AnimGroup)) : Controller :=
  mkController (currentNodeId c) (nodes c) gs (activeBlend c)
    (blendWeights c) (transitions c) (variables c).

Definition with_activeBlend (c : Controller) (b : option BlendInfo)
    : Controller :=
  mkController (currentNodeId c) (nodes c) (animationGroups c) b
    (blendWeights c) (transitions c) (variables c).

Definition with_blendWeights (c : Controller)
    (ws : list (AnimationState * R)) : Controller :=
  mkController (currentNodeId c) (nodes c) (animationGroups c)
    (activeBlend c) ws (transitions c) (variables c).

Definition with_currentNodeId (c : Controller) (id : string) : Controller :=
  mkController id (nodes c) (animationGroups c) (activeBlend c)
    (blendWeights c) (transitions c) (variables c).

Definition with_variables (c : Controller) (vs : gmap string Value)
    : Controller :=
  mkController (currentNodeId c) (nodes c) (animationGroups c)
    (activeBlend c) (blendWeights c) (transitions c) vs.

(** ** Variable store *)

Definition setVariable (c : Controller) (name : string) (v : Value)
    : Controller :=
  with_variables c (<[name := v]> (variables c)).

Definition getVariable (c : Controller) (name : string) : option Value :=
  variables c !! name.

(** ** Blend weights *)

(** [(this.variables.get(name) as number) || 0]: the cast is erased, so a
    stored [true] stays [true] and counts as 1 in the subtraction that
    follows; [undefined], [false], [0] and [NaN] give 0. *)
Definition numberOrZero (v : option Value) : R :=
  match v with
  | Some (VNum r) => r
  | Some (VBool true) => 1%R
  | Some (VBool false) => 0%R
  | Some VNaN => 0%R
  | None => 0%R
  end.

(** The distance and the weights below are the source's expressions in
    exact arithmetic; [Binary64.distance], [Binary64.rawWeight] and
    [Binary64.blendNodeWeights] are the same expressions in binary64, where
    they round, and overflow for inputs beyond about [1e154]. *)
Definition distance (x z : R) (anim : BlendSample) : R :=
  let dx := (x - position_x anim)%R in
  let dz := (z - position_z anim)%R in
  sqrt (dx * dx + dz * dz).

Definition rawWeight (x z : R) (anim : BlendSample) : R :=
  (1 / (distance x z anim + 0.001))%R.

(** The first loop of [updateBlendNodeWeights]: the [weights] map and
    [totalWeight]. *)
Definition accumulateWeights (x z : R) (anims : list BlendSample)
    : list (AnimationState * R) * R :=
  foldl (λ '(weights, totalWeight) anim,
           let w := rawWeight x z anim in
           (jsmap_set (sample_state anim) w weights, (totalWeight + w)%R))
        ([], 0%R) anims.

(** The second loop: [blendWeights] is cleared and refilled. *)
Definition normalizeWeights (weights : list (AnimationState * R))
    (totalWeight : R) : list (AnimationState * R) :=
  foldl (λ bw '(s, w), jsmap_set s (w / totalWeight)%R bw) [] weights.

Definition blendNodeWeights (x z : R) (blendNode : AnimationBlendNode)
    : list (AnimationState * R) :=
  let '(weights, totalWeight) := accumulateWeights x z (animations blendNode) in
  normalizeWeights weights totalWeight.

Definition updateBlendNodeWeights (c : Controller)
    (blendNode : AnimationBlendNode) : Controller :=
  let x := numberOrZero (variables c !! "directionX") in
  let z := numberOrZero (variables c !! "directionZ") in
  with_blendWeights c (blendNodeWeights x z blendNode).

(** [this.blendWeights.get(state) || 0] *)
Definition blendWeightOrZero (bw : list (AnimationState * R))
    (s : AnimationState) : R :=
  match jsmap_get s bw with Some w => w | None => 0%R end.

Definition applyBlendNodeWeights (c : Controller) : Controller :=
  with_groups c
    (foldl (λ gs '(s, w),
              let gs' :=
                match jsmap_get s gs with
                | Some g => if isPlaying g then gs else start s gs
                | None => gs
                end in
              setWeight s w gs')
           (animationGroups c) (blendWeights c)).

Definition stopAllAnimations (c : Controller) : Controller :=
  with_groups c
    (jsmap_forEach (λ g, if isPlaying g
                         then mkGroup 0%R false (loopAnimation g) (speedRatio g)
                         else g)
       (animationGroups c)).

Definition getDominantAnimationState (c : Controller) (nodeId : string)
    : Error + AnimationState :=
  match jsmap_get nodeId (nodes c) with
  | None => inl (PreviousNodeNotFound nodeId)
  | Some (Single n) => inr (single_state n)
  | Some (Blend n) =>
      match animations n with
      | [] => inl TypeError
      | first :: _ =>
          inr (fst (foldl (λ '(dominantState, maxWeight) anim,
                             let w := blendWeightOrZero (blendWeights c)
                                        (sample_state anim) in
                             if decide (w > maxWeight)%R
                             then (sample_state anim, w)
                             else (dominantState, maxWeight))
                          (sample_state first, 0%R) (animations n)))
      end
  end.

(** ** Cross-fade scheduler *)

Definition completeCrossFade (c : Controller) : Result :=
  match activeBlend c with
  | None => Ok c
  | Some b =>
      match jsmap_get (currentNodeId c) (nodes c) with
      | None => Throw c (ToStateNotFound (currentNodeId c))
      | Some currentNode =>
          let previousNode := jsmap_get (stateName (fromState b)) (nodes c) in
          let gs1 :=
            match currentNode with
            | Blend _ =>
                foldl (λ gs '(s, targetWeight), setWeight s targetWeight gs)
                      (animationGroups c) (blendWeights c)
            | Single _ => setWeight (toState b) 1%R (animationGroups c)
            end in
          let gs2 :=
            match previousNode with
            | Some (Blend p) =>
                foldl (λ gs anim,
                         setWeight (sample_state anim) 0%R
                           (stop (sample_state anim) gs))
                      gs1 (animations p)
            | _ => setWeight (fromState b) 0%R (stop (fromState b) gs1)
            end in
          Ok (with_activeBlend (with_groups c gs2) None)
      end
  end.

Definition updateCrossFadeWeights (c : Controller) : Controller :=
  match activeBlend c with
  | None => c
  | Some b =>
      let easeProgress := easeInOutQuad (progress b) in
      let gs1 :=
        match jsmap_get (stateName (toState b)) (nodes c) with
        | Some (Blend _) =>
            foldl (λ gs '(s, targetWeight),
                     setWeight s (targetWeight * easeProgress)%R gs)
                  (animationGroups c) (blendWeights c)
        | _ => setWeight (toState b) easeProgress (animationGroups c)
        end in
      let gs2 :=
        match jsmap_get (stateName (fromState b)) (nodes c) with
        | Some (Blend p) =>
            foldl (λ gs anim,
                     let initialWeight :=
                       blendWeightOrZero (blendWeights c) (sample_state anim) in
                     setWeight (sample_state anim)
                       (initialWeight * (1 - easeProgress))%R gs)
                  gs1 (animations p)
        | _ => setWeight (fromState b) (1 - easeProgress)%R gs1
        end in
      with_groups c gs2
  end.

(** [deltaTime] is [this.scene.deltaTime] of the frame. The progress is
    accumulated in exact arithmetic; in binary64 the sum can fall short of
    the exact one in the last place ([Binary64.advanceProgress]), so the
    frame on which a cross-fade ends is not fixed by the exact quotient. A
    cross-fade in flight has a positive duration: both starters are reached
    with [crossFadeDuration > 0] only. *)
Definition updateCrossFade (c : Controller) (deltaTime : R) : Result :=
  match activeBlend c with
  | None => Ok c
  | Some b =>
      let b' := mkBlendInfo (fromState b) (toState b)
                  (progress b + deltaTime / duration b)%R (duration b) in
      let c' := with_activeBlend c (Some b') in
      if decide (progress b' >= 1)%R
      then completeCrossFade c'
      else Ok (updateCrossFadeWeights c')
  end.

Definition startCrossFade (c : Controller) (toState : AnimationState)
    (crossFadeDuration : R) : Result :=
  bind (match activeBlend c with
        | Some _ => completeCrossFade c
        | None => Ok c
        end)
    (λ c1,
       match jsmap_get toState (animationGroups c1) with
       | None => Ok c1
       | Some _ =>
           let c2 := with_groups c1
                       (start toState
                          (setWeight toState 1%R (animationGroups c1))) in
           match getDominantAnimationState c2 (currentNodeId c2) with
           | inl e => Throw c2 e
           | inr prevState =>
               Ok (with_activeBlend c2
                     (Some (mkBlendInfo prevState toState 0%R
                              crossFadeDuration)))
           end
       end).

Definition startBlendCrossFade (c : Controller)
    (toBlendNode : AnimationBlendNode) (crossFadeDuration : R) : Result :=
  let c1 := with_groups c
              (foldl (λ gs anim,
                        start (sample_state anim)
                          (setWeight (sample_state anim) 0%R gs))
                     (animationGroups c) (animations toBlendNode)) in
  match getDominantAnimationState c1 (blend_id toBlendNode) with
  | inl e => Throw c1 e
  | inr dominantState =>
      match getDominantAnimationState c1 (currentNodeId c1) with
      | inl e => Throw c1 e
      | inr prevState =>
          Ok (with_activeBlend c1
                (Some (mkBlendInfo prevState dominantState 0%R
                         crossFadeDuration)))
      end
  end.

(** ** Node activation *)

Definition playAnimationImmediate (c : Controller) (state : AnimationState)
    : Controller :=
  let c1 := stopAllAnimations c in
  with_groups c1 (start state (setWeight state 1%R (animationGroups c1))).

Definition startSingleNode (c : Controller) (node : AnimationSingleNode)
    (crossFadeDuration : R) : Result :=
  match jsmap_get (single_state node) (animationGroups c) with
  | None => Throw c (AnimationStateNotFound (single_state node))
  | Some _ =>
      if decide (crossFadeDuration > 0)%R
      then startCrossFade c (single_state node) crossFadeDuration
      else Ok (playAnimationImmediate c (single_state node))
  end.

Definition startBlendNode (c : Controller) (node : AnimationBlendNode)
    (crossFadeDuration : R) : Result :=
  let c1 := updateBlendNodeWeights c node in
  if decide (crossFadeDuration > 0)%R
  then startBlendCrossFade c1 node crossFadeDuration
  else Ok (applyBlendNodeWeights (stopAllAnimations c1)).

(** The [try] block swallows every error ([catch] only warns) and [finally]
    sets the current node, so the only throw that leaves [playNode] is the
    unknown-node one before the [try]. *)
Definition playNode (c : Controller) (nodeId : string)
    (crossFadeDuration : R) : Result :=
  if decide (currentNodeId c = nodeId ∧ activeBlend c = None) then Ok c
  else
    match jsmap_get nodeId (nodes c) with
    | None => Throw c (NodeNotFound nodeId)
    | Some node =>
        let attempt :=
          match node with
          | Blend n => startBlendNode c n crossFadeDuration
          | Single n => startSingleNode c n crossFadeDuration
          end in
        let c' := match attempt with Ok c' => c' | Throw c' _ => c' end in
        Ok (with_currentNodeId c' nodeId)
    end.

(** ** Transition evaluator *)

(** The [for] loop of [evaluateTransitions] over the remaining transitions;
    each [continue] is the recursive call. *)
Fixpoint evaluateTransitionsFrom (c : Controller)
    (ts : list AnimationTransition) : option AnimationTransition :=
  match ts with
  | [] => None
  | transition :: rest =>
      if decide (from transition ≠ currentNodeId c)
      then evaluateTransitionsFrom c rest
      else
        match conditions transition with
        | [] =>
            match jsmap_get (currentNodeId c) (nodes c) with
            | Some (Single currentNode) =>
                match jsmap_get (single_state currentNode) (animationGroups c) with
                | Some animGroup =>
                    if negb (isPlaying animGroup) then Some transition
                    else evaluateTransitionsFrom c rest
                | None => evaluateTransitionsFrom c rest
                end
            | _ => evaluateTransitionsFrom c rest
            end
        | _ :: _ =>
            if forallb (evaluateCondition c) (conditions transition)
            then Some transition
            else evaluateTransitionsFrom c rest
        end
  end.

Definition evaluateTransitions (c : Controller) : option AnimationTransition :=
  evaluateTransitionsFrom c (transitions c).

(** ** Per-frame update *)

Definition update (c : Controller) : Result :=
  match jsmap_get (currentNodeId c) (nodes c) with
  | None => Throw c (CurrentNodeNotFound (currentNodeId c))
  | Some currentNode =>
      let c1 :=
        match currentNode with
        | Blend n =>
            let c' := updateBlendNodeWeights c n in
            match activeBlend c' with
            | None => applyBlendNodeWeights c'
            | Some _ => c'
            end
        | Single _ => c
        end in
      match evaluateTransitions c1 with
      | Some transition =>
          playNode c1 (to transition) (crossFadeDuration transition)
      | None => Ok c1
      end
  end.

(** The observer registered in [onStart]: one frame. *)
Definition tick (c : Controller) (deltaTime : R) : Result :=
  bind (updateCrossFade c deltaTime) update.

(** ** Construction *)

(** First loop of the constructor: store the nodes by id. *)
Fixpoint storeNodes (ns : list AnimationNode)
    (acc : list (string * AnimationNode))
    : Error + list (string * AnimationNode) :=
  match ns with
  | [] => inr acc
  | node :: rest =>
      if jsmap_has (node_id node) acc
      then inl (DuplicateNodeId (node_id node))
      else storeNodes rest (jsmap_set (node_id node) node acc)
  end.

(** Second loop: every transition names stored nodes. *)
Fixpoint validateTransitions (stored : list (string * AnimationNode))
    (ts : list AnimationTransition) : option Error :=
  match ts with
  | [] => None
  | transition :: rest =>
      if negb (jsmap_has (from transition) stored)
      then Some (UnknownTransitionNode (from transition))
      else if negb (jsmap_has (to transition) stored)
      then Some (UnknownTransitionNode (to transition))
      else validateTransitions stored rest
  end.

(** The constructor's argument, [args : unknown]: a JavaScript value, by
    its type; of an object, the keys it has. *)
Inductive JsValue :=
  | JsUndefined
  | JsNull
  | JsBoolean (b : bool)
  | JsNumber (r : R)
  | JsString (s : string)
  | JsArray
  | JsObject (keys : list string).

(** Whether [argsSchema.parse(args)] returns. The schema is Zod's empty
    object schema [z.object({})]: a plain object passes, whatever its keys;
    [undefined], [null], a primitive and an array make [parse] throw a
    [ZodError]. *)
Definition argsSchema_parse (args : JsValue) : bool :=
  match args with
  | JsObject _ => true
  | _ => false
  end.

(** The constructor after its first statement, [argsSchema.parse(args)],
    has returned, as a function of the three module constants. *)
Definition construct (animationNodes : list AnimationNode)
    (animationTransitions : list AnimationTransition)
    (initialNodeId : string) : Error + Controller :=
  match storeNodes animationNodes [] with
  | inl e => inl e
  | inr stored =>
      match validateTransitions stored animationTransitions with
      | Some e => inl e
      | None =>
          if negb (jsmap_has initialNodeId stored)
          then inl (UnknownInitialNode initialNodeId)
          else inr (mkController initialNodeId stored [] None []
                      animationTransitions ∅)
      end
  end.

(** The whole constructor: the arguments are parsed before any check of the
    graph. *)
Definition AnimationController_constructor (args : JsValue)
    (animationNodes : list AnimationNode)
    (animationTransitions : list AnimationTransition)
    (initialNodeId : string) : Error + Controller :=
  if argsSchema_parse args
  then construct animationNodes animationTransitions initialNodeId
  else inl ZodError.

(** [setupAnimations]: [found] lists, in scene order, the enum members that
    an animation group of this mesh is named after.  Each is bound, stopped,
    set to weight 0, and given the loop flag and speed of the first single
    node that plays it (looping at speed 1 otherwise).  The closing
    [playNode(this.currentNodeId, 0)] is included. *)
Definition singleNodeConfig (ns : list (string * AnimationNode))
    (s : AnimationState) : option AnimationSingleNode :=
  head (omap (λ '(_, node),
                match node with
                | Single n =>
                    if decide (single_state n = s) then Some n else None
                | Blend _ => None
                end) ns).

Definition bindGroup (ns : list (string * AnimationNode))
    (gs : list (AnimationState * AnimGroup)) (s : AnimationState)
    : list (AnimationState * AnimGroup) :=
  match singleNodeConfig ns s with
  | Some n => jsmap_set s (mkGroup 0%R false (single_loop n) (single_speed n)) gs
  | None => jsmap_set s (mkGroup 0%R false true 1%R) gs
  end.

Definition setupAnimations (c : Controller) (found : list AnimationState)
    : Result :=
  let c1 :=
    with_groups c (foldl (bindGroup (nodes c)) (animationGroups c) found) in
  playNode c1 (currentNodeId c1) 0%R.

(** ** The constants of the source *)

Definition movementNode : AnimationBlendNode :=
  mkBlend "movement"
    [ mkSample IDLE 0 0; mkSample WALK_FORWARD 0 1;
      mkSample WALK_BACKWARD 0 (-1); mkSample WALK_LEFT (-1) 0;
      mkSample WALK_RIGHT 1 0; mkSample RUN_FORWARD 0 2;
      mkSample RUN_BACKWARD 0 (-2); mkSample RUN_LEFT (-2) 0;
      mkSample RUN_RIGHT 2 0 ].

Definition jumpUpNode : AnimationSingleNode :=
  mkSingle "JumpUp" JUMP_UP 1.0 false.

Definition jumpFallingNode : AnimationSingleNode :=
  mkSingle "JumpFalling" JUMP_FALLING 1.0 true.

Definition ANIMATION_NODES : list AnimationNode :=
  [ Blend movementNode; Single jumpUpNode; Single jumpFallingNode ].

Definition ANIMATION_TRANSITIONS : list AnimationTransition :=
  [ mkTransition "movement" "JumpUp"
      [ mkCondition "isJumping" OpEq (VBool true) ] 0;
    mkTransition "JumpUp" "JumpFalling" [] 0;
    mkTransition "JumpFalling" "movement"
      [ mkCondition "isJumping" OpEq (VBool false) ] 0 ].

Definition INITIAL_NODE_ID : string := "movement".

(** ** Sums of weights *)

Definition sumR (l : list R) : R := foldr Rplus 0%R l.

(** [Σ_j 1 / (d_j + 0.001)] over the samples of a blend node. *)
Definition totalRawWeight (x z : R) (anims : list BlendSample) : R :=
  sumR (rawWeight x z <$> anims).

(** The 2D input point of [updateBlendNodeWeights]. *)
Definition inputX (c : Controller) : R :=
  numberOrZero (variables c !! "directionX").
Definition inputZ (c : Controller) : R :=
  numberOrZero (variables c !! "directionZ").

(** ** The evaluator, clause by clause *)

(** The test of an empty condition list, in the words of the loop body: the
    current node is a single node, its clip is bound, and the clip is not
    playing. *)
Definition currentClipStopped (c : Controller) : bool :=
  match jsmap_get (currentNodeId c) (nodes c) with
  | Some (Single currentNode) =>
      match jsmap_get (single_state currentNode) (animationGroups c) with
      | Some animGroup => negb (isPlaying animGroup)
      | None => false
      end
  | _ => false
  end.

(** When the loop returns a transition whose [from] is the current node. *)
Definition transitionSatisfied (c : Controller) (t : AnimationTransition)
    : bool :=
  match conditions t with
  | [] => currentClipStopped c
  | _ :: _ => forallb (evaluateCondition c) (conditions t)
  end.

Definition transitionFires (c : Controller) (t : AnimationTransition) : bool :=
  bool_decide (from t = currentNodeId c) && transitionSatisfied c t.

(** ** Graph data and host calls *)

Definition nodeIds (ns : list AnimationNode) : list string := node_id <$> ns.

(** What the constructor checks, as a property of the three constants. *)
Definition malformedGraph (ns : list AnimationNode)
    (ts : list AnimationTransition) (initialNodeId : string) : Prop :=
  ¬ NoDup (nodeIds ns)
  ∨ Exists (λ t, from t ∉ nodeIds ns ∨ to t ∉ nodeIds ns) ts
  ∨ initialNodeId ∉ nodeIds ns.

(** The pointers into the node map that the per-frame code follows. *)
Definition graphValid (c : Controller) : Prop :=
  currentNodeId c ∈ (nodes c).*1 ∧
  Forall (λ t, to t ∈ (nodes c).*1) (transitions c).

(** What the host may do with a controller between frames. *)
Inductive HostCall :=
  | CallTick (deltaTime : R)
  | CallSetVariable (name : string) (v : Value)
  | CallPlayNode (nodeId : string) (crossFadeDuration : R).

Definition hostStep (c : Controller) (call : HostCall) : Result :=
  match call with
  | CallTick deltaTime => tick c deltaTime
  | CallSetVariable name v => Ok (setVariable c name v)
  | CallPlayNode nodeId crossFadeDuration =>
      playNode c nodeId crossFadeDuration
  end.

Fixpoint run (c : Controller) (calls : list HostCall) : Result :=
  match calls with
  | [] => Ok c
  | call :: rest => bind (hostStep c call) (λ c', run c' rest)
  end.

(** A host call that does not ask for an unknown node. *)
Definition knownCall (c : Controller) (call : HostCall) : Prop :=
  match call with
  | CallPlayNode nodeId _ => nodeId ∈ (nodes c).*1
  | _ => True
  end.

(** ** Observations *)

(** The weight of the clip bound to a state, 0 when none is bound. *)
Definition clipWeight (c : Controller) (s : AnimationState) : R :=
  match jsmap_get s (animationGroups c) with
  | Some g => weight g
  | None => 0%R
  end.

Definition clipPlaying (c : Controller) (s : AnimationState) : bool :=
  match jsmap_get s (animationGroups c) with
  | Some g => isPlaying g
  | None => false
  end.

(** The state a method leaves behind, whether it returned or threw. *)
Definition stateOf (r : Result) : Controller :=
  match r with
  | Ok c => c
  | Throw c _ => c
  end.

(** What the scheduler and the node activation never touch. *)
Definition sameGraph (c c' : Controller) : Prop :=
  nodes c' = nodes c ∧ transitions c' = transitions c ∧
  currentNodeId c' = currentNodeId c ∧ variables c' = variables c.

(** ** Sample states used in the statements below *)

(** The controller the constructor of the source builds. *)
Definition constructed : Controller :=
  mkController INITIAL_NODE_ID ((λ n, (node_id n, n)) <$> ANIMATION_NODES)
    [] None [] ANIMATION_TRANSITIONS ∅.


(** A blend node with three samples at three positions, the first and the
    last playing the same clip. *)
Definition sharedClipNode : AnimationBlendNode :=
  mkBlend "shared"
    [ mkSample IDLE 0 0; mkSample WALK_FORWARD 1 0; mkSample IDLE 5 0 ].

(** The two-sample blend node of the specification's example. *)
Definition idleWalkNode : AnimationBlendNode :=
  mkBlend "idleWalk" [ mkSample IDLE 0 0; mkSample WALK_FORWARD 0 1 ].

(** The controller after [setupAnimations] found a clip for every state. *)
Definition ready : Controller :=
  with_groups constructed
    (foldl (bindGroup (nodes constructed)) [] allStates).

(** Every state but [JUMP_UP] has a clip. *)
Definition statesWithoutJumpUp : list AnimationState :=
  [IDLE; WALK_FORWARD; WALK_BACKWARD; WALK_LEFT; WALK_RIGHT;
   RUN_FORWARD; RUN_BACKWARD; RUN_LEFT; RUN_RIGHT; JUMP_FALLING].

(** Two transitions out of [movement] guarded by the same condition. *)
Definition twoJumpTransitions : list AnimationTransition :=
  [ mkTransition "movement" "JumpUp"
      [ mkCondition "isJumping" OpEq (VBool true) ] 0;
    mkTransition "movement" "JumpFalling"
      [ mkCondition "isJumping" OpEq (VBool true) ] 0 ].

Definition jumpingController : Controller :=
  setVariable
    (mkController INITIAL_NODE_ID (nodes constructed) [] None []
       twoJumpTransitions ∅)
    "isJumping" (VBool true).

(** A graph whose initial node is a looping single node with an automatic
    transition. *)
Definition loopingNodes : list AnimationNode :=
  [ Single (mkSingle "Fall" JUMP_FALLING 1 true);
    Single (mkSingle "Up" JUMP_UP 1 false) ].

Definition loopingTransitions : list AnimationTransition :=
  [ mkTransition "Fall" "Up" [] 0 ].

(** A run of the source's graph with every clip bound: a hard cut to
    [JumpUp], a one-second cross-fade to [JumpFalling], half a second of
    it, a one-second cross-fade to [movement], and half a second of that.
    Each state is written as the assignments the run performs; the lemmas
    [run_*] below check them against the methods. *)
Definition atJumpUp : Controller :=
  with_currentNodeId (playAnimationImmediate ready JUMP_UP) "JumpUp".

Definition fadeToFalling : Controller :=
  with_currentNodeId
    (with_activeBlend
       (with_groups atJumpUp
          (start JUMP_FALLING
             (setWeight JUMP_FALLING 1 (animationGroups atJumpUp))))
       (Some (mkBlendInfo JUMP_UP JUMP_FALLING 0 1)))
    "JumpFalling".

Definition fadeToFallingHalfway : Controller :=
  updateCrossFadeWeights
    (with_activeBlend fadeToFalling
       (Some (mkBlendInfo JUMP_UP JUMP_FALLING (0 + 0.5 / 1) 1))).

Definition fadeToMovement : Controller :=
  with_currentNodeId
    (with_activeBlend
       (with_groups (updateBlendNodeWeights fadeToFallingHalfway movementNode)
          (foldl (λ gs anim,
                    start (sample_state anim)
                      (setWeight (sample_state anim) 0 gs))
                 (animationGroups fadeToFallingHalfway)
                 (animations movementNode)))
       (Some (mkBlendInfo JUMP_FALLING IDLE 0 1)))
    "movement".

Definition fadeToMovementHalfway : Controller :=
  updateBlendNodeWeights
    (updateCrossFadeWeights
       (with_activeBlend fadeToMovement
          (Some (mkBlendInfo JUMP_FALLING IDLE (0 + 0.5 / 1) 1))))
    movementNode.

(** A run in which [JumpUp] has no clip: a one-second cross-fade to
    [JumpFalling], then [playNode] on [JumpUp]. *)
Definition readyWithoutJumpUp : Controller :=
  with_groups constructed
    (foldl (bindGroup (nodes constructed)) [] statesWithoutJumpUp).

Definition fadingWithoutJumpUp : Controller :=
  with_currentNodeId
    (with_activeBlend
       (with_groups readyWithoutJumpUp
          (start JUMP_FALLING
             (setWeight JUMP_FALLING 1 (animationGroups readyWithoutJumpUp))))
       (Some (mkBlendInfo IDLE JUMP_FALLING 0 1)))
    "JumpFalling".

Definition fadingAtJumpUp : Controller :=
  with_currentNodeId fadingWithoutJumpUp "JumpUp".

(** The looping graph, constructed, set up with both clips bound, and after
    its first frame. *)
Definition loopingConstructed : Controller :=
  mkController "Fall" ((λ n, (node_id n, n)) <$> loopingNodes) [] None []
    loopingTransitions ∅.

Definition loopingReady : Controller :=
  with_groups loopingConstructed
    (foldl (bindGroup (nodes loopingConstructed)) [] [JUMP_FALLING; JUMP_UP]).

Definition loopingAtUp : Controller :=
  with_currentNodeId (playAnimationImmediate loopingReady JUMP_UP) "Up".

(** The source's controller once the host reports a jump. *)
Definition jumpRequested : Controller :=
  setVariable constructed "isJumping" (VBool true).

(** ** Further observations *)

(** Whether a state has a clip bound to it. *)
Definition clipBound (c : Controller) (s : AnimationState) : Prop :=
  is_Some (jsmap_get s (animationGroups c)).

(** [n] calls of [updateCrossFade] with the same frame time, the scheduler
    half of [n] frames. *)
Fixpoint updateCrossFadeTimes (n : nat) (c : Controller) (deltaTime : R)
    : Result :=
  match n with
  | O => Ok c
  | S n' =>
      bind (updateCrossFade c deltaTime)
           (λ c', updateCrossFadeTimes n' c' deltaTime)
  end.

(** The group [setupAnimations] binds to a state: stopped, at weight 0, with
    the loop flag and speed of the first single node that plays the state,
    and looping at speed 1 when there is none. *)
Definition initialGroup (ns : list (string * AnimationNode))
    (s : AnimationState) : AnimGroup :=
  match singleNodeConfig ns s with
  | Some n => mkGroup 0%R false (single_loop n) (single_speed n)
  | None => mkGroup 0%R false true 1%R
  end.

(** A node list in which the id [JumpUp] occurs twice. *)
Definition repeatedIdNodes : list AnimationNode :=
  [ Single jumpUpNode; Blend movementNode; Single jumpUpNode ].

(** * The movement controller

    [MovementController] is the caller that writes the three variables the
    source graph reads. It is modelled by its state machine, its key
    handlers and [updateAnimation]; the physics engine enters through its two
    answers per step, whether the character is supported and whether the
    downward ray hit the ground. *)

Module Movement.
Local Open Scope R_scope.

Inductive MovementState := IN_AIR | ON_GROUND | START_JUMP.

#[global] Instance MovementState_eq_dec : EqDecision MovementState.
Proof. solve_decision. Defined.

(** Babylon's [Vector3], as far as the controller uses it. *)
Record Vector3 := mkVector3 { vec_x : R; vec_y : R; vec_z : R }.

Definition setAll (v : R) : Vector3 := mkVector3 v v v.

Definition Vector3_length (v : Vector3) : R :=
  sqrt (vec_x v * vec_x v + vec_y v * vec_y v + vec_z v * vec_z v).

Definition scaleInPlace (v : Vector3) (scale : R) : Vector3 :=
  mkVector3 (vec_x v * scale) (vec_y v * scale) (vec_z v * scale).

(** [normalize] leaves a vector of length 0 or 1 as it is and scales any
    other by the inverse of its length; in exact arithmetic here, in
    binary64 in [Binary64.Vector3_normalize]. *)
Definition Vector3_normalize (v : Vector3) : Vector3 :=
  let len := Vector3_length v in
  if decide (len = 0 ∨ len = 1) then v else scaleInPlace v (1 / len).

(** [hasHit] is the flag of [jumpAnimationRaycastResult];
    [animationController] is the state of the controller found among the
    child nodes, if any. *)
Record MovementController := mkMovement {
  state : MovementState;
  hasHit : bool;
  pressedKeys : gset string;
  inputDirection : Vector3;
  inputRun : bool;
  inputJump : bool;
  jumpRequested : bool;
  animationController : option Controller
}.

Definition has (m : MovementController) (code : string) : bool :=
  bool_decide (code ∈ pressedKeys m).

Definition updateDirectionalInput (m : MovementController)
    : MovementController :=
  let d0 := setAll 0 in
  let d1 :=
    if has m "KeyW" || has m "ArrowUp"
    then mkVector3 (vec_x d0) (vec_y d0) (vec_z d0 - 1) else d0 in
  let d2 :=
    if has m "KeyS" || has m "ArrowDown"
    then mkVector3 (vec_x d1) (vec_y d1) (vec_z d1 + 1) else d1 in
  let d3 :=
    if has m "KeyA" || has m "ArrowLeft"
    then mkVector3 (vec_x d2 - 1) (vec_y d2) (vec_z d2) else d2 in
  let d4 :=
    if has m "KeyD" || has m "ArrowRight"
    then mkVector3 (vec_x d3 + 1) (vec_y d3) (vec_z d3) else d3 in
  let run := has m "ShiftLeft" || has m "ShiftRight" in
  let d :=
    if decide (Vector3_length d4 > 1) then Vector3_normalize d4 else d4 in
  mkMovement (state m) (hasHit m) (pressedKeys m) d run
    (inputJump m) (jumpRequested m) (animationController m).

(** The two key handlers registered in [onStart]. *)
Definition onKeyDown (m : MovementController) (code : string)
    : MovementController :=
  let keys := {[ code ]} ∪ pressedKeys m in
  let fresh := bool_decide (code = "Space") && negb (inputJump m) in
  updateDirectionalInput
    (mkMovement (state m) (hasHit m) keys (inputDirection m) (inputRun m)
       (if fresh then true else inputJump m)
       (if fresh then true else jumpRequested m)
       (animationController m)).

Definition onKeyUp (m : MovementController) (code : string)
    : MovementController :=
  let keys := pressedKeys m ∖ {[ code ]} in
  updateDirectionalInput
    (mkMovement (state m) (hasHit m) keys (inputDirection m) (inputRun m)
       (if bool_decide (code = "Space") then false else inputJump m)
       (jumpRequested m) (animationController m)).

Inductive KeyEvent := KeyDown (code : string) | KeyUp (code : string).

Definition keyEvent (m : MovementController) (e : KeyEvent)
    : MovementController :=
  match e with
  | KeyDown code => onKeyDown m code
  | KeyUp code => onKeyUp m code
  end.

(** [supported] is [supportInfo.supportedState === SUPPORTED]. *)
Definition getNextState (m : MovementController) (supported : bool)
    : MovementState :=
  match state m with
  | IN_AIR => if supported then ON_GROUND else IN_AIR
  | ON_GROUND =>
      if negb supported then IN_AIR
      else if jumpRequested m then START_JUMP
      else ON_GROUND
  | START_JUMP => IN_AIR
  end.

(** The state update that opens [getDesiredVelocity]; the velocity computed
    after it writes no field of the controller. *)
Definition enterNextState (m : MovementController) (supported : bool)
    : MovementController :=
  let nextState := getNextState m supported in
  if decide (nextState ≠ state m) then
    mkMovement nextState (hasHit m) (pressedKeys m) (inputDirection m)
      (inputRun m) (inputJump m)
      (if decide (nextState = START_JUMP) then false else jumpRequested m)
      (animationController m)
  else m.

Definition airborne (m : MovementController) : bool :=
  bool_decide (state m = START_JUMP) || bool_decide (state m = IN_AIR).

Definition updateAnimation (m : MovementController) : MovementController :=
  match animationController m with
  | None => m
  | Some c =>
      let isJumping := airborne m && negb (hasHit m) in
      let c1 := setVariable c "isJumping" (VBool isJumping) in
      let speedMultiplier := if inputRun m then 2 else 1 in
      let c2 :=
        setVariable c1 "directionX"
          (VNum (vec_x (inputDirection m) * speedMultiplier)) in
      let c3 :=
        setVariable c2 "directionZ"
          (VNum (vec_z (inputDirection m) * speedMultiplier)) in
      mkMovement (state m) (hasHit m) (pressedKeys m) (inputDirection m)
        (inputRun m) (inputJump m) (jumpRequested m) (Some c3)
  end.

Definition clearMovementState (m : MovementController) : MovementController :=
  mkMovement (state m) (hasHit m) ∅ (setAll 0) false false false
    (animationController m).

(** One physics step on a scene with an input mode manager and a physics
    engine (without them the step throws), as far as it writes the
    controller's fields: [dt] is the frame time in seconds, [gameplay]
    whether the input mode is [GAMEPLAY], [supported] and [hit] the answers
    of the character controller and of the downward ray. Outside gameplay
    mode no ray is cast and the previous result stays. *)
Definition physicsUpdate (m : MovementController) (dt : R)
    (gameplay supported hit : bool) : MovementController :=
  if decide (dt = 0) then m
  else if negb gameplay then updateAnimation (clearMovementState m)
  else
    let m1 := enterNextState m supported in
    updateAnimation
      (mkMovement (state m1) hit (pressedKeys m1) (inputDirection m1)
         (inputRun m1) (inputJump m1) (jumpRequested m1)
         (animationController m1)).

(** The fields a freshly constructed controller starts with, next to the
    animation controller [onStart] finds. *)
Definition initial (c : option Controller) : MovementController :=
  mkMovement IN_AIR false ∅ (setAll 0) false false false c.

(** What happens to the controller between two frames: a key event or a
    physics step. *)
Inductive Event :=
  | Key (e : KeyEvent)
  | Physics (dt : R) (gameplay supported hit : bool).

Definition handle (m : MovementController) (ev : Event) : MovementController :=
  match ev with
  | Key e => keyEvent m e
  | Physics dt gameplay supported hit =>
      physicsUpdate m dt gameplay supported hit
  end.

Definition gameplayEvent (ev : Event) : Prop :=
  match ev with
  | Key _ => True
  | Physics _ gameplay _ _ => gameplay = true
  end.

(** The direction keys that are down. *)
Definition forwardKey (m : MovementController) : bool :=
  has m "KeyW" || has m "ArrowUp".
Definition backwardKey (m : MovementController) : bool :=
  has m "KeyS" || has m "ArrowDown".
Definition leftKey (m : MovementController) : bool :=
  has m "KeyA" || has m "ArrowLeft".
Definition rightKey (m : MovementController) : bool :=
  has m "KeyD" || has m "ArrowRight".
Definition runKey (m : MovementController) : bool :=
  has m "ShiftLeft" || has m "ShiftRight".

End Movement.

(** The clip whose weight is strictly the largest once the controller has
    recomputed the weights of blend node [n] from its variables. *)
Definition strictlyLargestWeight (c : Controller) (n : AnimationBlendNode)
    (s : AnimationState) : Prop :=
  let bw := blendWeights (updateBlendNodeWeights c n) in
  ∀ s', s' ∈ sample_state <$> animations n → s' ≠ s →
        (blendWeightOrZero bw s' < blendWeightOrZero bw s)%R.

(** Membership in a list written out in the source. *)
Ltac in_list :=
  repeat (apply elem_of_cons; first [left; reflexivity | right]).

(** * The arithmetic in binary64

    The source computes with JavaScript numbers, IEEE 754 binary64, where
    the definitions above compute with reals. This module gives the
    arithmetic of the source once more, on the kernel's binary64 floats, for
    the statements that rounding, overflow or [NaN] decide: the easing
    curve, the blend weights, the direction the key handlers leave, and the
    progress of a cross-fade. *)

Module Binary64.
Local Open Scope float_scope.

Definition easeInOutQuad (t : float) : float :=
  if t <? 0.5 then 2 * t * t else -1 + (4 - 2 * t) * t.

Record BlendSample := mkSample {
  sample_state : AnimationState;
  position_x : float;
  position_z : float
}.

Definition distance (x z : float) (anim : BlendSample) : float :=
  let dx := x - position_x anim in
  let dz := z - position_z anim in
  PrimFloat.sqrt (dx * dx + dz * dz).

Definition rawWeight (x z : float) (anim : BlendSample) : float :=
  1 / (distance x z anim + 0.001).

(** The two loops of [updateBlendNodeWeights], from the input point
    [(x, z)] on. *)
Definition accumulateWeights (x z : float) (anims : list BlendSample)
    : list (AnimationState * float) * float :=
  foldl (λ '(weights, totalWeight) anim,
           let w := rawWeight x z anim in
           (jsmap_set (sample_state anim) w weights, totalWeight + w))
        ([], 0) anims.

Definition normalizeWeights (weights : list (AnimationState * float))
    (totalWeight : float) : list (AnimationState * float) :=
  foldl (λ bw '(s, w), jsmap_set s (w / totalWeight) bw) [] weights.

Definition blendNodeWeights (x z : float) (anims : list BlendSample)
    : list (AnimationState * float) :=
  let '(weights, totalWeight) := accumulateWeights x z anims in
  normalizeWeights weights totalWeight.

(** The weight stored for a clip, 0 when there is none. *)
Definition storedWeight (bw : list (AnimationState * float))
    (s : AnimationState) : float :=
  match jsmap_get s bw with Some w => w | None => 0 end.


(** The samples of the source's [movement] node. *)
Definition movementSamples : list BlendSample :=
  [ mkSample IDLE 0 0; mkSample WALK_FORWARD 0 1;
    mkSample WALK_BACKWARD 0 (-1); mkSample WALK_LEFT (-1) 0;
    mkSample WALK_RIGHT 1 0; mkSample RUN_FORWARD 0 2;
    mkSample RUN_BACKWARD 0 (-2); mkSample RUN_LEFT (-2) 0;
    mkSample RUN_RIGHT 2 0 ].

(** Babylon's [Vector3], as far as the movement controller uses it. *)
Record Vector3 := mkVector3 { vec_x : float; vec_y : float; vec_z : float }.

Definition Vector3_length (v : Vector3) : float :=
  PrimFloat.sqrt (vec_x v * vec_x v + vec_y v * vec_y v + vec_z v * vec_z v).

Definition scaleInPlace (v : Vector3) (scale : float) : Vector3 :=
  mkVector3 (vec_x v * scale) (vec_y v * scale) (vec_z v * scale).

Definition Vector3_normalize (v : Vector3) : Vector3 :=
  let len := Vector3_length v in
  if (len =? 0) || (len =? 1) then v else scaleInPlace v (1 / len).

(** [updateDirectionalInput], from the four tests of [pressedKeys] on: the
    direction it leaves in [inputDirection]. *)
Definition updateDirectionalInput (forward backward left right : bool)
    : Vector3 :=
  let d0 := mkVector3 0 0 0 in
  let d1 :=
    if forward then mkVector3 (vec_x d0) (vec_y d0) (vec_z d0 - 1) else d0 in
  let d2 :=
    if backward then mkVector3 (vec_x d1) (vec_y d1) (vec_z d1 + 1) else d1 in
  let d3 :=
    if left then mkVector3 (vec_x d2 - 1) (vec_y d2) (vec_z d2) else d2 in
  let d4 :=
    if right then mkVector3 (vec_x d3 + 1) (vec_y d3) (vec_z d3) else d3 in
  if 1 <? Vector3_length d4 then Vector3_normalize d4 else d4.

(** The values [updateAnimation] stores in [directionX] and [directionZ]
    after the key handlers ran. *)
Definition blendInput (forward backward left right run : bool)
    : float * float :=
  let d := updateDirectionalInput forward backward left right in
  let speedMultiplier := if run then 2 else 1 in
  (vec_x d * speedMultiplier, vec_z d * speedMultiplier).

(** The progress of a cross-fade after one more frame:
    [progress += deltaTime / duration]. *)
Definition advanceProgress (progress deltaTime duration : float) : float :=
  progress + deltaTime / duration.


End Binary64.

(** * Properties *)

(** ** Easing *)

Section Easing.
Local Open Scope R_scope.

Lemma easeInOutQuad_lt t : t < 0.5 → easeInOutQuad t = 2 * t * t.
Proof. intros Ht. unfold easeInOutQuad. by rewrite decide_True. Qed.

Lemma easeInOutQuad_ge t :
  0.5 <= t → easeInOutQuad t = -1 + (4 - 2 * t) * t.
Proof.
  intros Ht. unfold easeInOutQuad. rewrite decide_False; [done | lra].
Qed.

Lemma easeInOutQuad_half : easeInOutQuad 0.5 = 0.5.
Proof. rewrite easeInOutQuad_ge; lra. Qed.

(** In exact arithmetic the curve is point-symmetric about (0.5, 0.5):
    [ease t + ease (1 - t) = 1] for every [t]. *)
Lemma easeInOutQuad_symmetry_in_exact_arithmetic (t : R) :
  easeInOutQuad t + easeInOutQuad (1 - t) = 1.
Proof.
  destruct (Rlt_le_dec t 0.5) as [Hlt | Hge].
  - rewrite (easeInOutQuad_lt t), (easeInOutQuad_ge (1 - t)); lra.
  - destruct (Rle_lt_or_eq_dec _ _ Hge) as [Hgt | Heq].
    + rewrite (easeInOutQuad_ge t), (easeInOutQuad_lt (1 - t)); lra.
    + subst t. replace (1 - 0.5) with 0.5 by lra.
      rewrite easeInOutQuad_half. lra.
Qed.
End Easing.

(** ** The easing curve in binary64 *)

Section EasingBinary64.





End EasingBinary64.


(** ** Transition evaluator *)

Lemma evaluateTransitionsFrom_cons c t rest :
  evaluateTransitionsFrom c (t :: rest) =
  if transitionFires c t then Some t else evaluateTransitionsFrom c rest.
Proof.
  unfold transitionFires, transitionSatisfied, currentClipStopped. simpl.
  destruct (decide (from t ≠ currentNodeId c)) as [Hne | Heq].
  - by rewrite bool_decide_eq_false_2.
  - apply dec_stable in Heq. rewrite bool_decide_eq_true_2 by done. simpl.
    destruct (conditions t) as [| cond conds]; [| done].
    destruct (jsmap_get _ _) as [[n | n] |]; try done.
    destruct (jsmap_get (single_state n) _) as [g |]; [| done].
    by destruct (isPlaying g).
Qed.

Lemma evaluateTransitionsFrom_Some c ts t :
  evaluateTransitionsFrom c ts = Some t →
  ∃ before after,
    ts = before ++ t :: after ∧ transitionFires c t = true ∧
    Forall (λ t', transitionFires c t' = false) before.
Proof.
  induction ts as [| t0 rest IH]; [done |].
  rewrite evaluateTransitionsFrom_cons.
  destruct (transitionFires c t0) eqn:Hfires.
  - intros [= <-]. by exists [], rest.
  - intros (before & after & -> & Ht & Hbefore)%IH.
    exists (t0 :: before), after. split_and!; [done | done |].
    by constructor.
Qed.

Lemma evaluateTransitionsFrom_None c ts :
  evaluateTransitionsFrom c ts = None →
  Forall (λ t, transitionFires c t = false) ts.
Proof.
  induction ts as [| t0 rest IH]; [by constructor |].
  rewrite evaluateTransitionsFrom_cons.
  destruct (transitionFires c t0) eqn:Hfires; [done |].
  intros Hrest. constructor; [done | by apply IH].
Qed.

Lemma evaluateTransitionsFrom_first c before t after :
  Forall (λ t', transitionFires c t' = false) before →
  transitionFires c t = true →
  evaluateTransitionsFrom c (before ++ t :: after) = Some t.
Proof.
  induction 1 as [| t0 before Ht0 _ IH]; intros Ht; simpl app.
  - by rewrite evaluateTransitionsFrom_cons, Ht.
  - rewrite evaluateTransitionsFrom_cons, Ht0. by apply IH.
Qed.

Lemma transitionFires_true c t :
  transitionFires c t = true ↔
  from t = currentNodeId c ∧ transitionSatisfied c t = true.
Proof.
  unfold transitionFires.
  rewrite andb_true_iff, bool_decide_eq_true. done.
Qed.

Lemma transitionFires_false c t :
  transitionFires c t = false ↔
  (from t = currentNodeId c → transitionSatisfied c t = false).
Proof.
  unfold transitionFires. rewrite andb_false_iff, bool_decide_eq_false.
  split.
  - intros [Hne | Hsat] Heq; [done | done].
  - intros H. destruct (decide (from t = currentNodeId c)); auto.
Qed.

(** C4. First match wins, in declaration order: the transition returned (if
    any) starts at the current node and is satisfied, and every transition
    declared before it either starts elsewhere or is not satisfied; whenever
    the list splits as [before ++ t :: after] with [t] from the current node
    and satisfied and nothing from the current node satisfied in [before],
    [t] is the one returned; and nothing is returned only when no transition
    from the current node is satisfied. *)
Theorem evaluateTransitions_first_match_wins (c : Controller) :
  (∀ t, evaluateTransitions c = Some t →
        ∃ before after,
          transitions c = before ++ t :: after ∧
          from t = currentNodeId c ∧ transitionSatisfied c t = true ∧
          ∀ t', t' ∈ before → from t' = currentNodeId c →
                transitionSatisfied c t' = false) ∧
  (∀ before t after,
     transitions c = before ++ t :: after →
     from t = currentNodeId c → transitionSatisfied c t = true →
     (∀ t', t' ∈ before → from t' = currentNodeId c →
            transitionSatisfied c t' = false) →
     evaluateTransitions c = Some t) ∧
  (evaluateTransitions c = None →
   ∀ t, t ∈ transitions c → from t = currentNodeId c →
        transitionSatisfied c t = false).
Proof.
  unfold evaluateTransitions. split_and!.
  - intros t (before & after & Hsplit & Ht & Hbefore)%evaluateTransitionsFrom_Some.
    apply transitionFires_true in Ht as [Hfrom Hsat].
    exists before, after. split_and!; try done.
    intros t' Hin. rewrite Forall_forall in Hbefore.
    by apply transitionFires_false, Hbefore.
  - intros before t after -> Hfrom Hsat Hbefore.
    apply evaluateTransitionsFrom_first.
    + apply Forall_forall. intros t' Hin.
      apply transitionFires_false. by apply Hbefore.
    + by apply transitionFires_true.
  - intros Hnone%evaluateTransitionsFrom_None t Hin.
    rewrite Forall_forall in Hnone. by apply transitionFires_false, Hnone.
Qed.

Lemma evaluateTransitionsFrom_head_iff c t rest :
  evaluateTransitionsFrom c (t :: rest) = Some t ↔ transitionFires c t = true.
Proof.
  split.
  - intros (before & after & _ & Ht & _)%evaluateTransitionsFrom_Some. done.
  - intros Ht. by rewrite evaluateTransitionsFrom_cons, Ht.
Qed.

(** C6. A condition on a variable that was never set is false, and a
    transition from the current node with a non-empty condition list is
    returned at its turn exactly when every one of its conditions is true. *)
Theorem evaluateCondition_missing_and_conjunction (c : Controller) :
  (∀ cond, variables c !! variable cond = None →
           evaluateCondition c cond = false) ∧
  (∀ t rest,
     from t = currentNodeId c → conditions t ≠ [] →
     (evaluateTransitionsFrom c (t :: rest) = Some t ↔
      ∀ cond, cond ∈ conditions t → evaluateCondition c cond = true)).
Proof.
  split.
  - intros cond Hnone. unfold evaluateCondition. by rewrite Hnone.
  - intros t rest Hfrom Hne.
    rewrite evaluateTransitionsFrom_head_iff, transitionFires_true.
    unfold transitionSatisfied.
    destruct (conditions t) as [| cond conds] eqn:Hconds; [done |].
    rewrite forallb_forall. split.
    + intros [_ Hall] cond0 Hin. by apply Hall, list_elem_of_In.
    + intros Hall. split; [done |]. intros cond0 Hin.
      by apply Hall, list_elem_of_In.
Qed.

(** C5, as the code has it. A transition from the current node with an empty
    condition list is returned at its turn exactly when the current node is a
    single node whose clip is bound to an animation group that is not
    playing; a clip that is still playing, an unbound clip and a blend node
    as source all leave it unselected. The loop flag is not read. *)
Theorem empty_conditions_fire_iff_clip_not_playing
    (c : Controller) (t : AnimationTransition)
    (rest : list AnimationTransition) :
  from t = currentNodeId c → conditions t = [] →
  (evaluateTransitionsFrom c (t :: rest) = Some t ↔
   ∃ n g, jsmap_get (currentNodeId c) (nodes c) = Some (Single n) ∧
          jsmap_get (single_state n) (animationGroups c) = Some g ∧
          isPlaying g = false).
Proof.
  intros Hfrom Hconds.
  rewrite evaluateTransitionsFrom_head_iff, transitionFires_true.
  unfold transitionSatisfied, currentClipStopped. rewrite Hconds.
  destruct (jsmap_get _ _) as [[n | n] |] eqn:Hnode.
  - destruct (jsmap_get (single_state n) _) as [g |] eqn:Hg.
    + rewrite negb_true_iff. split.
      * intros [_ Hstop]. by exists n, g.
      * intros (n' & g' & [= <-] & Hg' & Hstop). split; [done |].
        rewrite Hg in Hg'. by injection Hg' as ->.
    + split; [by intros [_ ?] |].
      intros (n' & g' & [= <-] & Hg' & _). by rewrite Hg in Hg'.
  - split; [by intros [_ ?] | by intros (? & ? & ? & _)].
  - split; [by intros [_ ?] | by intros (? & ? & ? & _)].
Qed.

(** C10. While the current node is a blend node, the evaluator never returns
    a transition with an empty condition list. *)
Theorem blend_source_never_fires_empty_conditions
    (c : Controller) (n : AnimationBlendNode) (t : AnimationTransition) :
  jsmap_get (currentNodeId c) (nodes c) = Some (Blend n) →
  evaluateTransitions c = Some t →
  from t = currentNodeId c ∧ conditions t ≠ [].
Proof.
  intros Hnode (before & after & _ & Ht & _)%evaluateTransitionsFrom_Some.
  apply transitionFires_true in Ht as [Hfrom Hsat]. split; [done |].
  intros Hconds. unfold transitionSatisfied, currentClipStopped in Hsat.
  by rewrite Hconds, Hnode in Hsat.
Qed.

(** ** Insertion-ordered maps *)

Section JsMapFacts.
Context {K V : Type} `{EqDecision K}.
Implicit Types (k : K) (v : V) (m : list (K * V)).

Lemma jsmap_get_None k m : jsmap_get k m = None ↔ k ∉ m.*1.
Proof.
  induction m as [| [k' v'] m IH]; simpl.
  - split; [intros _; apply not_elem_of_nil | done].
  - rewrite not_elem_of_cons. destruct (decide (k = k')) as [-> | Hne].
    + split; [done | by intros [? _]].
    + rewrite IH. split; [done | by intros [_ ?]].
Qed.

Lemma jsmap_get_Some_elem k v m : jsmap_get k m = Some v → (k, v) ∈ m.
Proof.
  induction m as [| [k' v'] m IH]; simpl; [done |].
  destruct (decide (k = k')) as [-> | Hne].
  - intros [= ->]. apply elem_of_cons. by left.
  - intros Hget. apply elem_of_cons. right. by apply IH.
Qed.

Lemma jsmap_has_true k m : jsmap_has k m = true ↔ k ∈ m.*1.
Proof.
  unfold jsmap_has. destruct (jsmap_get k m) eqn:Hget.
  - split; [intros _ | done].
    destruct (decide (k ∈ m.*1)) as [| Hnot]; [done |].
    apply jsmap_get_None in Hnot. congruence.
  - apply jsmap_get_None in Hget. split; [done | by intros ?].
Qed.

Lemma jsmap_has_false k m : jsmap_has k m = false ↔ k ∉ m.*1.
Proof.
  rewrite <- jsmap_has_true. destruct (jsmap_has k m); naive_solver.
Qed.

Lemma jsmap_set_fresh k v m : k ∉ m.*1 → jsmap_set k v m = m ++ [(k, v)].
Proof.
  induction m as [| [k' v'] m IH]; simpl; [done |].
  rewrite not_elem_of_cons. intros [Hne Hnot].
  rewrite decide_False by done. by rewrite IH.
Qed.

Lemma jsmap_get_app_l k m1 m2 :
  k ∈ m1.*1 → jsmap_get k (m1 ++ m2) = jsmap_get k m1.
Proof.
  induction m1 as [| [k' v'] m1 IH]; simpl.
  - by intros ?%elem_of_nil.
  - intros Hin. destruct (decide (k = k')); [done |].
    apply IH. apply elem_of_cons in Hin as [? | ?]; done.
Qed.

Lemma jsmap_get_app_r k m1 m2 :
  k ∉ m1.*1 → jsmap_get k (m1 ++ m2) = jsmap_get k m2.
Proof.
  induction m1 as [| [k' v'] m1 IH]; simpl; [done |].
  rewrite not_elem_of_cons. intros [Hne Hnot].
  rewrite decide_False by done. by apply IH.
Qed.

(** Filling a map from a list whose keys are new and pairwise distinct lays
    the entries out in list order. *)
Lemma foldl_jsmap_set_fresh {A} (key : A → K) (val : A → V) (l : list A) m :
  NoDup (m.*1 ++ (key <$> l)) →
  foldl (λ acc a, jsmap_set (key a) (val a) acc) m l
  = m ++ ((λ a, (key a, val a)) <$> l).
Proof.
  revert m. induction l as [| a l IH]; intros m Hnd; simpl.
  - by rewrite app_nil_r.
  - rewrite jsmap_set_fresh.
    + rewrite IH.
      * by rewrite <- app_assoc.
      * rewrite fmap_app. simpl. rewrite <- app_assoc. done.
    + apply NoDup_app in Hnd as (_ & Hdisj & _).
      intros Hin. apply (Hdisj _ Hin). simpl. apply elem_of_cons. by left.
Qed.

Lemma jsmap_get_fmap_NoDup {A} (key : A → K) (val : A → V) (l : list A) a :
  NoDup (key <$> l) → a ∈ l →
  jsmap_get (key a) ((λ a, (key a, val a)) <$> l) = Some (val a).
Proof.
  induction l as [| b l IH]; simpl.
  - intros _ ?%elem_of_nil. done.
  - intros [Hnot Hnd]%NoDup_cons [-> | Hin]%elem_of_cons.
    + by rewrite decide_True.
    + rewrite decide_False; [by apply IH |].
      intros Heq. apply Hnot. rewrite <- Heq. by apply list_elem_of_fmap_2.
Qed.
Lemma jsmap_get_alter (f : V → V) k k' m :
  jsmap_get k' (jsmap_alter f k m)
  = if decide (k' = k) then f <$> jsmap_get k' m else jsmap_get k' m.
Proof.
  induction m as [| [k0 v0] m IH]; simpl; [by destruct (decide _) |].
  destruct (decide (k = k0)) as [-> | Hk]; simpl.
  - destruct (decide (k' = k0)); by simpl.
  - destruct (decide (k' = k0)) as [-> | Hk'].
    + by rewrite decide_False by done.
    + apply IH.
Qed.
End JsMapFacts.

(** ** Blend weights *)

Section BlendWeights.
Local Open Scope R_scope.

Lemma distance_nonneg x z a : 0 <= distance x z a.
Proof. unfold distance. apply sqrt_pos. Qed.

Lemma rawWeight_pos x z a : 0 < rawWeight x z a.
Proof.
  unfold rawWeight. pose proof (distance_nonneg x z a).
  apply Rdiv_lt_0_compat; lra.
Qed.

Lemma sumR_app l1 l2 : sumR (l1 ++ l2) = sumR l1 + sumR l2.
Proof. induction l1 as [| r l1 IH]; simpl; [lra | rewrite IH; lra]. Qed.

Lemma sumR_nonneg l : Forall (λ r, 0 <= r) l → 0 <= sumR l.
Proof. induction 1; simpl; lra. Qed.

Lemma sumR_fmap_div {A} (f : A → R) (l : list A) (d : R) :
  sumR ((λ a, f a / d) <$> l) = sumR (f <$> l) / d.
Proof.
  induction l as [| a l IH]; csimpl; [lra |]. rewrite IH. lra.
Qed.

Lemma totalRawWeight_nonneg x z anims : 0 <= totalRawWeight x z anims.
Proof.
  apply sumR_nonneg, Forall_fmap, Forall_forall. intros a _. simpl.
  pose proof (rawWeight_pos x z a). lra.
Qed.

Lemma totalRawWeight_pos x z anims : anims ≠ [] → 0 < totalRawWeight x z anims.
Proof.
  destruct anims as [| a anims]; [done |]. intros _.
  pose proof (rawWeight_pos x z a).
  pose proof (totalRawWeight_nonneg x z anims) as Hrest.
  unfold totalRawWeight in *. csimpl. lra.
Qed.

(** The first loop with an arbitrary accumulator. *)
Lemma accumulateWeights_foldl x z anims weights totalWeight :
  foldl (λ '(weights, totalWeight) anim,
           let w := rawWeight x z anim in
           (jsmap_set (sample_state anim) w weights, totalWeight + w))
        (weights, totalWeight) anims
  = (foldl (λ acc a, jsmap_set (sample_state a) (rawWeight x z a) acc)
           weights anims,
     totalWeight + totalRawWeight x z anims).
Proof.
  revert weights totalWeight.
  induction anims as [| a anims IH]; intros weights totalWeight; simpl.
  - f_equal. unfold totalRawWeight. csimpl. lra.
  - rewrite IH. f_equal. unfold totalRawWeight. csimpl. lra.
Qed.

(** Whatever the samples, the total is the sum of all raw weights. *)
Lemma accumulateWeights_total x z anims :
  (accumulateWeights x z anims).2 = totalRawWeight x z anims.
Proof.
  unfold accumulateWeights. rewrite accumulateWeights_foldl. simpl. lra.
Qed.

(** The second loop with an arbitrary accumulator, over distinct keys. *)
Lemma normalizeWeights_foldl total (weights acc : list (AnimationState * R)) :
  NoDup (acc.*1 ++ weights.*1) →
  foldl (λ bw '(s, w), jsmap_set s (w / total) bw) acc weights
  = acc ++ ((λ e, (e.1, e.2 / total)) <$> weights).
Proof.
  revert acc. induction weights as [| [s w] weights IH]; intros acc Hnd; csimpl.
  - by rewrite app_nil_r.
  - rewrite jsmap_set_fresh.
    + rewrite IH.
      * by rewrite <- app_assoc.
      * rewrite fmap_app. csimpl. by rewrite <- app_assoc.
    + apply NoDup_app in Hnd as (_ & Hdisj & _).
      intros Hin. apply (Hdisj _ Hin). csimpl. apply elem_of_cons. by left.
Qed.

(** With pairwise distinct clips the map holds one entry per sample, in
    order, each normalised by the total. *)
Lemma blendNodeWeights_distinct x z n :
  NoDup (sample_state <$> animations n) →
  blendNodeWeights x z n
  = (λ a, (sample_state a,
           rawWeight x z a / totalRawWeight x z (animations n)))
    <$> animations n.
Proof.
  intros Hnd. unfold blendNodeWeights, accumulateWeights.
  rewrite accumulateWeights_foldl.
  rewrite (foldl_jsmap_set_fresh sample_state (rawWeight x z)) by done.
  simpl app. unfold normalizeWeights.
  replace (0 + totalRawWeight x z (animations n))
    with (totalRawWeight x z (animations n)) by lra.
  rewrite normalizeWeights_foldl.
  - simpl app. by rewrite <- list_fmap_compose.
  - simpl app. by rewrite <- list_fmap_compose.
Qed.
End BlendWeights.

Section BlendWeightClaims.
Local Open Scope R_scope.

Lemma updateBlendNodeWeights_blendWeights c n :
  blendWeights (updateBlendNodeWeights c n)
  = blendNodeWeights (inputX c) (inputZ c) n.
Proof. done. Qed.

(** In exact arithmetic the weights of a blend node with at least one
    sample and pairwise distinct clips sum to 1. *)
Lemma updateBlendNodeWeights_sum_in_exact_arithmetic
    (c : Controller) (n : AnimationBlendNode) :
  animations n ≠ [] →
  NoDup (sample_state <$> animations n) →
  sumR ((blendWeights (updateBlendNodeWeights c n)).*2) = 1.
Proof.
  intros Hne Hnd.
  rewrite updateBlendNodeWeights_blendWeights.
  set (x := inputX c). set (z := inputZ c).
  rewrite blendNodeWeights_distinct by done.
  rewrite <- list_fmap_compose.
  change (sumR ((λ a, rawWeight x z a / totalRawWeight x z (animations n))
                <$> animations n) = 1).
  rewrite (sumR_fmap_div (rawWeight x z)).
  pose proof (totalRawWeight_pos x z _ Hne).
  unfold totalRawWeight in *. field. lra.
Qed.





Lemma rawWeight_at_position a :
  rawWeight (position_x a) (position_z a) a = 1 / 0.001.
Proof.
  unfold rawWeight, distance.
  replace ((position_x a - position_x a) * (position_x a - position_x a)
           + (position_z a - position_z a) * (position_z a - position_z a))
    with 0 by lra.
  rewrite sqrt_0. f_equal. lra.
Qed.

Lemma rawWeight_away x z b :
  (x, z) ≠ (position_x b, position_z b) → rawWeight x z b < 1 / 0.001.
Proof.
  intros Hne. unfold rawWeight.
  assert (0 < distance x z b) as Hpos.
  { unfold distance. apply sqrt_lt_R0.
    pose proof (Rle_0_sqr (x - position_x b)) as Hxx.
    pose proof (Rle_0_sqr (z - position_z b)) as Hzz.
    unfold Rsqr in Hxx, Hzz.
    destruct (Req_dec x (position_x b)) as [Hx | Hx].
    - destruct (Req_dec z (position_z b)) as [Hz | Hz]; [congruence |].
      pose proof (Rsqr_pos_lt (z - position_z b)) as Hz'.
      unfold Rsqr in Hz'. lra.
    - pose proof (Rsqr_pos_lt (x - position_x b)) as Hx'.
      unfold Rsqr in Hx'. lra. }
  apply Rmult_lt_reg_r with (r := 0.001 * (distance x z b + 0.001));
    [nra |].
  field_simplify; lra.
Qed.

Lemma rawWeight_le_sumR x z (l : list BlendSample) b :
  b ∈ l → rawWeight x z b <= totalRawWeight x z l.
Proof.
  intros (l1 & l2 & ->)%list_elem_of_split.
  unfold totalRawWeight. rewrite fmap_app, sumR_app. csimpl.
  pose proof (totalRawWeight_nonneg x z l1).
  pose proof (totalRawWeight_nonneg x z l2).
  unfold totalRawWeight in *. lra.
Qed.

Lemma two_rawWeights_le_sumR x z (l : list BlendSample) a b :
  a ∈ l → b ∈ l → a ≠ b →
  rawWeight x z a + rawWeight x z b <= totalRawWeight x z l.
Proof.
  intros (l1 & l2 & ->)%list_elem_of_split Hb Hne.
  unfold totalRawWeight. rewrite fmap_app, sumR_app. csimpl.
  pose proof (totalRawWeight_nonneg x z l1) as H1.
  pose proof (totalRawWeight_nonneg x z l2) as H2.
  apply elem_of_app in Hb as [Hb | Hb].
  - pose proof (rawWeight_le_sumR x z l1 b Hb).
    unfold totalRawWeight in *. lra.
  - apply elem_of_cons in Hb as [-> | Hb]; [done |].
    pose proof (rawWeight_le_sumR x z l2 b Hb).
    unfold totalRawWeight in *. lra.
Qed.

Lemma NoDup_fmap_same_key {A B} (f : A → B) (l : list A) a b :
  NoDup (f <$> l) → a ∈ l → b ∈ l → f a = f b → a = b.
Proof.
  induction l as [| e l IH]; csimpl; [by intros _ ?%elem_of_nil |].
  intros [Hnot Hnd]%NoDup_cons [-> | Ha]%elem_of_cons [-> | Hb]%elem_of_cons
    Heq; [done | | | by apply IH].
  - exfalso. apply Hnot. rewrite Heq. by apply list_elem_of_fmap_2.
  - exfalso. apply Hnot. rewrite <- Heq. by apply list_elem_of_fmap_2.
Qed.

Lemma blendWeightOrZero_distinct x z n b :
  NoDup (sample_state <$> animations n) → b ∈ animations n →
  blendWeightOrZero (blendNodeWeights x z n) (sample_state b)
  = rawWeight x z b / totalRawWeight x z (animations n).
Proof.
  intros Hnd Hin. unfold blendWeightOrZero.
  rewrite blendNodeWeights_distinct by done.
  by rewrite (jsmap_get_fmap_NoDup sample_state
                (λ a, rawWeight x z a / totalRawWeight x z (animations n))).
Qed.

(** At the exact position of sample [a]: its weight is below 1, and every
    sample's weight is positive and at most the weight of [a]. *)
Lemma blendNodeWeights_at_sample (n : AnimationBlendNode) (a : BlendSample) :
  NoDup (sample_state <$> animations n) →
  (∀ i j b b', animations n !! i = Some b → animations n !! j = Some b' →
               i ≠ j →
               (position_x b, position_z b) ≠ (position_x b', position_z b')) →
  (2 ≤ length (animations n))%nat →
  a ∈ animations n →
  let bw := blendNodeWeights (position_x a) (position_z a) n in
  blendWeightOrZero bw (sample_state a) < 1 ∧
  ∀ b, b ∈ animations n →
       0 < blendWeightOrZero bw (sample_state b)
       ∧ blendWeightOrZero bw (sample_state b)
         <= blendWeightOrZero bw (sample_state a).
Proof.
  intros Hnd Hpos Hlen Ha bw. subst bw.
  set (x := position_x a). set (z := position_z a).
  assert (Hne : animations n ≠ []).
  { intros Hnil. rewrite Hnil in Ha. by apply elem_of_nil in Ha. }
  pose proof (totalRawWeight_pos x z _ Hne) as Htotal.
  assert (Haway : ∀ b, b ∈ animations n → b ≠ a →
                       rawWeight x z b < 1 / 0.001).
  { intros b Hb Hba. apply rawWeight_away.
    apply list_elem_of_lookup in Ha as [i Hi].
    apply list_elem_of_lookup in Hb as [j Hj].
    apply (Hpos i j a b Hi Hj). intros ->. congruence. }
  assert (Hother : ∃ b, b ∈ animations n ∧ b ≠ a).
  { destruct (animations n) as [| b0 [| b1 rest]] eqn:Hanims;
      [simpl in Hlen; lia | simpl in Hlen; lia |].
    destruct (decide (sample_state b0 = sample_state a)) as [Hb0 | Hb0].
    - exists b1. split; [apply elem_of_cons; right; apply elem_of_cons; by left |].
      intros ->. csimpl in Hnd.
      apply NoDup_cons in Hnd as [Hnot _]. apply Hnot.
      rewrite Hb0. apply elem_of_cons. by left.
    - exists b0. split; [apply elem_of_cons; by left | congruence]. }
  pose proof (rawWeight_at_position a) as Hraw. fold x z in Hraw.
  rewrite blendWeightOrZero_distinct by done.
  rewrite Hraw.
  split.
  - destruct Hother as (b & Hb & Hba).
    pose proof (two_rawWeights_le_sumR x z _ a b Ha Hb (not_eq_sym Hba)) as Hsum.
    rewrite Hraw in Hsum.
    pose proof (rawWeight_pos x z b).
    apply Rmult_lt_reg_r with (r := totalRawWeight x z (animations n));
      [done |].
    field_simplify; lra.
  - intros b Hb. rewrite blendWeightOrZero_distinct by done.
    pose proof (rawWeight_pos x z b) as Hb0. split.
    + by apply Rdiv_lt_0_compat.
    + apply Rmult_le_reg_r with (r := totalRawWeight x z (animations n));
        [done |].
      destruct (decide (sample_state b = sample_state a)) as [Hba | Hba].
      * apply (NoDup_fmap_same_key _ _ _ _ Hnd Hb Ha) in Hba as ->.
        rewrite Hraw. lra.
      * assert (b ≠ a) as Hba' by congruence.
        pose proof (Haway b Hb Hba'). field_simplify; lra.
Qed.

Lemma inputX_constructed : inputX constructed = 0.
Proof. reflexivity. Qed.

Lemma inputZ_constructed : inputZ constructed = 0.
Proof. reflexivity. Qed.

(** A raw weight is at most the raw weight at distance 0. *)
Lemma rawWeight_le x z b : rawWeight x z b <= 1 / 0.001.
Proof.
  unfold rawWeight. pose proof (distance_nonneg x z b) as Hd.
  apply Rmult_le_reg_r with (r := 0.001 * (distance x z b + 0.001));
    [nra |].
  field_simplify; lra.
Qed.

(** On a blend node whose first and last samples play the same clip, at
    the first sample's exact position the weight stored for its clip is the
    far sample's, and a nearer clip outweighs it. *)
Lemma shared_clip_exact_sample_weight_is_not_largest :
  let a := mkSample IDLE 0 0 in
  let b := mkSample WALK_FORWARD 1 0 in
  let bw := blendWeights (updateBlendNodeWeights constructed sharedClipNode) in
  a ∈ animations sharedClipNode ∧ b ∈ animations sharedClipNode ∧
  (2 ≤ length (animations sharedClipNode))%nat ∧
  (∀ i j s s', animations sharedClipNode !! i = Some s →
               animations sharedClipNode !! j = Some s' → i ≠ j →
               (position_x s, position_z s) ≠ (position_x s', position_z s')) ∧
  inputX constructed = position_x a ∧ inputZ constructed = position_z a ∧
  blendWeightOrZero bw (sample_state a) < blendWeightOrZero bw (sample_state b).
Proof.
  intros a b bw. split_and!.
  - apply elem_of_cons. by left.
  - apply elem_of_cons. right. apply elem_of_cons. by left.
  - simpl. lia.
  - intros i j s s' Hi Hj Hij.
    destruct i as [| [| [| i]]], j as [| [| [| j]]]; simplify_eq/=;
      intros Heq; pose proof (f_equal fst Heq) as Hx;
      pose proof (f_equal snd Heq) as Hz; simpl in Hx, Hz; lra.
  - reflexivity.
  - reflexivity.
  - subst bw. rewrite updateBlendNodeWeights_blendWeights.
    rewrite inputX_constructed, inputZ_constructed.
    unfold blendNodeWeights, accumulateWeights, normalizeWeights. simpl.
    unfold blendWeightOrZero. simpl.
    pose proof (rawWeight_pos 0 0 (mkSample IDLE 0 0)) as H0.
    pose proof (rawWeight_pos 0 0 (mkSample WALK_FORWARD 1 0)) as H1.
    pose proof (rawWeight_pos 0 0 (mkSample IDLE 5 0)) as H2.
    assert (Hfar : rawWeight 0 0 (mkSample IDLE 5 0)
                   < rawWeight 0 0 (mkSample WALK_FORWARD 1 0)).
    { unfold rawWeight, distance. simpl.
      assert (sqrt ((0 - 1) * (0 - 1) + (0 - 0) * (0 - 0))
              < sqrt ((0 - 5) * (0 - 5) + (0 - 0) * (0 - 0))) as Hd
        by (apply sqrt_lt_1_alt; lra).
      pose proof (sqrt_pos ((0 - 1) * (0 - 1) + (0 - 0) * (0 - 0))) as Hp.
      apply Rmult_lt_reg_r
        with (r := (sqrt ((0 - 1) * (0 - 1) + (0 - 0) * (0 - 0)) + 0.001)
                   * (sqrt ((0 - 5) * (0 - 5) + (0 - 0) * (0 - 0)) + 0.001));
        [nra |].
      field_simplify; lra. }
    apply Rmult_lt_reg_r
      with (r := 0 + rawWeight 0 0 (mkSample IDLE 0 0)
                 + rawWeight 0 0 (mkSample WALK_FORWARD 1 0)
                 + rawWeight 0 0 (mkSample IDLE 5 0)); [lra |].
    field_simplify; lra.
Qed.

(** C9 as stated fails three ways. With a shared clip the weight stored for
    the clip at the input point is the far sample's, and a nearer clip
    outweighs it. In binary64, with a second sample [2e13] away, the share
    of the far sample is absorbed and the weight at the exact position is
    1, not below; and a sample [1e200] away gets weight 0, not a positive
    share. *)
Lemma exact_sample_weight_not_largest_or_exactly_one :
  (let a := mkSample IDLE 0 0 in
   let b := mkSample WALK_FORWARD 1 0 in
   let bw :=
     blendWeights (updateBlendNodeWeights constructed sharedClipNode) in
   a ∈ animations sharedClipNode ∧ b ∈ animations sharedClipNode ∧
   (2 ≤ length (animations sharedClipNode))%nat ∧
   (∀ i j s s', animations sharedClipNode !! i = Some s →
                animations sharedClipNode !! j = Some s' → i ≠ j →
                (position_x s, position_z s)
                ≠ (position_x s', position_z s')) ∧
   inputX constructed = position_x a ∧ inputZ constructed = position_z a ∧
   blendWeightOrZero bw (sample_state a)
   < blendWeightOrZero bw (sample_state b)) ∧
  (let bw := Binary64.blendNodeWeights 0 0
               [ Binary64.mkSample IDLE 0 0;
                 Binary64.mkSample WALK_FORWARD 2e13 0 ] in
   Binary64.storedWeight bw IDLE = 1%float ∧
   (Binary64.storedWeight bw IDLE <? 1)%float = false) ∧
  (let bw := Binary64.blendNodeWeights 0 0
               [ Binary64.mkSample IDLE 0 0;
                 Binary64.mkSample WALK_FORWARD 1e200 0 ] in
   Binary64.storedWeight bw WALK_FORWARD = 0%float ∧
   (0 <? Binary64.storedWeight bw WALK_FORWARD)%float = false).
Proof.
  split.
  - exact shared_clip_exact_sample_weight_is_not_largest.
  - split; (split; vm_compute; reflexivity).
Qed.

(** C9, as the code has it. For a blend node whose samples play pairwise
    distinct clips, when the input is the exact position of sample [a], the
    weight stored for [a] is the largest of the node's weights and at most
    1, and no weight is negative. On the source's movement node, in
    binary64, at each of the nine sample positions the weight of the sample
    is strictly below 1 and every weight is strictly positive and at most
    the sample's. *)
Theorem exact_sample_weight_is_largest_and_at_most_one
    (c : Controller) (n : AnimationBlendNode) (a : BlendSample) :
  NoDup (sample_state <$> animations n) →
  a ∈ animations n →
  inputX c = position_x a → inputZ c = position_z a →
  (let bw := blendWeights (updateBlendNodeWeights c n) in
   blendWeightOrZero bw (sample_state a) <= 1 ∧
   ∀ b, b ∈ animations n →
        0 <= blendWeightOrZero bw (sample_state b)
        ∧ blendWeightOrZero bw (sample_state b)
          <= blendWeightOrZero bw (sample_state a)) ∧
  (∀ a' b', a' ∈ Binary64.movementSamples → b' ∈ Binary64.movementSamples →
     let bw := Binary64.blendNodeWeights (Binary64.position_x a')
                 (Binary64.position_z a') Binary64.movementSamples in
     let w s := Binary64.storedWeight bw s in
     (w (Binary64.sample_state a') <? 1)%float = true ∧
     (0 <? w (Binary64.sample_state b'))%float = true ∧
     (w (Binary64.sample_state b') <=? w (Binary64.sample_state a'))%float
     = true).
Proof.
  intros Hnd Ha Hx Hz. split.
  - cbv zeta. rewrite updateBlendNodeWeights_blendWeights, Hx, Hz.
    set (x := position_x a). set (z := position_z a).
    assert (animations n ≠ []) as Hne.
    { intros Hnil. rewrite Hnil in Ha. by apply elem_of_nil in Ha. }
    pose proof (totalRawWeight_pos x z _ Hne) as Htot.
    pose proof (rawWeight_at_position a) as Hraw. fold x z in Hraw.
    pose proof (rawWeight_le_sumR x z _ a Ha) as Hle. rewrite Hraw in Hle.
    split.
    + rewrite blendWeightOrZero_distinct by done. rewrite Hraw.
      apply Rmult_le_reg_r with (r := totalRawWeight x z (animations n));
        [done |].
      field_simplify; lra.
    + intros b Hb. rewrite !blendWeightOrZero_distinct by done.
      pose proof (rawWeight_pos x z b) as Hb0.
      pose proof (rawWeight_le x z b) as Hb1. rewrite Hraw. split.
      * apply Rlt_le. by apply Rdiv_lt_0_compat.
      * unfold Rdiv. apply Rmult_le_compat_r; [| done].
        apply Rlt_le. by apply Rinv_0_lt_compat.
  - intros a' b' Ha' Hb'.
    repeat (apply elem_of_cons in Ha' as [-> | Ha']);
      [.. | by apply elem_of_nil in Ha'];
      (repeat (apply elem_of_cons in Hb' as [-> | Hb']);
       [.. | by apply elem_of_nil in Hb']);
      vm_compute; done.
Qed.

Lemma exact_sample_weight_idleWalk :
  (let bw := blendWeights (updateBlendNodeWeights constructed idleWalkNode) in
   blendWeightOrZero bw IDLE <= 1 ∧
   blendWeightOrZero bw WALK_FORWARD <= blendWeightOrZero bw IDLE) ∧
  (let bw := Binary64.blendNodeWeights 0 1 Binary64.movementSamples in
   (Binary64.storedWeight bw WALK_FORWARD <? 1)%float = true ∧
   (0 <? Binary64.storedWeight bw RUN_BACKWARD)%float = true).
Proof.
  assert (Hnd : NoDup (sample_state <$> animations idleWalkNode))
    by compute_done.
  assert (Ha : mkSample IDLE 0 0 ∈ animations idleWalkNode)
    by (apply elem_of_cons; by left).
  assert (Hb : mkSample WALK_FORWARD 0 1 ∈ animations idleWalkNode)
    by (apply elem_of_cons; right; apply elem_of_cons; by left).
  destruct (exact_sample_weight_is_largest_and_at_most_one
              constructed idleWalkNode (mkSample IDLE 0 0)
              Hnd Ha inputX_constructed inputZ_constructed)
    as [[Hle Hmax] Hsource].
  split.
  - split; [exact Hle | exact (proj2 (Hmax _ Hb))].
  - destruct (Hsource (Binary64.mkSample WALK_FORWARD 0 1)
                (Binary64.mkSample RUN_BACKWARD 0 (-2)))
      as (Hlt & Hpos & _).
    + apply elem_of_cons; right; apply elem_of_cons; by left.
    + do 6 (apply elem_of_cons; right). apply elem_of_cons; by left.
    + split; [exact Hlt | exact Hpos].
Defined.

End BlendWeightClaims.

(** ** Construction *)

Lemma storeNodes_spec ns acc :
  match storeNodes ns acc with
  | inr stored =>
      stored = acc ++ ((λ n, (node_id n, n)) <$> ns) ∧
      NoDup (nodeIds ns) ∧ ∀ id, id ∈ nodeIds ns → id ∉ acc.*1
  | inl e =>
      ¬ (NoDup (nodeIds ns) ∧ ∀ id, id ∈ nodeIds ns → id ∉ acc.*1)
  end.
Proof.
  revert acc. induction ns as [| node rest IH]; intros acc; csimpl.
  - split_and!; [by rewrite app_nil_r | constructor |].
    by intros id ?%elem_of_nil.
  - destruct (jsmap_has (node_id node) acc) eqn:Hhas.
    + apply jsmap_has_true in Hhas. intros [_ Hfresh].
      apply (Hfresh (node_id node)); [apply elem_of_cons; by left | done].
    + apply jsmap_has_false in Hhas.
      rewrite jsmap_set_fresh by done.
      specialize (IH (acc ++ [(node_id node, node)])).
      destruct (storeNodes rest _) as [e | stored].
      * intros [[Hnot Hnd]%NoDup_cons Hfresh]. apply IH. split; [done |].
        intros id Hid. rewrite fmap_app, not_elem_of_app. split.
        -- apply Hfresh, elem_of_cons. by right.
        -- csimpl. rewrite not_elem_of_cons. split; [| apply not_elem_of_nil].
           intros ->. done.
      * destruct IH as (-> & Hnd & Hfresh). split_and!.
        -- by rewrite <- app_assoc.
        -- apply NoDup_cons. split; [| done]. intros Hin.
           apply (Hfresh _ Hin). rewrite fmap_app. apply elem_of_app. right.
           csimpl. apply elem_of_cons. by left.
        -- intros id [-> | Hin]%elem_of_cons; [done |].
           specialize (Hfresh _ Hin).
           rewrite fmap_app, not_elem_of_app in Hfresh. by destruct Hfresh.
Qed.

Lemma storeNodes_keys (ns : list AnimationNode) :
  ((λ n, (node_id n, n)) <$> ns).*1 = nodeIds ns.
Proof. unfold nodeIds. by rewrite <- list_fmap_compose. Qed.

Lemma validateTransitions_None stored ts :
  validateTransitions stored ts = None ↔
  Forall (λ t, from t ∈ stored.*1 ∧ to t ∈ stored.*1) ts.
Proof.
  induction ts as [| t rest IH]; simpl; [by split; [constructor |] |].
  rewrite Forall_cons, <- IH, <- !jsmap_has_true.
  destruct (jsmap_has (from t) stored), (jsmap_has (to t) stored); simpl;
    intuition congruence.
Qed.

Lemma construct_inr ns ts initialNodeId c :
  construct ns ts initialNodeId = inr c ↔
  (NoDup (nodeIds ns) ∧
   Forall (λ t, from t ∈ nodeIds ns ∧ to t ∈ nodeIds ns) ts ∧
   initialNodeId ∈ nodeIds ns) ∧
  c = mkController initialNodeId ((λ n, (node_id n, n)) <$> ns) [] None []
        ts ∅.
Proof.
  unfold construct. pose proof (storeNodes_spec ns []) as Hstore.
  destruct (storeNodes ns []) as [e | stored].
  - split; [done |]. intros [(Hnd & _ & _) _]. exfalso. apply Hstore.
    split; [done |]. intros id _. apply not_elem_of_nil.
  - destruct Hstore as (-> & Hnd & _). simpl app.
    destruct (validateTransitions _ ts) as [e |] eqn:Hval.
    + split; [done |]. intros [(_ & Hts & _) _].
      rewrite <- storeNodes_keys in Hts.
      apply validateTransitions_None in Hts. congruence.
    + apply validateTransitions_None in Hval. rewrite storeNodes_keys in Hval.
      destruct (jsmap_has initialNodeId _) eqn:Hhas; simpl.
      * apply jsmap_has_true in Hhas. rewrite storeNodes_keys in Hhas.
        split; [by intros [= <-] | by intros [_ ->]].
      * apply jsmap_has_false in Hhas. rewrite storeNodes_keys in Hhas.
        split; [done | by intros [(_ & _ & ?) _]].
Qed.

Lemma construct_inl ns ts initialNodeId :
  (∃ e, construct ns ts initialNodeId = inl e) ↔
  malformedGraph ns ts initialNodeId.
Proof.
  unfold malformedGraph.
  destruct (construct ns ts initialNodeId) as [e | c] eqn:Hc.
  - split; [intros _ | by exists e].
    destruct (decide (NoDup (nodeIds ns))) as [Hnd | Hnd]; [| by left].
    destruct (decide (Exists (λ t, from t ∉ nodeIds ns ∨ to t ∉ nodeIds ns) ts))
      as [Hex | Hex]; [by right; left |].
    destruct (decide (initialNodeId ∈ nodeIds ns)) as [Hin | Hin];
      [| by right; right].
    exfalso.
    assert (construct ns ts initialNodeId
            = inr (mkController initialNodeId ((λ n, (node_id n, n)) <$> ns)
                     [] None [] ts ∅)) as Hok; [| congruence].
    apply construct_inr. split; [| done]. split_and!; [done | | done].
    apply Forall_forall. intros t Ht.
    rewrite Exists_exists in Hex.
    destruct (decide (from t ∈ nodeIds ns)) as [Hf | Hf];
      [| exfalso; apply Hex; exists t; by split; [| left]].
    destruct (decide (to t ∈ nodeIds ns)) as [Hto | Hto];
      [done | exfalso; apply Hex; exists t; by split; [| right]].
  - apply construct_inr in Hc as [(Hnd & Hts & Hin) _].
    split; [by intros [e ?] |].
    intros [Hdup | [Hex | Hinit]]; [done | | done].
    exfalso. rewrite Exists_exists in Hex. destruct Hex as (t & Ht & Hbad).
    rewrite Forall_forall in Hts. destruct (Hts t Ht) as [Hf Hto].
    by destruct Hbad.
Qed.

(** ** What the per-frame code leaves alone *)

Lemma sameGraph_refl c : sameGraph c c.
Proof. by repeat split. Qed.

Lemma sameGraph_trans c1 c2 c3 :
  sameGraph c1 c2 → sameGraph c2 c3 → sameGraph c1 c3.
Proof.
  intros (? & ? & ? & ?) (? & ? & ? & ?). repeat split; congruence.
Qed.

Lemma completeCrossFade_sameGraph c : sameGraph c (stateOf (completeCrossFade c)).
Proof.
  unfold completeCrossFade.
  destruct (activeBlend c); [| apply sameGraph_refl].
  destruct (jsmap_get _ _); by repeat split.
Qed.

Lemma completeCrossFade_Ok c :
  currentNodeId c ∈ (nodes c).*1 → ∃ c', completeCrossFade c = Ok c'.
Proof.
  intros Hcur. unfold completeCrossFade.
  destruct (activeBlend c); [| by eexists].
  destruct (jsmap_get _ _) eqn:Hget; [by eexists |].
  by apply jsmap_get_None in Hget.
Qed.

Lemma updateCrossFadeWeights_sameGraph c :
  sameGraph c (updateCrossFadeWeights c).
Proof.
  unfold updateCrossFadeWeights. destruct (activeBlend c); by repeat split.
Qed.

Lemma updateCrossFade_sameGraph c dt :
  sameGraph c (stateOf (updateCrossFade c dt)).
Proof.
  unfold updateCrossFade. destruct (activeBlend c) as [b |];
    [| apply sameGraph_refl].
  destruct (decide _).
  - eapply sameGraph_trans; [| apply completeCrossFade_sameGraph].
    by repeat split.
  - eapply sameGraph_trans; [| apply updateCrossFadeWeights_sameGraph].
    by repeat split.
Qed.

Lemma updateCrossFade_Ok c dt :
  currentNodeId c ∈ (nodes c).*1 → ∃ c', updateCrossFade c dt = Ok c'.
Proof.
  intros Hcur. unfold updateCrossFade.
  destruct (activeBlend c) as [b |]; [| by eexists].
  destruct (decide _); [| by eexists]. by apply completeCrossFade_Ok.
Qed.

Lemma startCrossFade_sameGraph c s d :
  sameGraph c (stateOf (startCrossFade c s d)).
Proof.
  unfold startCrossFade.
  assert (∃ r, r = match activeBlend c with
                   | Some _ => completeCrossFade c
                   | None => Ok c
                   end ∧ sameGraph c (stateOf r)) as (r & <- & Hr).
  { eexists. split; [done |]. destruct (activeBlend c);
      [apply completeCrossFade_sameGraph | apply sameGraph_refl]. }
  destruct r as [c1 | c1 e]; simpl in *; [| done].
  destruct (jsmap_get s _); [| done].
  eapply sameGraph_trans; [exact Hr |].
  destruct (getDominantAnimationState _ _); by repeat split.
Qed.

Lemma startBlendCrossFade_sameGraph c n d :
  sameGraph c (stateOf (startBlendCrossFade c n d)).
Proof.
  unfold startBlendCrossFade.
  repeat destruct (getDominantAnimationState _ _); by repeat split.
Qed.

Lemma startSingleNode_sameGraph c n d :
  sameGraph c (stateOf (startSingleNode c n d)).
Proof.
  unfold startSingleNode. destruct (jsmap_get _ _); [| apply sameGraph_refl].
  destruct (decide _); [apply startCrossFade_sameGraph | by repeat split].
Qed.

Lemma startBlendNode_sameGraph c n d :
  sameGraph c (stateOf (startBlendNode c n d)).
Proof.
  unfold startBlendNode. destruct (decide _); [| by repeat split].
  eapply sameGraph_trans; [| apply startBlendCrossFade_sameGraph].
  by repeat split.
Qed.

(** [playNode] moves the current node to the requested one and leaves the
    graph and the variables alone; it throws only on an unknown node, and
    then nothing has changed. *)
Lemma playNode_cases c nodeId d :
  (playNode c nodeId d = Throw c (NodeNotFound nodeId) ∧
   nodeId ∉ (nodes c).*1) ∨
  (∃ c', playNode c nodeId d = Ok c' ∧
         (nodeId ∈ (nodes c).*1 ∨
          currentNodeId c = nodeId ∧ activeBlend c = None) ∧
         nodes c' = nodes c ∧ transitions c' = transitions c ∧
         variables c' = variables c ∧ currentNodeId c' = nodeId).
Proof.
  unfold playNode.
  destruct (decide (currentNodeId c = nodeId ∧ activeBlend c = None))
    as [[Hcur Hblend] | Hnot].
  - right. exists c. split_and!; try done. by right.
  - destruct (jsmap_get nodeId (nodes c)) as [node |] eqn:Hget.
    + right. eexists. split; [done |].
      assert (nodeId ∈ (nodes c).*1) as Hin.
      { destruct (decide (nodeId ∈ (nodes c).*1)) as [| Hn]; [done |].
        apply jsmap_get_None in Hn. congruence. }
      assert (sameGraph c (stateOf match node with
                | Single n => startSingleNode c n d
                | Blend n => startBlendNode c n d
                end)) as (? & ? & ? & ?).
      { destruct node; [apply startSingleNode_sameGraph
                       | apply startBlendNode_sameGraph]. }
      destruct node; simpl in *;
        (split_and!; [by left | | | | done]);
        match goal with
        | |- context [match ?r with Ok _ => _ | Throw _ _ => _ end] =>
            destruct r; simpl in *; done
        end.
    + left. split; [done |]. by apply jsmap_get_None.
Qed.

Lemma graphValid_sameGraph c c' : sameGraph c c' → graphValid c → graphValid c'.
Proof.
  intros (Hn & Ht & Hc & _) [Hcur Hto]. unfold graphValid.
  by rewrite Hn, Ht, Hc.
Qed.

Lemma evaluateTransitions_elem c t :
  evaluateTransitions c = Some t → t ∈ transitions c.
Proof.
  intros (before & after & -> & _)%evaluateTransitionsFrom_Some.
  apply elem_of_app. right. apply elem_of_cons. by left.
Qed.

Lemma playNode_known_Ok c nodeId d :
  graphValid c → nodeId ∈ (nodes c).*1 →
  ∃ c', playNode c nodeId d = Ok c' ∧ graphValid c' ∧ nodes c' = nodes c.
Proof.
  intros [Hcur Hto] Hin.
  destruct (playNode_cases c nodeId d)
    as [[_ Hnot] | (c' & -> & _ & Hn & Ht & _ & Hc)]; [done |].
  exists c'. split_and!; [done | | done]. unfold graphValid.
  by rewrite Hn, Ht, Hc.
Qed.

Lemma update_Ok c :
  graphValid c →
  ∃ c', update c = Ok c' ∧ graphValid c' ∧ nodes c' = nodes c.
Proof.
  intros Hvalid. pose proof Hvalid as [Hcur Hto]. unfold update.
  destruct (jsmap_get (currentNodeId c) (nodes c)) as [node |] eqn:Hget;
    [| by apply jsmap_get_None in Hget].
  set (c1 := match node with
             | Single _ => c
             | Blend n =>
                 match activeBlend (updateBlendNodeWeights c n) with
                 | Some _ => updateBlendNodeWeights c n
                 | None => applyBlendNodeWeights (updateBlendNodeWeights c n)
                 end
             end).
  assert (sameGraph c c1) as Hsame.
  { subst c1. destruct node as [n | n]; [apply sameGraph_refl |].
    destruct (activeBlend _); by repeat split. }
  pose proof (graphValid_sameGraph _ _ Hsame Hvalid) as Hvalid1.
  destruct Hsame as (Hn & Ht & _).
  destruct (evaluateTransitions c1) as [t |] eqn:Heval.
  - apply evaluateTransitions_elem in Heval.
    pose proof Hvalid1 as [Hcur1 Hto1]. rewrite Forall_forall in Hto1.
    destruct (playNode_known_Ok c1 (to t) (crossFadeDuration t))
      as (c' & Hplay & Hvalid' & Hn'); [done | by apply Hto1 |].
    exists c'. split_and!; [done | done | congruence].
  - by exists c1.
Qed.

Lemma tick_Ok c dt :
  graphValid c →
  ∃ c', tick c dt = Ok c' ∧ graphValid c' ∧ nodes c' = nodes c.
Proof.
  intros Hvalid. pose proof Hvalid as [Hcur _]. unfold tick.
  destruct (updateCrossFade_Ok c dt Hcur) as [c1 Hc1].
  pose proof (updateCrossFade_sameGraph c dt) as Hsame.
  rewrite Hc1 in Hsame |- *. simpl in *.
  destruct (update_Ok c1) as (c' & Hupd & Hvalid' & Hn');
    [by eapply graphValid_sameGraph |].
  exists c'. split_and!; [done | done |].
  destruct Hsame as (Hn & _). congruence.
Qed.

Lemma run_Ok c calls :
  graphValid c → Forall (knownCall c) calls →
  ∃ c', run c calls = Ok c' ∧ graphValid c'.
Proof.
  revert c. induction calls as [| call rest IH]; intros c Hvalid Hknown.
  - by exists c.
  - apply Forall_cons in Hknown as [Hcall Hrest].
    assert (∃ c1, hostStep c call = Ok c1 ∧ graphValid c1 ∧ nodes c1 = nodes c)
      as (c1 & Hstep & Hvalid1 & Hn1).
    { destruct call as [dt | name v | nodeId d]; simpl in *.
      - by apply tick_Ok.
      - eexists. split_and!; done.
      - by apply playNode_known_Ok. }
    simpl. rewrite Hstep. simpl. apply IH; [done |].
    eapply Forall_impl; [exact Hrest |].
    intros [| |] Hk; simpl in *; [done | done | by rewrite Hn1].
Qed.

Lemma setupAnimations_Ok c found :
  graphValid c →
  ∃ c0, setupAnimations c found = Ok c0 ∧ graphValid c0 ∧ nodes c0 = nodes c.
Proof.
  intros Hvalid. unfold setupAnimations.
  set (c1 := with_groups c _).
  destruct (playNode_known_Ok c1 (currentNodeId c1) 0%R)
    as (c0 & Hplay & Hvalid0 & Hn0); [done | by destruct Hvalid |].
  by exists c0.
Qed.

(** C7, as the code has it. Construction fails exactly when the arguments
    are rejected by the arguments schema (anything but a plain object) or
    the graph data is malformed (a repeated node id, a transition from or to
    an unknown node, or an unknown initial node id). When it succeeds the
    current node is the initial node, and from then on the setup and every
    sequence of frames, variable updates and [playNode] calls on known nodes
    runs without any throw: the checks of the constructor are never needed
    again. *)
Theorem constructor_fails_iff_args_rejected_or_malformed
    (args : JsValue) (ns : list AnimationNode)
    (ts : list AnimationTransition) (initialNodeId : string) :
  ((∃ e, AnimationController_constructor args ns ts initialNodeId = inl e) ↔
   argsSchema_parse args = false ∨ malformedGraph ns ts initialNodeId) ∧
  (∀ c, AnimationController_constructor args ns ts initialNodeId = inr c →
        currentNodeId c = initialNodeId ∧
        ∀ found calls,
          Forall (knownCall c) calls →
          ∃ c0 c', setupAnimations c found = Ok c0 ∧ run c0 calls = Ok c').
Proof.
  unfold AnimationController_constructor.
  destruct (argsSchema_parse args) eqn:Hargs.
  - split.
    + rewrite construct_inl. split; [by right |]. by intros [? | ?].
    + intros c [(Hnd & Hts & Hin) ->]%construct_inr. split; [done |].
      intros found calls Hknown.
      set (c := mkController _ _ _ _ _ _ _) in *.
      assert (graphValid c) as Hvalid.
      { split; simpl; rewrite storeNodes_keys; [done |].
        eapply Forall_impl; [exact Hts |]. by intros t [_ ?]. }
      destruct (setupAnimations_Ok c found Hvalid)
        as (c0 & Hsetup & Hvalid0 & Hn0).
      destruct (run_Ok c0 calls Hvalid0) as (c' & Hrun & _).
      { eapply Forall_impl; [exact Hknown |].
        intros [| |] Hk; simpl in *; [done | done | by rewrite Hn0]. }
      by exists c0, c'.
  - split; [| done]. split; [by left | by exists ZodError].
Qed.

(** C8, as the code has it. On a controller whose current node is a node of
    the graph, [playNode] throws exactly when the requested id is not a node
    of the graph, and then the controller is unchanged; when the requested
    id is the current node and no cross-fade is active it returns without
    changing anything. *)
Theorem playNode_throws_iff_unknown_node
    (c : Controller) (nodeId : string) (d : R) :
  currentNodeId c ∈ (nodes c).*1 →
  ((∃ c' e, playNode c nodeId d = Throw c' e) ↔ nodeId ∉ (nodes c).*1) ∧
  (∀ c' e, playNode c nodeId d = Throw c' e → c' = c) ∧
  (currentNodeId c = nodeId ∧ activeBlend c = None →
   playNode c nodeId d = Ok c).
Proof.
  intros Hcur. split_and!.
  - destruct (playNode_cases c nodeId d)
      as [[Hthrow Hnot] | (c' & Hok & [Hin | [Heq _]] & _)].
    + split; [done | intros _; by eexists _, _].
    + split; [intros (? & ? & ?); congruence | done].
    + split; [intros (? & ? & ?); congruence | congruence].
  - intros c' e Hthrow.
    destruct (playNode_cases c nodeId d) as [[Hc _] | (? & Hok & _)];
      congruence.
  - intros Hsame. unfold playNode. by rewrite decide_True.
Qed.

(** ** The methods, one branch at a time *)

Section Dominant.
Local Open Scope R_scope.

Lemma dominant_single c id n :
  jsmap_get id (nodes c) = Some (Single n) →
  getDominantAnimationState c id = inr (single_state n).
Proof.  intros Hn. unfold getDominantAnimationState. by rewrite Hn. Qed.

Lemma dominant_foldl_bounded (bw : list (AnimationState * R)) l s m :
  (∀ b, b ∈ l → blendWeightOrZero bw (sample_state b) <= m) →
  foldl (λ '(dominantState, maxWeight) anim,
           let w := blendWeightOrZero bw (sample_state anim) in
           if decide (w > maxWeight)
           then (sample_state anim, w)
           else (dominantState, maxWeight)) (s, m) l = (s, m).
Proof. 
  induction l as [| a l IH]; intros Hle; simpl; [done |].
  rewrite decide_False.
  - apply IH. intros b Hb. apply Hle, elem_of_cons. by right.
  - pose proof (Hle a). apply Rle_not_gt, Hle, elem_of_cons. by left.
Qed.

Lemma dominant_first c id n first rest :
  jsmap_get id (nodes c) = Some (Blend n) →
  animations n = first :: rest →
  (∀ b, b ∈ rest →
        blendWeightOrZero (blendWeights c) (sample_state b)
        <= blendWeightOrZero (blendWeights c) (sample_state first)) →
  getDominantAnimationState c id = inr (sample_state first).
Proof. 
  intros Hn Ha Hle. unfold getDominantAnimationState. rewrite Hn, Ha.
  f_equal. simpl.
  destruct (decide _) as [Hgt | Hngt].
  - by rewrite dominant_foldl_bounded.
  - rewrite dominant_foldl_bounded; [done |].
    intros b Hb. specialize (Hle b Hb). lra.
Qed.

Lemma movementNode_positions i j b b' :
  animations movementNode !! i = Some b →
  animations movementNode !! j = Some b' → i ≠ j →
  (position_x b, position_z b) ≠ (position_x b', position_z b').
Proof.
  intros Hi Hj Hij Heq.
  destruct i as [| [| [| [| [| [| [| [| [| i]]]]]]]]]; simpl in Hi;
    try discriminate Hi; injection Hi as <-;
  (destruct j as [| [| [| [| [| [| [| [| [| j]]]]]]]]]; simpl in Hj;
    try discriminate Hj; injection Hj as <-);
  try (by destruct Hij);
  pose proof (f_equal fst Heq) as Hx; pose proof (f_equal snd Heq) as Hz;
  simpl in Hx, Hz; lra.
Qed.

Lemma dominant_movement_idle c id :
  jsmap_get id (nodes c) = Some (Blend movementNode) →
  blendWeights c = blendNodeWeights 0 0 movementNode →
  getDominantAnimationState c id = inr IDLE.
Proof. 
  intros Hn Hbw.
  assert (Hnd : NoDup (sample_state <$> animations movementNode))
    by compute_done.
  assert (Ha : mkSample IDLE 0 0 ∈ animations movementNode)
    by (apply elem_of_cons; by left).
  destruct (blendNodeWeights_at_sample movementNode (mkSample IDLE 0 0)
              Hnd movementNode_positions) as [_ Hmax]; [simpl; lia | done |].
  simpl in Hmax.
  rewrite (dominant_first c id movementNode _ _ Hn eq_refl); [done |].
  intros b Hb. rewrite Hbw. apply Hmax. apply elem_of_cons. by right.
Qed.
End Dominant.

Section Steps.
Local Open Scope R_scope.

Lemma playNode_activate c nodeId d node :
  ¬ (currentNodeId c = nodeId ∧ activeBlend c = None) →
  jsmap_get nodeId (nodes c) = Some node →
  playNode c nodeId d
  = Ok (with_currentNodeId
          (stateOf match node with
                   | Single n => startSingleNode c n d
                   | Blend n => startBlendNode c n d
                   end) nodeId).
Proof.
  intros Hnot Hget. unfold playNode. rewrite decide_False by done.
  rewrite Hget. by destruct node; destruct (_ c _ d).
Qed.

Lemma startSingleNode_immediate c n d :
  is_Some (jsmap_get (single_state n) (animationGroups c)) → ¬ d > 0 →
  startSingleNode c n d = Ok (playAnimationImmediate c (single_state n)).
Proof.
  intros [g Hg] Hd. unfold startSingleNode. rewrite Hg.
  by rewrite decide_False.
Qed.

Lemma startSingleNode_crossFade c n d :
  is_Some (jsmap_get (single_state n) (animationGroups c)) → d > 0 →
  startSingleNode c n d = startCrossFade c (single_state n) d.
Proof.
  intros [g Hg] Hd. unfold startSingleNode. rewrite Hg.
  by rewrite decide_True.
Qed.

Lemma startSingleNode_unbound c n d :
  jsmap_get (single_state n) (animationGroups c) = None →
  startSingleNode c n d = Throw c (AnimationStateNotFound (single_state n)).
Proof. intros Hg. unfold startSingleNode. by rewrite Hg. Qed.

Lemma startCrossFade_idle c s d prev :
  activeBlend c = None →
  is_Some (jsmap_get s (animationGroups c)) →
  getDominantAnimationState c (currentNodeId c) = inr prev →
  startCrossFade c s d
  = Ok (with_activeBlend
          (with_groups c (start s (setWeight s 1 (animationGroups c))))
          (Some (mkBlendInfo prev s 0 d))).
Proof.
  intros Hb [g Hg] Hdom. unfold startCrossFade. rewrite Hb. simpl.
  rewrite Hg.
  change (getDominantAnimationState (with_groups c _) _)
    with (getDominantAnimationState c (currentNodeId c)).
  by rewrite Hdom.
Qed.

Lemma startBlendNode_crossFade c n d :
  d > 0 →
  startBlendNode c n d = startBlendCrossFade (updateBlendNodeWeights c n) n d.
Proof. intros Hd. unfold startBlendNode. by rewrite decide_True. Qed.

Lemma updateCrossFade_running c dt b :
  activeBlend c = Some b → progress b + dt / duration b < 1 →
  updateCrossFade c dt
  = Ok (updateCrossFadeWeights
          (with_activeBlend c
             (Some (mkBlendInfo (fromState b) (toState b)
                      (progress b + dt / duration b) (duration b))))).
Proof.
  intros Hb Hlt. unfold updateCrossFade. rewrite Hb. simpl.
  rewrite decide_False; [done | lra].
Qed.

Lemma updateCrossFade_idle c dt :
  activeBlend c = None → updateCrossFade c dt = Ok c.
Proof. intros Hb. unfold updateCrossFade. by rewrite Hb. Qed.

Lemma update_single c n t :
  jsmap_get (currentNodeId c) (nodes c) = Some (Single n) →
  evaluateTransitions c = Some t →
  update c = playNode c (to t) (crossFadeDuration t).
Proof. intros Hn Ht. unfold update. by rewrite Hn, Ht. Qed.
End Steps.

(** ** Starting a cross-fade while one is in flight *)

(** Towards a single clip the scheduler finalizes the cross-fade in flight
    and starts from the finalized state. *)
Lemma startCrossFade_supersedes c s d c1 :
  is_Some (activeBlend c) → completeCrossFade c = Ok c1 →
  activeBlend c1 = None ∧ startCrossFade c s d = startCrossFade c1 s d.
Proof.
  intros [b Hb] Hdone. split.
  - unfold completeCrossFade in Hdone. rewrite Hb in Hdone.
    destruct (jsmap_get _ _); [| done]. by injection Hdone as <-.
  - assert (activeBlend c1 = None) as Hnone.
    { unfold completeCrossFade in Hdone. rewrite Hb in Hdone.
      destruct (jsmap_get _ _); [| done]. by injection Hdone as <-. }
    unfold startCrossFade. by rewrite Hb, Hdone, Hnone.
Qed.

Lemma startBlendCrossFade_groups c n d :
  animationGroups (stateOf (startBlendCrossFade c n d))
  = foldl (λ gs anim,
             start (sample_state anim) (setWeight (sample_state anim) 0 gs))
          (animationGroups c) (animations n).
Proof.
  unfold startBlendCrossFade.
  by repeat destruct (getDominantAnimationState _ _).
Qed.

(** Towards a blend node nothing is finalized: the clips outside the target
    node, those of the cross-fade in flight among them, keep their weight
    and their playing flag, whatever [activeBlend] holds. *)
Lemma startBlendCrossFade_other_clips c n d s :
  s ∉ sample_state <$> animations n →
  jsmap_get s (animationGroups (stateOf (startBlendCrossFade c n d)))
  = jsmap_get s (animationGroups c).
Proof.
  rewrite startBlendCrossFade_groups.
  generalize (animationGroups c).
  induction (animations n) as [| a l IH]; intros gs Hs; csimpl; [done |].
  apply not_elem_of_cons in Hs as [Hne Hs]. rewrite IH by done.
  unfold start, setWeight. rewrite !jsmap_get_alter.
  by rewrite !decide_False by done.
Qed.

(** ** The runs *)

Lemma run_setup : setupAnimations constructed allStates = Ok ready.
Proof. reflexivity. Qed.

Lemma run_atJumpUp : playNode ready "JumpUp" 0 = Ok atJumpUp.
Proof.
  rewrite (playNode_activate _ _ _ (Single jumpUpNode));
    [| by intros [? _] | reflexivity].
  rewrite startSingleNode_immediate; [reflexivity | by eexists | lra].
Qed.

Lemma run_fadeToFalling : playNode atJumpUp "JumpFalling" 1 = Ok fadeToFalling.
Proof.
  rewrite (playNode_activate _ _ _ (Single jumpFallingNode));
    [| by intros [? _] | reflexivity].
  rewrite startSingleNode_crossFade; [| by eexists | lra].
  rewrite (startCrossFade_idle _ _ _ JUMP_UP);
    [reflexivity | reflexivity | by eexists |].
  by apply (dominant_single _ _ jumpUpNode).
Qed.

Lemma run_fadeToFallingHalfway : tick fadeToFalling 0.5 = Ok fadeToFallingHalfway.
Proof.
  unfold tick.
  erewrite updateCrossFade_running; [| reflexivity | simpl; lra].
  reflexivity.
Qed.

Lemma run_fadeToMovement :
  playNode fadeToFallingHalfway "movement" 1 = Ok fadeToMovement.
Proof.
  rewrite (playNode_activate _ _ _ (Blend movementNode));
    [| by intros [? _] | reflexivity].
  rewrite startBlendNode_crossFade by lra.
  unfold startBlendCrossFade.
  rewrite dominant_movement_idle by reflexivity.
  rewrite (dominant_single _ _ jumpFallingNode) by reflexivity.
  reflexivity.
Qed.

Lemma run_fadeToMovementHalfway :
  tick fadeToMovement 0.5 = Ok fadeToMovementHalfway.
Proof.
  unfold tick.
  erewrite updateCrossFade_running; [| reflexivity | simpl; lra].
  reflexivity.
Qed.

Lemma run_setup_without_jumpUp :
  setupAnimations constructed statesWithoutJumpUp = Ok readyWithoutJumpUp.
Proof. reflexivity. Qed.

Lemma run_fadingWithoutJumpUp :
  playNode readyWithoutJumpUp "JumpFalling" 1 = Ok fadingWithoutJumpUp.
Proof.
  rewrite (playNode_activate _ _ _ (Single jumpFallingNode));
    [| by intros [? _] | reflexivity].
  rewrite startSingleNode_crossFade; [| by eexists | lra].
  rewrite (startCrossFade_idle _ _ _ IDLE);
    [reflexivity | reflexivity | by eexists |].
  apply (dominant_first _ _ movementNode (mkSample IDLE 0 0)
           (tail (animations movementNode))); [reflexivity | reflexivity |].
  intros b _. unfold blendWeightOrZero. simpl. lra.
Qed.

Lemma run_fadingAtJumpUp :
  playNode fadingWithoutJumpUp "JumpUp" 1 = Ok fadingAtJumpUp.
Proof.
  rewrite (playNode_activate _ _ _ (Single jumpUpNode));
    [| by intros [? _] | reflexivity].
  by rewrite startSingleNode_unbound.
Qed.

Section RunFacts.
Local Open Scope R_scope.

Lemma halfway_progress : 0 + 0.5 / 1 = 0.5.
Proof. lra. Qed.

(** C1 fails on the source's own graph. With a cross-fade from [JumpUp] to
    [JumpFalling] half done, [playNode] to the blend node [movement] with a
    cross-fade starts the new cross-fade without finalizing the old one:
    [JumpUp] is neither zeroed nor stopped, [JumpFalling] is not snapped to
    full weight, and half a second later three clips ([JumpUp],
    [JumpFalling], [Idle]) carry weight 0.5 each. *)
Theorem blend_crossfade_leaves_prior_crossfade_unfinished :
  construct ANIMATION_NODES ANIMATION_TRANSITIONS INITIAL_NODE_ID
  = inr constructed ∧
  setupAnimations constructed allStates = Ok ready ∧
  playNode ready "JumpUp" 0 = Ok atJumpUp ∧
  playNode atJumpUp "JumpFalling" 1 = Ok fadeToFalling ∧
  tick fadeToFalling 0.5 = Ok fadeToFallingHalfway ∧
  activeBlend fadeToFallingHalfway
  = Some (mkBlendInfo JUMP_UP JUMP_FALLING (0 + 0.5 / 1) 1) ∧
  playNode fadeToFallingHalfway "movement" 1 = Ok fadeToMovement ∧
  activeBlend fadeToMovement = Some (mkBlendInfo JUMP_FALLING IDLE 0 1) ∧
  clipWeight fadeToMovement JUMP_UP = 0.5 ∧
  clipPlaying fadeToMovement JUMP_UP = true ∧
  clipWeight fadeToMovement JUMP_FALLING = 0.5 ∧
  tick fadeToMovement 0.5 = Ok fadeToMovementHalfway ∧
  clipWeight fadeToMovementHalfway JUMP_UP = 0.5 ∧
  clipWeight fadeToMovementHalfway JUMP_FALLING = 0.5 ∧
  clipWeight fadeToMovementHalfway IDLE = 0.5.
Proof.
  split_and!.
  - reflexivity.
  - apply run_setup.
  - apply run_atJumpUp.
  - apply run_fadeToFalling.
  - apply run_fadeToFallingHalfway.
  - reflexivity.
  - apply run_fadeToMovement.
  - reflexivity.
  - change (clipWeight fadeToMovement JUMP_UP)
      with (1 - easeInOutQuad (0 + 0.5 / 1)).
    rewrite halfway_progress, easeInOutQuad_half. lra.
  - reflexivity.
  - change (clipWeight fadeToMovement JUMP_FALLING)
      with (easeInOutQuad (0 + 0.5 / 1)).
    rewrite halfway_progress, easeInOutQuad_half. lra.
  - apply run_fadeToMovementHalfway.
  - change (clipWeight fadeToMovementHalfway JUMP_UP)
      with (1 - easeInOutQuad (0 + 0.5 / 1)).
    rewrite halfway_progress, easeInOutQuad_half. lra.
  - change (clipWeight fadeToMovementHalfway JUMP_FALLING)
      with (1 - easeInOutQuad (0 + 0.5 / 1)).
    rewrite halfway_progress, easeInOutQuad_half. lra.
  - change (clipWeight fadeToMovementHalfway IDLE)
      with (easeInOutQuad (0 + 0.5 / 1)).
    rewrite halfway_progress, easeInOutQuad_half. lra.
Qed.

(** C8 as stated fails in its last part: with [JumpUp] unbound and a
    cross-fade in flight, [playNode] on the current node [JumpUp] returns
    and changes nothing, although a cross-fade is active. *)
Lemma playNode_noop_while_crossfade_active :
  setupAnimations constructed statesWithoutJumpUp = Ok readyWithoutJumpUp ∧
  playNode readyWithoutJumpUp "JumpFalling" 1 = Ok fadingWithoutJumpUp ∧
  playNode fadingWithoutJumpUp "JumpUp" 1 = Ok fadingAtJumpUp ∧
  currentNodeId fadingAtJumpUp = "JumpUp" ∧
  activeBlend fadingAtJumpUp = Some (mkBlendInfo IDLE JUMP_FALLING 0 1) ∧
  playNode fadingAtJumpUp "JumpUp" 1 = Ok fadingAtJumpUp ∧
  ¬ (currentNodeId fadingAtJumpUp = "JumpUp" ∧
     activeBlend fadingAtJumpUp = None).
Proof.
  split_and!.
  - apply run_setup_without_jumpUp.
  - apply run_fadingWithoutJumpUp.
  - apply run_fadingAtJumpUp.
  - reflexivity.
  - reflexivity.
  - rewrite (playNode_activate _ _ _ (Single jumpUpNode));
      [| by intros [_ ?] | reflexivity].
    by rewrite startSingleNode_unbound.
  - by intros [_ ?].
Qed.
End RunFacts.

(** C5 as stated fails on a looping clip: the evaluator reads only the
    playing flag. In the looping graph the initial node [Fall] loops and its
    clip has not been started, so the automatic transition is returned on
    the first frame and the controller moves to [Up]. *)
Lemma looping_clip_fires_empty_conditions :
  construct loopingNodes loopingTransitions "Fall" = inr loopingConstructed ∧
  setupAnimations loopingConstructed [JUMP_FALLING; JUMP_UP]
  = Ok loopingReady ∧
  jsmap_get (currentNodeId loopingReady) (nodes loopingReady)
  = Some (Single (mkSingle "Fall" JUMP_FALLING 1 true)) ∧
  jsmap_get JUMP_FALLING (animationGroups loopingReady)
  = Some (mkGroup 0 false true 1) ∧
  evaluateTransitions loopingReady = Some (mkTransition "Fall" "Up" [] 0) ∧
  tick loopingReady 0.016 = Ok loopingAtUp ∧
  currentNodeId loopingAtUp = "Up".
Proof.
  split_and!; try reflexivity.
  unfold tick. rewrite updateCrossFade_idle by reflexivity. simpl bind.
  rewrite (update_single _ (mkSingle "Fall" JUMP_FALLING 1 true)
             (mkTransition "Fall" "Up" [] 0)) by reflexivity.
  rewrite (playNode_activate _ _ _ (Single (mkSingle "Up" JUMP_UP 1 false)));
    [| by intros [? _] | reflexivity].
  rewrite startSingleNode_immediate; [reflexivity | by eexists |].
  simpl. lra.
Qed.

(** ** The statements above at concrete inputs *)

Lemma first_match_wins_two_jumps :
  transitionSatisfied jumpingController
    (mkTransition "movement" "JumpFalling"
       [ mkCondition "isJumping" OpEq (VBool true) ] 0) = true ∧
  evaluateTransitions jumpingController
  = Some (mkTransition "movement" "JumpUp"
            [ mkCondition "isJumping" OpEq (VBool true) ] 0).
Proof.
  split; [reflexivity |].
  apply (proj1 (proj2 (evaluateTransitions_first_match_wins jumpingController))
           [] _
           [ mkTransition "movement" "JumpFalling"
               [ mkCondition "isJumping" OpEq (VBool true) ] 0 ]).
  - reflexivity.
  - reflexivity.
  - reflexivity.
  - intros t' Hin. by apply elem_of_nil in Hin.
Defined.

Lemma unset_variable_and_conjunction_two_jumps :
  evaluateCondition constructed (mkCondition "isJumping" OpEq (VBool true))
  = false ∧
  (evaluateTransitionsFrom jumpingController twoJumpTransitions
   = Some (mkTransition "movement" "JumpUp"
             [ mkCondition "isJumping" OpEq (VBool true) ] 0)
   ↔ ∀ cond, cond ∈ [ mkCondition "isJumping" OpEq (VBool true) ] →
             evaluateCondition jumpingController cond = true).
Proof.
  split.
  - apply (proj1 (evaluateCondition_missing_and_conjunction constructed)).
    reflexivity.
  - apply (proj2 (evaluateCondition_missing_and_conjunction jumpingController)
             (mkTransition "movement" "JumpUp"
                [ mkCondition "isJumping" OpEq (VBool true) ] 0));
      [reflexivity | discriminate].
Defined.

Lemma empty_conditions_looping_graph :
  evaluateTransitionsFrom loopingReady [ mkTransition "Fall" "Up" [] 0 ]
  = Some (mkTransition "Fall" "Up" [] 0)
  ↔ ∃ n g, jsmap_get (currentNodeId loopingReady) (nodes loopingReady)
           = Some (Single n) ∧
           jsmap_get (single_state n) (animationGroups loopingReady) = Some g ∧
           isPlaying g = false.
Proof.
  apply (empty_conditions_fire_iff_clip_not_playing loopingReady
           (mkTransition "Fall" "Up" [] 0) []); reflexivity.
Defined.

Lemma blend_source_jump_requested :
  from (mkTransition "movement" "JumpUp"
          [ mkCondition "isJumping" OpEq (VBool true) ] 0)
  = currentNodeId jumpRequested ∧
  conditions (mkTransition "movement" "JumpUp"
                [ mkCondition "isJumping" OpEq (VBool true) ] 0) ≠ [].
Proof.
  apply (blend_source_never_fires_empty_conditions jumpRequested movementNode);
    reflexivity.
Defined.

(** C7 as stated fails on the source's own graph: the graph is well formed,
    and the constructor called without arguments throws all the same,
    because the arguments are parsed first. *)
Lemma constructor_rejects_undefined_args :
  ¬ malformedGraph ANIMATION_NODES ANIMATION_TRANSITIONS INITIAL_NODE_ID ∧
  AnimationController_constructor JsUndefined ANIMATION_NODES
    ANIMATION_TRANSITIONS INITIAL_NODE_ID = inl ZodError.
Proof.
  split; [| reflexivity].
  intros [e He]%construct_inl. discriminate He.
Qed.

Lemma construct_source_constants :
  currentNodeId constructed = INITIAL_NODE_ID ∧
  ∃ c0 c', setupAnimations constructed allStates = Ok c0 ∧
           run c0 [ CallSetVariable "isJumping" (VBool true);
                    CallTick 0.016%R; CallPlayNode "movement" 0%R ] = Ok c'.
Proof.
  destruct (proj2 (constructor_fails_iff_args_rejected_or_malformed
                     (JsObject []) ANIMATION_NODES ANIMATION_TRANSITIONS
                     INITIAL_NODE_ID)
              constructed eq_refl) as [Hcur Hrun].
  split; [exact Hcur |].
  apply Hrun. repeat constructor.
Defined.

Lemma playNode_unknown_node_on_constants :
  (∃ c' e, playNode constructed "Crouch" 0 = Throw c' e)
  ↔ "Crouch" ∉ (nodes constructed).*1.
Proof.
  apply (proj1 (playNode_throws_iff_unknown_node constructed "Crouch" 0%R
                  ltac:(compute_done))).
Defined.

(** * Further properties of the controller *)

(** ** More on insertion-ordered maps *)

Section JsMapMoreFacts.
Context {K V : Type} `{EqDecision K}.
Implicit Types (k : K) (v : V) (m : list (K * V)).

Lemma jsmap_get_forEach (f : V → V) k m :
  jsmap_get k (jsmap_forEach f m) = f <$> jsmap_get k m.
Proof.
  unfold jsmap_forEach. induction m as [| [k0 v0] m IH]; csimpl; [done |].
  by destruct (decide (k = k0)).
Qed.

Lemma jsmap_get_set k k' v m :
  jsmap_get k' (jsmap_set k v m)
  = if decide (k' = k) then Some v else jsmap_get k' m.
Proof.
  induction m as [| [k0 v0] m IH]; simpl.
  - by destruct (decide (k' = k)).
  - destruct (decide (k = k0)) as [-> | Hk]; simpl.
    + by destruct (decide (k' = k0)).
    + destruct (decide (k' = k0)) as [-> | Hk'].
      * by rewrite decide_False by done.
      * apply IH.
Qed.

Lemma jsmap_forEach_idemp (f : V → V) m :
  (∀ v, f (f v) = f v) →
  jsmap_forEach f (jsmap_forEach f m) = jsmap_forEach f m.
Proof.
  intros Hf. unfold jsmap_forEach.
  induction m as [| [k0 v0] m IH]; csimpl; [done |]. by rewrite Hf, IH.
Qed.
End JsMapMoreFacts.

(** ** Variable store *)

(** X1. Round trip of the variable store: a variable reads back the value
    last written to it, writing one variable leaves every other variable as
    it was, and [setVariable] touches nothing but the store. *)
Theorem setVariable_getVariable_round_trip
    (c : Controller) (name other : string) (v w : Value) :
  getVariable (setVariable c name v) name = Some v ∧
  getVariable (setVariable (setVariable c name w) name v) name = Some v ∧
  (other ≠ name →
   getVariable (setVariable c name v) other = getVariable c other) ∧
  currentNodeId (setVariable c name v) = currentNodeId c ∧
  activeBlend (setVariable c name v) = activeBlend c ∧
  animationGroups (setVariable c name v) = animationGroups c ∧
  blendWeights (setVariable c name v) = blendWeights c.
Proof.
  unfold getVariable, setVariable. simpl. split_and!; try done.
  - by rewrite lookup_insert_eq.
  - by rewrite lookup_insert_eq.
  - intros Hne. by rewrite lookup_insert_ne.
Qed.

Lemma setVariable_getVariable_on_constants :
  getVariable (setVariable constructed "isJumping" (VBool true)) "directionX"
  = getVariable constructed "directionX".
Proof.
  apply (proj1 (proj2 (proj2 (setVariable_getVariable_round_trip constructed
            "isJumping" "directionX" (VBool true) (VBool false))))).
  discriminate.
Defined.

(** ** What the controller never writes *)

Lemma playNode_keeps_data c nodeId d :
  nodes (stateOf (playNode c nodeId d)) = nodes c ∧
  transitions (stateOf (playNode c nodeId d)) = transitions c ∧
  variables (stateOf (playNode c nodeId d)) = variables c.
Proof.
  destruct (playNode_cases c nodeId d)
    as [[-> _] | (c' & -> & _ & Hn & Ht & Hv & _)]; by simpl.
Qed.

Lemma update_keeps_data c :
  nodes (stateOf (update c)) = nodes c ∧
  transitions (stateOf (update c)) = transitions c ∧
  variables (stateOf (update c)) = variables c.
Proof.
  unfold update.
  destruct (jsmap_get (currentNodeId c) (nodes c)) as [node |]; [| done].
  set (c1 := match node with
             | Single _ => c
             | Blend n =>
                 match activeBlend (updateBlendNodeWeights c n) with
                 | Some _ => updateBlendNodeWeights c n
                 | None => applyBlendNodeWeights (updateBlendNodeWeights c n)
                 end
             end).
  assert (nodes c1 = nodes c ∧ transitions c1 = transitions c ∧
          variables c1 = variables c) as (Hn & Ht & Hv).
  { subst c1. destruct node as [n | n]; [done |].
    by destruct (activeBlend _). }
  destruct (evaluateTransitions c1) as [t |]; [| done].
  destruct (playNode_keeps_data c1 (to t) (crossFadeDuration t))
    as (Hn' & Ht' & Hv').
  split_and!; congruence.
Qed.

(** X2. The graph and the variable store are read-only to the controller's
    own logic: whether it returns or throws, a frame ([tick]), an [update]
    and a [playNode] leave the node map, the transition list and every
    variable exactly as they were. *)
Theorem core_never_writes_graph_or_variables
    (c : Controller) (deltaTime : R) (nodeId : string) (d : R) :
  (nodes (stateOf (tick c deltaTime)) = nodes c ∧
   transitions (stateOf (tick c deltaTime)) = transitions c ∧
   variables (stateOf (tick c deltaTime)) = variables c) ∧
  (nodes (stateOf (update c)) = nodes c ∧
   transitions (stateOf (update c)) = transitions c ∧
   variables (stateOf (update c)) = variables c) ∧
  (nodes (stateOf (playNode c nodeId d)) = nodes c ∧
   transitions (stateOf (playNode c nodeId d)) = transitions c ∧
   variables (stateOf (playNode c nodeId d)) = variables c).
Proof.
  split_and!; try apply update_keeps_data; try apply playNode_keeps_data.
  all: unfold tick;
    pose proof (updateCrossFade_sameGraph c deltaTime) as (Hn & Ht & _ & Hv);
    destruct (updateCrossFade c deltaTime) as [c1 | c1 e]; simpl in *;
    [| done];
    destruct (update_keeps_data c1) as (Hn' & Ht' & Hv'); congruence.
Qed.

(** ** Stopping and hard cuts *)

Lemma clipPlaying_stopAllAnimations c s :
  clipPlaying (stopAllAnimations c) s = false.
Proof.
  unfold clipPlaying, stopAllAnimations. simpl.
  rewrite jsmap_get_forEach.
  destruct (jsmap_get s (animationGroups c)) as [g |]; simpl; [| done].
  by destruct (isPlaying g) eqn:Hp.
Qed.

(** X3. [stopAllAnimations] leaves no clip playing: a clip that was playing
    is stopped with weight 0, a clip that was not playing keeps its group
    untouched (its weight included), no binding is added or removed, and
    stopping twice is the same as stopping once. *)
Theorem stopAllAnimations_stops_every_clip (c : Controller) :
  (∀ s, clipPlaying (stopAllAnimations c) s = false) ∧
  (∀ s, clipPlaying c s = true → clipWeight (stopAllAnimations c) s = 0%R) ∧
  (∀ s, clipPlaying c s = false →
        jsmap_get s (animationGroups (stopAllAnimations c))
        = jsmap_get s (animationGroups c)) ∧
  (∀ s, clipBound (stopAllAnimations c) s ↔ clipBound c s) ∧
  stopAllAnimations (stopAllAnimations c) = stopAllAnimations c.
Proof.
  split_and!.
  - apply clipPlaying_stopAllAnimations.
  - intros s. unfold clipPlaying, clipWeight, stopAllAnimations. simpl.
    rewrite jsmap_get_forEach.
    destruct (jsmap_get s (animationGroups c)) as [g |]; simpl; [| done].
    by intros ->.
  - intros s. unfold clipPlaying, stopAllAnimations. simpl.
    rewrite jsmap_get_forEach.
    destruct (jsmap_get s (animationGroups c)) as [g |]; simpl; [| done].
    by intros ->.
  - intros s. unfold clipBound, stopAllAnimations. simpl.
    rewrite jsmap_get_forEach. by rewrite fmap_is_Some.
  - unfold stopAllAnimations, with_groups. simpl. f_equal.
    apply jsmap_forEach_idemp. by intros [w [] l sp].
Qed.

Lemma stopAllAnimations_on_run :
  clipPlaying atJumpUp JUMP_UP = true ∧
  clipWeight (stopAllAnimations atJumpUp) JUMP_UP = 0%R.
Proof.
  split; [reflexivity |].
  apply (proj1 (proj2 (stopAllAnimations_stops_every_clip atJumpUp))).
  reflexivity.
Defined.

Lemma applyBlendNodeWeights_activeBlend c :
  activeBlend (applyBlendNodeWeights c) = activeBlend c.
Proof. done. Qed.

Lemma jsmap_get_playAnimationImmediate c s s' :
  jsmap_get s' (animationGroups (playAnimationImmediate c s))
  = if decide (s' = s)
    then (λ g, mkGroup 1 true (loopAnimation g) (speedRatio g))
         <$> jsmap_get s (animationGroups c)
    else (λ g, if isPlaying g
               then mkGroup 0 false (loopAnimation g) (speedRatio g)
               else g) <$> jsmap_get s' (animationGroups c).
Proof.
  unfold playAnimationImmediate, stopAllAnimations, start, setWeight. simpl.
  rewrite !jsmap_get_alter, jsmap_get_forEach.
  destruct (decide (s' = s)) as [-> | Hne]; [| done].
  destruct (jsmap_get s (animationGroups c)) as [g |]; simpl; [| done].
  by destruct (isPlaying g).
Qed.

(** X4. A hard cut to a single node ([playNode] with a cross-fade duration
    that is not positive, towards a known single node whose clip is bound,
    other than the no-op case): the call returns, the node becomes current,
    its clip plays at weight 1 and is the only clip playing. *)
Theorem playNode_hard_cut_plays_only_the_target
    (c : Controller) (nodeId : string) (d : R) (n : AnimationSingleNode) :
  jsmap_get nodeId (nodes c) = Some (Single n) →
  clipBound c (single_state n) →
  ¬ (d > 0)%R →
  ¬ (currentNodeId c = nodeId ∧ activeBlend c = None) →
  ∃ c', playNode c nodeId d = Ok c' ∧
        currentNodeId c' = nodeId ∧
        clipWeight c' (single_state n) = 1%R ∧
        ∀ s, clipPlaying c' s = true ↔ s = single_state n.
Proof.
  intros Hn Hbound Hd Hnot.
  rewrite (playNode_activate c nodeId d (Single n)) by done.
  rewrite startSingleNode_immediate by done. simpl stateOf.
  eexists. split; [done |]. split; [done |].
  destruct Hbound as [g Hg]. split.
  - unfold clipWeight. cbn [animationGroups with_currentNodeId].
    rewrite jsmap_get_playAnimationImmediate, decide_True by done.
    by rewrite Hg.
  - intros s. unfold clipPlaying. cbn [animationGroups with_currentNodeId].
    rewrite jsmap_get_playAnimationImmediate.
    destruct (decide (s = single_state n)) as [-> | Hne].
    + by rewrite Hg.
    + destruct (jsmap_get s (animationGroups c)) as [g' |]; simpl;
        [| by split].
      destruct (isPlaying g') eqn:Hp; simpl; [by split |].
      rewrite Hp. by split.
Qed.

Lemma playNode_hard_cut_on_constants :
  ∃ c', playNode ready "JumpUp" 0 = Ok c' ∧
        currentNodeId c' = "JumpUp" ∧
        clipWeight c' JUMP_UP = 1%R ∧
        ∀ s, clipPlaying c' s = true ↔ s = JUMP_UP.
Proof.
  apply (playNode_hard_cut_plays_only_the_target ready "JumpUp" 0%R jumpUpNode).
  - reflexivity.
  - by eexists.
  - lra.
  - by intros [? _].
Defined.

(** X5. A call with a cross-fade duration that is not positive never
    touches the scheduler: whatever the target and whether the call returns
    or throws, [activeBlend] is what it was, so a cross-fade in flight stays
    in flight across a hard cut. *)
Theorem playNode_without_duration_keeps_activeBlend
    (c : Controller) (nodeId : string) (d : R) :
  ¬ (d > 0)%R →
  activeBlend (stateOf (playNode c nodeId d)) = activeBlend c.
Proof.
  intros Hd. unfold playNode.
  destruct (decide _) as [_ | _]; [done |].
  destruct (jsmap_get nodeId (nodes c)) as [[n | n] |]; [| | done].
  - unfold startSingleNode.
    destruct (jsmap_get (single_state n) _); [| done].
    by rewrite decide_False.
  - unfold startBlendNode. by rewrite decide_False.
Qed.

Lemma playNode_without_duration_during_crossfade :
  activeBlend (stateOf (playNode fadeToFallingHalfway "movement" 0))
  = activeBlend fadeToFallingHalfway.
Proof.
  apply playNode_without_duration_keeps_activeBlend. lra.
Defined.

(** X6. A missing clip is not fatal: [playNode] towards a known single node
    whose clip is not bound returns, and the only thing it changes is the
    current node, for every cross-fade duration. *)
Theorem playNode_unbound_clip_only_moves_current_node
    (c : Controller) (nodeId : string) (d : R) (n : AnimationSingleNode) :
  jsmap_get nodeId (nodes c) = Some (Single n) →
  jsmap_get (single_state n) (animationGroups c) = None →
  playNode c nodeId d = Ok (with_currentNodeId c nodeId).
Proof.
  intros Hn Hg. unfold playNode.
  destruct (decide _) as [[Hcur _] | _].
  - destruct c. simpl in *. by subst.
  - rewrite Hn. by rewrite startSingleNode_unbound.
Qed.

Lemma playNode_unbound_clip_without_jumpUp :
  playNode readyWithoutJumpUp "JumpUp" 0
  = Ok (with_currentNodeId readyWithoutJumpUp "JumpUp").
Proof.
  apply (playNode_unbound_clip_only_moves_current_node _ _ _ jumpUpNode);
    reflexivity.
Defined.

(** ** The easing curve on the unit interval *)

Section EasingOrder.
Local Open Scope R_scope.

(** X7. On the unit interval the eased weight stays between 0 and 1 and
    passes one half at the halfway point: it is below 0.5 before [t = 0.5]
    and at least 0.5 from there on. *)
Theorem easeInOutQuad_bounds_on_unit_interval (t : R) :
  0 <= t → t <= 1 →
  0 <= easeInOutQuad t <= 1 ∧
  (t < 0.5 → easeInOutQuad t < 0.5) ∧
  (0.5 <= t → 0.5 <= easeInOutQuad t).
Proof.
  intros H0 H1.
  destruct (Rlt_le_dec t 0.5) as [Ht | Ht];
    rewrite ?(easeInOutQuad_lt t), ?(easeInOutQuad_ge t) by done;
    split_and!; try intros ?; nra.
Qed.

Lemma easeInOutQuad_bounds_at_quarter :
  0 <= easeInOutQuad 0.25 <= 1 ∧ easeInOutQuad 0.25 < 0.5.
Proof.
  destruct (easeInOutQuad_bounds_on_unit_interval 0.25) as (Hr & Hlow & _);
    [lra | lra |].
  split; [exact Hr | apply Hlow; lra].
Defined.
End EasingOrder.

(** ** The dominant clip *)

Section DominantClip.
Local Open Scope R_scope.

Lemma dominant_foldl_invariant (bw : list (AnimationState * R)) l s0 m0 :
  ∃ d m,
    foldl (λ '(dominantState, maxWeight) anim,
             let w := blendWeightOrZero bw (sample_state anim) in
             if decide (w > maxWeight)
             then (sample_state anim, w)
             else (dominantState, maxWeight)) (s0, m0) l = (d, m) ∧
    m0 <= m ∧
    (∀ b, b ∈ l → blendWeightOrZero bw (sample_state b) <= m) ∧
    ((d = s0 ∧ m = m0) ∨
     (d ∈ sample_state <$> l ∧ m = blendWeightOrZero bw d ∧ m0 < m)).
Proof.
  revert s0 m0. induction l as [| a l IH]; intros s0 m0; simpl.
  - exists s0, m0.
    split_and!; [done | lra | by intros b ?%elem_of_nil | by left].
  - destruct (decide _) as [Hgt | Hngt].
    + destruct (IH (sample_state a) (blendWeightOrZero bw (sample_state a)))
        as (d & m & Heq & Hle & Hall & Hcase).
      exists d, m. split_and!.
      * done.
      * lra.
      * intros b [-> | Hb]%elem_of_cons; [done | by apply Hall].
      * right. destruct Hcase as [[-> ->] | (Hin & Hm & Hlt)].
        -- split_and!; [apply elem_of_cons; by left | done | lra].
        -- split_and!; [apply elem_of_cons; by right | done | lra].
    + destruct (IH s0 m0) as (d & m & Heq & Hle & Hall & Hcase).
      exists d, m. split_and!.
      * done.
      * done.
      * intros b [-> | Hb]%elem_of_cons; [lra | by apply Hall].
      * destruct Hcase as [? | (Hin & Hm & Hlt)]; [by left |].
        right. split_and!; [apply elem_of_cons; by right | done | done].
Qed.

(** X8. The dominant clip of a node. An unknown id and a blend node
    without samples are errors; a single node gives its clip; a blend node
    gives the clip of one of its samples, which carries the largest stored
    weight of the node as soon as some sample has a positive weight, and is
    the first sample's clip when no sample has one. *)
Theorem getDominantAnimationState_cases (c : Controller) (id : string) :
  match jsmap_get id (nodes c) with
  | None => getDominantAnimationState c id = inl (PreviousNodeNotFound id)
  | Some (Single n) => getDominantAnimationState c id = inr (single_state n)
  | Some (Blend n) =>
      match animations n with
      | [] => getDominantAnimationState c id = inl TypeError
      | first :: _ =>
          ∃ d, getDominantAnimationState c id = inr d ∧
               d ∈ sample_state <$> animations n ∧
               ((∃ b, b ∈ animations n ∧
                      blendWeightOrZero (blendWeights c) (sample_state b) > 0) →
                ∀ b, b ∈ animations n →
                     blendWeightOrZero (blendWeights c) (sample_state b)
                     <= blendWeightOrZero (blendWeights c) d) ∧
               ((∀ b, b ∈ animations n →
                      blendWeightOrZero (blendWeights c) (sample_state b) <= 0) →
                d = sample_state first)
      end
  end.
Proof.
  unfold getDominantAnimationState.
  destruct (jsmap_get id (nodes c)) as [[n | n] |]; [done | | done].
  destruct (animations n) as [| first rest] eqn:Hanims; [done |].
  destruct (dominant_foldl_invariant (blendWeights c) (first :: rest)
              (sample_state first) 0)
    as (d & m & Heq & Hle & Hall & Hcase).
  cbv zeta in Heq |- *. exists d. rewrite Heq. split; [done |]. split_and!.
  - destruct Hcase as [[-> _] | (Hin & _)]; [| done].
    csimpl. apply elem_of_cons. by left.
  - intros (b & Hb & Hpos) b' Hb'.
    destruct Hcase as [[_ Hzero] | (_ & Hm & _)].
    + specialize (Hall b Hb). lra.
    + rewrite <- Hm. by apply Hall.
  - intros Hnone. destruct Hcase as [[-> _] | (Hin & Hm & Hlt)]; [done |].
    apply list_elem_of_fmap in Hin as (b & Hd & Hb).
    specialize (Hnone b Hb). rewrite <- Hd in Hnone. lra.
Qed.
End DominantClip.

Lemma getDominantAnimationState_on_movement :
  ∃ d, getDominantAnimationState fadeToMovement "movement" = inr d ∧
       d ∈ sample_state <$> animations movementNode ∧
       ((∃ b, b ∈ animations movementNode ∧
              (blendWeightOrZero (blendWeights fadeToMovement)
                 (sample_state b) > 0)%R) →
        ∀ b, b ∈ animations movementNode →
             (blendWeightOrZero (blendWeights fadeToMovement) (sample_state b)
              <= blendWeightOrZero (blendWeights fadeToMovement) d)%R) ∧
       ((∀ b, b ∈ animations movementNode →
              (blendWeightOrZero (blendWeights fadeToMovement)
                 (sample_state b) <= 0)%R) →
        d = IDLE).
Proof.
  exact (getDominantAnimationState_cases fadeToMovement "movement").
Defined.

(** ** Finalizing and advancing a cross-fade *)

Section CrossFadeSteps.
Local Open Scope R_scope.

Lemma clipWeight_setWeight c gs s s' w :
  clipWeight (with_groups c (setWeight s w gs)) s'
  = if decide (s' = s)
    then match jsmap_get s gs with Some _ => w | None => 0 end
    else clipWeight (with_groups c gs) s'.
Proof.
  unfold clipWeight, setWeight. simpl. rewrite jsmap_get_alter.
  destruct (decide (s' = s)) as [-> | Hne]; [| done].
  by destruct (jsmap_get s gs).
Qed.

(** X9. Finalizing a cross-fade between single clips (the current node is a
    single node and the outgoing clip's name is not the id of a blend node):
    the cross-fade is cleared, the outgoing clip is stopped at weight 0, the
    target clip, if it is another clip and is bound, is at weight 1 with its
    playing flag untouched, and every other clip is left alone. *)
Theorem completeCrossFade_between_single_clips
    (c : Controller) (b : BlendInfo) (n : AnimationSingleNode) :
  activeBlend c = Some b →
  jsmap_get (currentNodeId c) (nodes c) = Some (Single n) →
  (∀ p, jsmap_get (stateName (fromState b)) (nodes c) ≠ Some (Blend p)) →
  ∃ c', completeCrossFade c = Ok c' ∧
        activeBlend c' = None ∧
        clipWeight c' (fromState b) = 0 ∧
        clipPlaying c' (fromState b) = false ∧
        (toState b ≠ fromState b → clipBound c (toState b) →
         clipWeight c' (toState b) = 1 ∧
         clipPlaying c' (toState b) = clipPlaying c (toState b)) ∧
        (∀ s, s ≠ fromState b → s ≠ toState b →
              jsmap_get s (animationGroups c')
              = jsmap_get s (animationGroups c)).
Proof.
  intros Hb Hn Hprev. unfold completeCrossFade. rewrite Hb, Hn.
  set (gs1 := setWeight (toState b) 1 (animationGroups c)).
  assert (match jsmap_get (stateName (fromState b)) (nodes c) with
          | Some (Blend p) =>
              foldl (λ gs anim,
                       setWeight (sample_state anim) 0
                         (stop (sample_state anim) gs)) gs1 (animations p)
          | _ => setWeight (fromState b) 0 (stop (fromState b) gs1)
          end = setWeight (fromState b) 0 (stop (fromState b) gs1)) as ->.
  { destruct (jsmap_get (stateName (fromState b)) (nodes c)) as [[p | p] |];
      [done | by destruct (Hprev p) | done]. }
  eexists. split; [done |]. split; [done |].
  unfold clipWeight, clipPlaying, clipBound. simpl.
  subst gs1. unfold setWeight, stop. split_and!.
  - rewrite !jsmap_get_alter.
    repeat case_decide; try done;
      by destruct (jsmap_get (fromState b) (animationGroups c)).
  - rewrite !jsmap_get_alter.
    repeat case_decide; try done;
      by destruct (jsmap_get (fromState b) (animationGroups c)).
  - intros Hne [g Hg]. rewrite !jsmap_get_alter.
    repeat case_decide; try done. by rewrite Hg.
  - intros s Hs1 Hs2. rewrite !jsmap_get_alter.
    by repeat case_decide.
Qed.

Lemma completeCrossFade_on_run :
  ∃ c', completeCrossFade fadeToFallingHalfway = Ok c' ∧
        activeBlend c' = None ∧
        clipWeight c' JUMP_UP = 0 ∧
        clipPlaying c' JUMP_UP = false ∧
        (JUMP_FALLING ≠ JUMP_UP → clipBound fadeToFallingHalfway JUMP_FALLING →
         clipWeight c' JUMP_FALLING = 1 ∧
         clipPlaying c' JUMP_FALLING
         = clipPlaying fadeToFallingHalfway JUMP_FALLING) ∧
        (∀ s, s ≠ JUMP_UP → s ≠ JUMP_FALLING →
              jsmap_get s (animationGroups c')
              = jsmap_get s (animationGroups fadeToFallingHalfway)).
Proof.
  apply (completeCrossFade_between_single_clips fadeToFallingHalfway
           (mkBlendInfo JUMP_UP JUMP_FALLING (0 + 0.5 / 1) 1) jumpFallingNode).
  - reflexivity.
  - reflexivity.
  - intros p. discriminate.
Defined.

(** X10. One frame of a cross-fade between single clips that does not end
    it (neither clip's name is the id of a blend node, the two clips differ
    and are bound, and the advanced progress is below 1): progress grows by
    [deltaTime / duration], the target is set to [ease progress], the
    outgoing clip to [1 - ease progress], so the two weights sum to 1, and
    every other clip is left alone. *)
Theorem updateCrossFade_single_clips_sum_to_one
    (c : Controller) (b : BlendInfo) (deltaTime : R) :
  activeBlend c = Some b →
  progress b + deltaTime / duration b < 1 →
  (∀ p, jsmap_get (stateName (toState b)) (nodes c) ≠ Some (Blend p)) →
  (∀ p, jsmap_get (stateName (fromState b)) (nodes c) ≠ Some (Blend p)) →
  toState b ≠ fromState b →
  clipBound c (toState b) → clipBound c (fromState b) →
  ∃ c', updateCrossFade c deltaTime = Ok c' ∧
        activeBlend c'
        = Some (mkBlendInfo (fromState b) (toState b)
                  (progress b + deltaTime / duration b) (duration b)) ∧
        clipWeight c' (toState b)
        = easeInOutQuad (progress b + deltaTime / duration b) ∧
        clipWeight c' (fromState b)
        = 1 - easeInOutQuad (progress b + deltaTime / duration b) ∧
        clipWeight c' (toState b) + clipWeight c' (fromState b) = 1 ∧
        (∀ s, s ≠ fromState b → s ≠ toState b →
              jsmap_get s (animationGroups c')
              = jsmap_get s (animationGroups c)).
Proof.
  intros Hb Hlt Hto Hfrom Hne [gt Hgt] [gf Hgf].
  rewrite (updateCrossFade_running c deltaTime b) by done.
  eexists. split; [done |].
  unfold updateCrossFadeWeights. cbn [activeBlend with_activeBlend].
  cbn [toState fromState progress nodes with_activeBlend animationGroups
       blendWeights].
  set (e := easeInOutQuad (progress b + deltaTime / duration b)).
  assert (match jsmap_get (stateName (toState b)) (nodes c) with
          | Some (Blend _) =>
              foldl (λ gs '(s, targetWeight),
                       setWeight s (targetWeight * e) gs)
                    (animationGroups c) (blendWeights c)
          | _ => setWeight (toState b) e (animationGroups c)
          end = setWeight (toState b) e (animationGroups c)) as ->.
  { destruct (jsmap_get (stateName (toState b)) (nodes c)) as [[p | p] |];
      [done | by destruct (Hto p) | done]. }
  assert (∀ gs1,
          match jsmap_get (stateName (fromState b)) (nodes c) with
          | Some (Blend p) =>
              foldl (λ gs anim,
                       setWeight (sample_state anim)
                         (blendWeightOrZero (blendWeights c)
                            (sample_state anim) * (1 - e)) gs)
                    gs1 (animations p)
          | _ => setWeight (fromState b) (1 - e) gs1
          end = setWeight (fromState b) (1 - e) gs1) as ->.
  { intros gs1.
    destruct (jsmap_get (stateName (fromState b)) (nodes c)) as [[p | p] |];
      [done | by destruct (Hfrom p) | done]. }
  assert (clipWeight
            (with_groups
               (with_activeBlend c
                  (Some (mkBlendInfo (fromState b) (toState b)
                           (progress b + deltaTime / duration b)
                           (duration b))))
               (setWeight (fromState b) (1 - e)
                  (setWeight (toState b) e (animationGroups c))))
            (toState b) = e) as Hwt.
  { unfold clipWeight, setWeight. simpl. rewrite !jsmap_get_alter.
    repeat case_decide; try done. by rewrite Hgt. }
  assert (clipWeight
            (with_groups
               (with_activeBlend c
                  (Some (mkBlendInfo (fromState b) (toState b)
                           (progress b + deltaTime / duration b)
                           (duration b))))
               (setWeight (fromState b) (1 - e)
                  (setWeight (toState b) e (animationGroups c))))
            (fromState b) = 1 - e) as Hwf.
  { unfold clipWeight, setWeight. simpl. rewrite !jsmap_get_alter.
    repeat case_decide; try done; try congruence. by rewrite Hgf. }
  split_and!; [done | exact Hwt | exact Hwf | rewrite Hwt, Hwf; lra |].
  intros s Hs1 Hs2. unfold setWeight. simpl. rewrite !jsmap_get_alter.
  by repeat case_decide.
Qed.
End CrossFadeSteps.

Section CrossFadeProgress.
Local Open Scope R_scope.

Lemma updateCrossFade_on_run :
  ∃ c', updateCrossFade fadeToFalling 0.5 = Ok c' ∧
        activeBlend c'
        = Some (mkBlendInfo JUMP_UP JUMP_FALLING (0 + 0.5 / 1) 1) ∧
        clipWeight c' JUMP_FALLING = easeInOutQuad (0 + 0.5 / 1) ∧
        clipWeight c' JUMP_UP = 1 - easeInOutQuad (0 + 0.5 / 1) ∧
        clipWeight c' JUMP_FALLING + clipWeight c' JUMP_UP = 1 ∧
        (∀ s, s ≠ JUMP_UP → s ≠ JUMP_FALLING →
              jsmap_get s (animationGroups c')
              = jsmap_get s (animationGroups fadeToFalling)).
Proof.
  apply (updateCrossFade_single_clips_sum_to_one fadeToFalling
           (mkBlendInfo JUMP_UP JUMP_FALLING 0 1) 0.5).
  - reflexivity.
  - simpl. lra.
  - intros p. discriminate.
  - intros p. discriminate.
  - discriminate.
  - by eexists.
  - by eexists.
Defined.

Lemma updateCrossFade_step c deltaTime b :
  activeBlend c = Some b →
  currentNodeId c ∈ (nodes c).*1 →
  ∃ c', updateCrossFade c deltaTime = Ok c' ∧
        nodes c' = nodes c ∧ currentNodeId c' = currentNodeId c ∧
        activeBlend c'
        = if decide (progress b + deltaTime / duration b >= 1)
          then None
          else Some (mkBlendInfo (fromState b) (toState b)
                       (progress b + deltaTime / duration b) (duration b)).
Proof.
  intros Hb Hcur. unfold updateCrossFade. rewrite Hb. simpl.
  destruct (decide _) as [Hge | Hlt].
  - unfold completeCrossFade. simpl.
    destruct (jsmap_get (currentNodeId c) (nodes c)) eqn:Hget;
      [by eexists | by apply jsmap_get_None in Hget].
  - eexists. split; [done |]. by unfold updateCrossFadeWeights.
Qed.

Lemma updateCrossFadeTimes_idle n c deltaTime :
  activeBlend c = None → updateCrossFadeTimes n c deltaTime = Ok c.
Proof.
  intros Hb. induction n as [| n IH]; [done |]. simpl.
  by rewrite updateCrossFade_idle.
Qed.

(** How many frames a cross-fade takes is decided by the binary64 sum, not
    by the exact quotient: ten frames of a tenth of the duration leave the
    progress at [0.9999999999999999], and the cross-fade ends on the
    eleventh. *)
Lemma ten_frames_of_a_tenth_fall_short :
  let p := Nat.iter 10 (λ p, Binary64.advanceProgress p 0.1 1) 0%float in
  p = 0.9999999999999999%float ∧
  (1 <=? p)%float = false ∧
  (1 <=? Binary64.advanceProgress p 0.1 1)%float = true.
Proof. split_and!; vm_compute; reflexivity. Qed.

(** X11. A cross-fade keeps its endpoints until it ends. With the current
    node in the graph, a positive duration, a progress below 1 and a frame
    time that is not negative, any number of calls of [updateCrossFade]
    returns, and afterwards the cross-fade is either cleared or still in
    flight between the same two clips, with the same duration and a
    progress that has not decreased and is still below 1. A call whose
    advanced progress [progress + deltaTime / duration] reaches 1 clears
    it. *)
Theorem updateCrossFade_keeps_endpoints_until_it_ends
    (n : nat) (c : Controller) (b : BlendInfo) (deltaTime : R) :
  activeBlend c = Some b →
  currentNodeId c ∈ (nodes c).*1 →
  0 < duration b → progress b < 1 → 0 <= deltaTime →
  ∃ c', updateCrossFadeTimes n c deltaTime = Ok c' ∧
        (activeBlend c' = None ∨
         ∃ b', activeBlend c' = Some b' ∧
               fromState b' = fromState b ∧ toState b' = toState b ∧
               duration b' = duration b ∧
               progress b <= progress b' ∧ progress b' < 1) ∧
        ((1 ≤ n)%nat → progress b + deltaTime / duration b >= 1 →
         activeBlend c' = None).
Proof.
  revert c b. induction n as [| n IH]; intros c b Hb Hcur Hdur Hp Hdt.
  { exists c. split; [done |]. split; [| intros ?; lia].
    right. exists b. split_and!; try done. }
  destruct (updateCrossFade_step c deltaTime b Hb Hcur)
    as (c1 & Hstep & Hn1 & Hc1 & Hb1).
  assert (currentNodeId c1 ∈ (nodes c1).*1) as Hcur1 by (by rewrite Hn1, Hc1).
  assert (0 <= deltaTime / duration b) as Hq
    by (apply Rmult_le_pos; [done | apply Rlt_le; by apply Rinv_0_lt_compat]).
  simpl updateCrossFadeTimes. rewrite Hstep. simpl bind.
  destruct (decide (progress b + deltaTime / duration b >= 1)) as [Hge | Hlt].
  - exists c1. rewrite updateCrossFadeTimes_idle by done.
    split_and!; [done | by left | done].
  - destruct (IH c1 _ Hb1 Hcur1) as (c' & Hrun & Hstate & _);
      cbn [progress duration]; [done | lra | done |].
    exists c'. split_and!; [done | | done].
    destruct Hstate as [Hnone | (b' & Hb' & Hf & Ht & Hd & Hle & Hlt1)];
      [by left |].
    right. exists b'. cbn [fromState toState duration progress] in *.
    split_and!; try done. lra.
Qed.

Lemma updateCrossFade_keeps_endpoints_on_run :
  ∃ c', updateCrossFadeTimes 2 fadeToFalling 0.5 = Ok c' ∧
        (activeBlend c' = None ∨
         ∃ b', activeBlend c' = Some b' ∧
               fromState b' = JUMP_UP ∧ toState b' = JUMP_FALLING ∧
               duration b' = 1 ∧ 0 <= progress b' ∧ progress b' < 1) ∧
        ((1 ≤ 2)%nat → 0 + 0.5 / 1 >= 1 → activeBlend c' = None).
Proof.
  apply (updateCrossFade_keeps_endpoints_until_it_ends 2 fadeToFalling
           (mkBlendInfo JUMP_UP JUMP_FALLING 0 1) 0.5).
  - reflexivity.
  - compute_done.
  - simpl. lra.
  - simpl. lra.
  - lra.
Defined.
End CrossFadeProgress.

(** ** Blend weights and distance *)

Section BlendWeightOrder.

(** The order of the weights against the order of the computed distances,
    checked at every input point the movement controller can send. *)
Lemma movement_weights_order_check :
  forallb (λ '(f, b, l, r, run),
    let p := Binary64.blendInput f b l r run in
    let bw := Binary64.blendNodeWeights p.1 p.2 Binary64.movementSamples in
    let d s := Binary64.distance p.1 p.2 s in
    let w s := Binary64.storedWeight bw (Binary64.sample_state s) in
    forallb (λ a, forallb (λ b,
      (negb (d a <=? d b)%float || (w b <=? w a)%float)
      && (negb (d a <? d b)%float || (w b <? w a)%float)
      && (negb (d a =? d b)%float || (w b =? w a)%float))
      Binary64.movementSamples) Binary64.movementSamples)
    (f ← [true; false]; b ← [true; false]; l ← [true; false];
     r ← [true; false]; run ← [true; false]; [(f, b, l, r, run)])
  = true.
Proof. vm_compute. reflexivity. Qed.

(** X12. Nearer samples weigh more. On the source's movement node, in
    binary64, at every input point the movement controller can send
    (whatever direction and run keys are down): a sample whose computed
    distance to the input is at most another's gets at least the other's
    weight, a strictly nearer one gets strictly more, and samples at the
    same distance get the same weight. *)
Theorem nearer_sample_gets_larger_weight
    (forward backward left right run : bool) (a b : Binary64.BlendSample) :
  a ∈ Binary64.movementSamples → b ∈ Binary64.movementSamples →
  let p := Binary64.blendInput forward backward left right run in
  let bw := Binary64.blendNodeWeights p.1 p.2 Binary64.movementSamples in
  let d s := Binary64.distance p.1 p.2 s in
  let w s := Binary64.storedWeight bw (Binary64.sample_state s) in
  ((d a <=? d b)%float = true → (w b <=? w a)%float = true) ∧
  ((d a <? d b)%float = true → (w b <? w a)%float = true) ∧
  ((d a =? d b)%float = true → (w b =? w a)%float = true).
Proof.
  intros Ha%list_elem_of_In Hb%list_elem_of_In p bw d w.
  pose proof movement_weights_order_check as Hall.
  rewrite forallb_forall in Hall.
  specialize (Hall (forward, backward, left, right, run)).
  cbv beta iota zeta in Hall.
  assert (In (forward, backward, left, right, run)
            (f ← [true; false]; b ← [true; false]; l ← [true; false];
             r ← [true; false]; run ← [true; false]; [(f, b, l, r, run)]))
    as Hin.
  { apply list_elem_of_In.
    destruct forward, backward, left, right, run; compute_done. }
  specialize (Hall Hin).
  rewrite forallb_forall in Hall. specialize (Hall a Ha).
  rewrite forallb_forall in Hall. specialize (Hall b Hb).
  apply andb_prop in Hall as [Hall Heq].
  apply andb_prop in Hall as [Hle Hlt].
  fold p bw in Hle, Hlt, Heq.
  split_and!; intros Hd.
  - subst d w. cbv beta in Hd |- *. rewrite Hd in Hle. exact Hle.
  - subst d w. cbv beta in Hd |- *. rewrite Hd in Hlt. exact Hlt.
  - subst d w. cbv beta in Hd |- *. rewrite Hd in Heq. exact Heq.
Qed.

Lemma nearer_sample_walking_forward :
  let p := Binary64.blendInput false true false false false in
  let bw := Binary64.blendNodeWeights p.1 p.2 Binary64.movementSamples in
  p = (0, 1)%float ∧
  (Binary64.storedWeight bw RUN_FORWARD <? Binary64.storedWeight bw WALK_FORWARD)%float
  = true.
Proof.
  split; [reflexivity |].
  apply (proj1 (proj2 (nearer_sample_gets_larger_weight false true false
                         false false
                         (Binary64.mkSample WALK_FORWARD 0 1)
                         (Binary64.mkSample RUN_FORWARD 0 2)
                         ltac:(in_list) ltac:(in_list)))).
  reflexivity.
Defined.
End BlendWeightOrder.

(** ** Applying blend weights *)

Section ApplyWeights.
Local Open Scope R_scope.

Lemma applyBlendNodeWeights_step_lookup
    (gs : list (AnimationState * AnimGroup)) k w s :
  jsmap_get s
    (setWeight k w
       match jsmap_get k gs with
       | Some g => if isPlaying g then gs else start k gs
       | None => gs
       end)
  = if decide (s = k)
    then (λ g, mkGroup w true (loopAnimation g) (speedRatio g))
         <$> jsmap_get s gs
    else jsmap_get s gs.
Proof.
  unfold setWeight, start.
  destruct (jsmap_get k gs) as [g |] eqn:Hg.
  - destruct (isPlaying g) eqn:Hp; rewrite !jsmap_get_alter;
      destruct (decide (s = k)) as [-> | Hne]; try done;
      rewrite Hg; simpl; by rewrite ?Hp.
  - rewrite jsmap_get_alter.
    destruct (decide (s = k)) as [-> | Hne]; [by rewrite Hg | done].
Qed.

Lemma applyBlendNodeWeights_foldl_lookup
    (bw : list (AnimationState * R)) gs s :
  NoDup bw.*1 →
  jsmap_get s
    (foldl (λ gs '(s, w),
              let gs' :=
                match jsmap_get s gs with
                | Some g => if isPlaying g then gs else start s gs
                | None => gs
                end in
              setWeight s w gs') gs bw)
  = match jsmap_get s bw with
    | Some w => (λ g, mkGroup w true (loopAnimation g) (speedRatio g))
                <$> jsmap_get s gs
    | None => jsmap_get s gs
    end.
Proof.
  revert gs. induction bw as [| [k w] bw IH]; intros gs Hnd; [done |].
  apply NoDup_cons in Hnd as [Hk Hnd]. simpl foldl. cbv zeta.
  rewrite IH by done. rewrite !applyBlendNodeWeights_step_lookup.
  change (jsmap_get s ((k, w) :: bw))
    with (if decide (s = k) then Some w else jsmap_get s bw).
  destruct (decide (s = k)) as [-> | Hne]; [| done].
  apply jsmap_get_None in Hk. simpl in Hk. by rewrite Hk.
Qed.

(** X13. [applyBlendNodeWeights] (the stored weights have pairwise distinct
    keys, as the entries of a map do): every clip that has a stored weight
    and is bound ends up playing at exactly that weight, a clip without a
    stored weight is left alone, and nothing else in the controller
    changes. *)
Theorem applyBlendNodeWeights_plays_stored_weights (c : Controller) :
  NoDup (blendWeights c).*1 →
  (∀ s w, jsmap_get s (blendWeights c) = Some w → clipBound c s →
          clipWeight (applyBlendNodeWeights c) s = w ∧
          clipPlaying (applyBlendNodeWeights c) s = true) ∧
  (∀ s, jsmap_get s (blendWeights c) = None →
        jsmap_get s (animationGroups (applyBlendNodeWeights c))
        = jsmap_get s (animationGroups c)) ∧
  (∀ s, clipBound (applyBlendNodeWeights c) s ↔ clipBound c s) ∧
  sameGraph c (applyBlendNodeWeights c) ∧
  activeBlend (applyBlendNodeWeights c) = activeBlend c ∧
  blendWeights (applyBlendNodeWeights c) = blendWeights c.
Proof.
  intros Hnd. split_and!; try done.
  - intros s w Hw [g Hg]. unfold clipWeight, clipPlaying, applyBlendNodeWeights.
    cbn [animationGroups with_groups].
    rewrite applyBlendNodeWeights_foldl_lookup by done.
    by rewrite Hw, Hg.
  - intros s Hw. unfold applyBlendNodeWeights.
    cbn [animationGroups with_groups].
    rewrite applyBlendNodeWeights_foldl_lookup by done. by rewrite Hw.
  - intros s. unfold clipBound, applyBlendNodeWeights.
    cbn [animationGroups with_groups].
    rewrite applyBlendNodeWeights_foldl_lookup by done.
    destruct (jsmap_get s (blendWeights c)); [| done].
    by rewrite fmap_is_Some.
Qed.

Lemma blendNodeWeights_keys x z n :
  NoDup (sample_state <$> animations n) →
  (blendNodeWeights x z n).*1 = sample_state <$> animations n.
Proof.
  intros Hnd. rewrite blendNodeWeights_distinct by done.
  by rewrite <- list_fmap_compose.
Qed.

Lemma applyBlendNodeWeights_on_constants :
  clipWeight
    (applyBlendNodeWeights (updateBlendNodeWeights ready idleWalkNode)) IDLE
  = blendWeightOrZero
      (blendWeights (updateBlendNodeWeights ready idleWalkNode)) IDLE.
Proof.
  assert (Hnd : NoDup (sample_state <$> animations idleWalkNode))
    by compute_done.
  assert (NoDup (blendWeights (updateBlendNodeWeights ready idleWalkNode)).*1)
    as Hkeys.
  { rewrite updateBlendNodeWeights_blendWeights.
    by rewrite blendNodeWeights_keys. }
  assert (mkSample IDLE 0 0 ∈ animations idleWalkNode) as Ha
    by (apply elem_of_cons; by left).
  pose proof (updateBlendNodeWeights_blendWeights ready idleWalkNode) as Hbw.
  rewrite blendNodeWeights_distinct in Hbw by done.
  assert (jsmap_get IDLE
            (blendWeights (updateBlendNodeWeights ready idleWalkNode))
          = Some (rawWeight (inputX ready) (inputZ ready) (mkSample IDLE 0 0)
                  / totalRawWeight (inputX ready) (inputZ ready)
                      (animations idleWalkNode))) as Hw.
  { rewrite Hbw.
    apply (jsmap_get_fmap_NoDup sample_state
             (λ a, rawWeight (inputX ready) (inputZ ready) a
                   / totalRawWeight (inputX ready) (inputZ ready)
                       (animations idleWalkNode))
             (animations idleWalkNode) (mkSample IDLE 0 0) Hnd Ha). }
  unfold blendWeightOrZero. rewrite Hw.
  apply (proj1 (applyBlendNodeWeights_plays_stored_weights _ Hkeys) IDLE _ Hw).
  by eexists.
Defined.
End ApplyWeights.

(** ** Entering and staying in a blend node *)

Section BlendActivation.
Local Open Scope R_scope.





End BlendActivation.

(** ** A frame inside a blend node *)

Section BlendFrame.
Local Open Scope R_scope.

Lemma evaluateCondition_ext c c1 cond :
  variables c1 = variables c →
  evaluateCondition c1 cond = evaluateCondition c cond.
Proof. intros Hv. unfold evaluateCondition. by rewrite Hv. Qed.

Lemma forallb_evaluateCondition_ext c c1 conds :
  variables c1 = variables c →
  forallb (evaluateCondition c1) conds = forallb (evaluateCondition c) conds.
Proof.
  intros Hv. induction conds as [| cond conds IH]; [done |]. simpl.
  by rewrite IH, (evaluateCondition_ext c c1).
Qed.

Lemma evaluateTransitionsFrom_ext c c1 ts :
  currentNodeId c1 = currentNodeId c →
  variables c1 = variables c →
  currentClipStopped c1 = currentClipStopped c →
  evaluateTransitionsFrom c1 ts = evaluateTransitionsFrom c ts.
Proof.
  intros Hc Hv Hs. induction ts as [| t ts IH]; [done |].
  rewrite !evaluateTransitionsFrom_cons, IH.
  unfold transitionFires, transitionSatisfied. rewrite Hc, Hs.
  destruct (conditions t) as [| cond conds]; [done |].
  by rewrite (forallb_evaluateCondition_ext c c1).
Qed.

Lemma currentClipStopped_blend c n :
  jsmap_get (currentNodeId c) (nodes c) = Some (Blend n) →
  currentClipStopped c = false.
Proof. intros Hn. unfold currentClipStopped. by rewrite Hn. Qed.


End BlendFrame.

(** ** Which node a frame ends in *)

Lemma evaluateTransitions_after_blend_update c node :
  jsmap_get (currentNodeId c) (nodes c) = Some node →
  evaluateTransitions
    match node with
    | Single _ => c
    | Blend n =>
        match activeBlend (updateBlendNodeWeights c n) with
        | Some _ => updateBlendNodeWeights c n
        | None => applyBlendNodeWeights (updateBlendNodeWeights c n)
        end
    end
  = evaluateTransitions c.
Proof.
  intros Hn. destruct node as [n | n]; [done |].
  set (c1 := match activeBlend (updateBlendNodeWeights c n) with
             | Some _ => updateBlendNodeWeights c n
             | None => applyBlendNodeWeights (updateBlendNodeWeights c n)
             end).
  unfold evaluateTransitions.
  assert (transitions c1 = transitions c) as ->
    by (subst c1; by destruct (activeBlend _)).
  apply evaluateTransitionsFrom_ext.
  - subst c1. by destruct (activeBlend _).
  - subst c1. by destruct (activeBlend _).
  - rewrite (currentClipStopped_blend c n Hn).
    apply (currentClipStopped_blend c1 n).
    subst c1. by destruct (activeBlend _).
Qed.

(** X16. [update] follows the evaluator: on a controller whose current node
    and transition targets are nodes of the graph it returns, and the
    current node afterwards is the target of the transition
    [evaluateTransitions] returns on the state before the call, or the same
    node when it returns none. Recomputing and applying blend weights
    earlier in the same call never changes which transition is chosen. *)
Theorem update_moves_to_the_evaluated_target (c : Controller) :
  graphValid c →
  ∃ c', update c = Ok c' ∧
        currentNodeId c'
        = match evaluateTransitions c with
          | Some t => to t
          | None => currentNodeId c
          end.
Proof.
  intros Hvalid. pose proof Hvalid as [Hcur Hto]. unfold update.
  destruct (jsmap_get (currentNodeId c) (nodes c)) as [node |] eqn:Hget;
    [| by apply jsmap_get_None in Hget].
  pose proof (evaluateTransitions_after_blend_update c node Hget) as Heval.
  set (c1 := match node with
             | Single _ => c
             | Blend n =>
                 match activeBlend (updateBlendNodeWeights c n) with
                 | Some _ => updateBlendNodeWeights c n
                 | None => applyBlendNodeWeights (updateBlendNodeWeights c n)
                 end
             end) in *.
  assert (nodes c1 = nodes c ∧ currentNodeId c1 = currentNodeId c)
    as [Hn1 Hc1].
  { subst c1. destruct node as [n | n]; [done |]. by destruct (activeBlend _). }
  rewrite Heval.
  destruct (evaluateTransitions c) as [t |] eqn:Ht; [| by exists c1].
  apply evaluateTransitions_elem in Ht. rewrite Forall_forall in Hto.
  destruct (playNode_cases c1 (to t) (crossFadeDuration t))
    as [[_ Hnot] | (c' & Hok & _ & _ & _ & _ & Hc')].
  - exfalso. apply Hnot. rewrite Hn1. by apply Hto.
  - by exists c'.
Qed.

Lemma update_moves_on_jump_request :
  ∃ c', update jumpRequested = Ok c' ∧ currentNodeId c' = "JumpUp".
Proof.
  apply (update_moves_to_the_evaluated_target jumpRequested).
  split; [compute_done |]. repeat constructor.
Defined.

(** X17. The evaluator on the source's own graph, in every state. From
    [movement] it returns the transition to [JumpUp] exactly when
    [isJumping] holds the boolean [true]; from [JumpUp] the transition to
    [JumpFalling] exactly when the [JumpUp] clip is bound and not playing;
    from [JumpFalling] the transition to [movement] exactly when
    [isJumping] holds the boolean [false]; otherwise it returns nothing. A
    number stored in [isJumping] satisfies neither condition. *)
Theorem evaluateTransitions_on_source_graph (c : Controller) :
  nodes c = nodes constructed →
  transitions c = ANIMATION_TRANSITIONS →
  (currentNodeId c = "movement" →
   evaluateTransitions c
   = match variables c !! "isJumping" with
     | Some (VBool true) =>
         Some (mkTransition "movement" "JumpUp"
                 [ mkCondition "isJumping" OpEq (VBool true) ] 0)
     | _ => None
     end) ∧
  (currentNodeId c = "JumpUp" →
   evaluateTransitions c
   = match jsmap_get JUMP_UP (animationGroups c) with
     | Some g =>
         if isPlaying g then None
         else Some (mkTransition "JumpUp" "JumpFalling" [] 0)
     | None => None
     end) ∧
  (currentNodeId c = "JumpFalling" →
   evaluateTransitions c
   = match variables c !! "isJumping" with
     | Some (VBool false) =>
         Some (mkTransition "JumpFalling" "movement"
                 [ mkCondition "isJumping" OpEq (VBool false) ] 0)
     | _ => None
     end).
Proof.
  intros Hnodes Htrans. unfold evaluateTransitions. rewrite Htrans.
  unfold ANIMATION_TRANSITIONS. rewrite !evaluateTransitionsFrom_cons.
  unfold transitionFires, transitionSatisfied, currentClipStopped,
    evaluateCondition.
  cbn [from conditions forallb variable operator value evaluateTransitionsFrom].
  rewrite Hnodes.
  split_and!; intros ->.
  - repeat (case_bool_decide; try done). cbn [andb].
    destruct (variables c !! "isJumping") as [[r | [|] |] |]; try done.
  - repeat (case_bool_decide; try done). cbn [andb].
    change (jsmap_get "JumpUp" (nodes constructed))
      with (Some (Single jumpUpNode)). cbn [single_state jumpUpNode].
    destruct (jsmap_get JUMP_UP (animationGroups c)) as [g |]; [| done].
    by destruct (isPlaying g).
  - repeat (case_bool_decide; try done). cbn [andb].
    destruct (variables c !! "isJumping") as [[r | [|] |] |]; try done.
Qed.

Lemma evaluateTransitions_on_jump_request :
  evaluateTransitions jumpRequested
  = Some (mkTransition "movement" "JumpUp"
            [ mkCondition "isJumping" OpEq (VBool true) ] 0).
Proof.
  exact (proj1 (evaluateTransitions_on_source_graph jumpRequested
                  eq_refl eq_refl) eq_refl).
Defined.

(** ** Setup *)

Lemma bindGroup_initialGroup ns gs s :
  bindGroup ns gs s = jsmap_set s (initialGroup ns s) gs.
Proof. unfold bindGroup, initialGroup. by destruct (singleNodeConfig ns s). Qed.

Lemma jsmap_get_foldl_bindGroup ns found gs s :
  jsmap_get s (foldl (bindGroup ns) gs found)
  = if decide (s ∈ found) then Some (initialGroup ns s) else jsmap_get s gs.
Proof.
  revert gs. induction found as [| a found IH]; intros gs.
  - destruct (decide (s ∈ [])) as [Hin | _]; [| done].
    by apply elem_of_nil in Hin.
  - simpl foldl. rewrite IH, bindGroup_initialGroup, jsmap_get_set.
    destruct (decide (s ∈ found)) as [Hin | Hnot].
    + rewrite (decide_True (P := s ∈ a :: found)); [done |].
      apply elem_of_cons. by right.
    + destruct (decide (s = a)) as [-> | Hne].
      * rewrite (decide_True (P := a ∈ a :: found)); [done |].
        apply elem_of_cons. by left.
      * rewrite (decide_False (P := s ∈ a :: found)); [done |].
        rewrite not_elem_of_cons. by split.
Qed.

(** X18. [setupAnimations] on a controller with no cross-fade in flight (a
    freshly constructed one): it returns; every state found in the scene is
    bound to a clip that is stopped, at weight 0, with the loop flag and
    speed of the first single node that plays it (looping at speed 1 when
    none does); the other states keep what they had; and the closing
    [playNode] on the current node is a no-op, so no clip is started, the
    initial node's included. *)
Theorem setupAnimations_binds_stopped_clips
    (c : Controller) (found : list AnimationState) :
  activeBlend c = None →
  ∃ c', setupAnimations c found = Ok c' ∧
        currentNodeId c' = currentNodeId c ∧
        activeBlend c' = None ∧
        (∀ s, s ∈ found →
              jsmap_get s (animationGroups c')
              = Some (initialGroup (nodes c) s) ∧
              clipPlaying c' s = false ∧ clipWeight c' s = 0%R) ∧
        (∀ s, s ∉ found →
              jsmap_get s (animationGroups c')
              = jsmap_get s (animationGroups c)).
Proof.
  intros Hb. unfold setupAnimations, playNode.
  rewrite decide_True by done.
  eexists. split; [done |]. split; [done |]. split; [done |].
  cbn [animationGroups with_groups]. split.
  - intros s Hs. unfold clipPlaying, clipWeight.
    cbn [animationGroups with_groups].
    rewrite jsmap_get_foldl_bindGroup, decide_True by done.
    unfold initialGroup. by destruct (singleNodeConfig (nodes c) s).
  - intros s Hs. by rewrite jsmap_get_foldl_bindGroup, decide_False.
Qed.

Lemma setupAnimations_on_constants :
  ∃ c', setupAnimations constructed allStates = Ok c' ∧
        currentNodeId c' = currentNodeId constructed ∧
        activeBlend c' = None ∧
        (∀ s, s ∈ allStates →
              jsmap_get s (animationGroups c')
              = Some (initialGroup (nodes constructed) s) ∧
              clipPlaying c' s = false ∧ clipWeight c' s = 0%R) ∧
        (∀ s, s ∉ allStates →
              jsmap_get s (animationGroups c')
              = jsmap_get s (animationGroups constructed)).
Proof.
  apply (setupAnimations_binds_stopped_clips constructed allStates).
  reflexivity.
Defined.

(** ** Which error the constructor reports *)

Lemma storeNodes_error ns acc e :
  storeNodes ns acc = inl e →
  ∃ id k, e = DuplicateNodeId id ∧ nodeIds ns !! k = Some id ∧
          (id ∈ acc.*1 ∨ ∃ j, j < k ∧ nodeIds ns !! j = Some id).
Proof.
  revert acc. induction ns as [| node rest IH]; intros acc; simpl; [done |].
  destruct (jsmap_has (node_id node) acc) eqn:Hhas.
  - intros [= <-]. exists (node_id node), 0. split_and!; [done | done |].
    left. by apply jsmap_has_true.
  - apply jsmap_has_false in Hhas. rewrite jsmap_set_fresh by done.
    intros (id & k & -> & Hk & Hwhere)%IH.
    exists id, (S k). split_and!; [done | done |].
    destruct Hwhere as [Hacc | (j & Hj & Hid)].
    + rewrite fmap_app in Hacc. apply elem_of_app in Hacc as [? | Hhere];
        [by left |].
      right. exists 0. split; [lia |]. csimpl in Hhere.
      apply elem_of_cons in Hhere as [-> | ?%elem_of_nil]; done.
    + right. exists (S j). split; [lia | done].
Qed.

Lemma validateTransitions_error stored ts e :
  validateTransitions stored ts = Some e →
  ∃ t, t ∈ ts ∧
       ((e = UnknownTransitionNode (from t) ∧ from t ∉ stored.*1) ∨
        (e = UnknownTransitionNode (to t) ∧ to t ∉ stored.*1)).
Proof.
  induction ts as [| t rest IH]; simpl; [done |].
  destruct (jsmap_has (from t) stored) eqn:Hfrom; simpl.
  - destruct (jsmap_has (to t) stored) eqn:Hto; simpl.
    + intros (t' & Hin & Hcase)%IH. exists t'. split; [| done].
      apply elem_of_cons. by right.
    + intros [= <-]. exists t. split; [apply elem_of_cons; by left |].
      right. split; [done |]. by apply jsmap_has_false.
  - intros [= <-]. exists t. split; [apply elem_of_cons; by left |].
    left. split; [done |]. by apply jsmap_has_false.
Qed.

(** X19. The error the constructor reports names a real defect, checked in
    the source's order: a [ZodError] is given exactly for arguments the
    schema rejects, and every other error only when the arguments pass; a
    duplicate-id error names an id that occurs at two positions of the node
    list; an unknown-transition-node error is given only when the ids are
    pairwise distinct and names an id, the [from] or the [to] of a listed
    transition, that no node has; an unknown-initial-node error is given
    only when ids are distinct and every transition is between known nodes,
    and names the initial id, which no node has. No other error leaves the
    constructor. *)
Theorem construct_error_names_the_defect
    (args : JsValue) (ns : list AnimationNode)
    (ts : list AnimationTransition) (initialNodeId : string) (e : Error) :
  AnimationController_constructor args ns ts initialNodeId = inl e →
  match e with
  | ZodError => argsSchema_parse args = false
  | DuplicateNodeId id =>
      argsSchema_parse args = true ∧
      ∃ j k, j < k ∧ nodeIds ns !! j = Some id ∧ nodeIds ns !! k = Some id
  | UnknownTransitionNode id =>
      argsSchema_parse args = true ∧
      NoDup (nodeIds ns) ∧ (id ∉ nodeIds ns) ∧
      (∃ t, t ∈ ts ∧ (from t = id ∨ to t = id))
  | UnknownInitialNode id =>
      argsSchema_parse args = true ∧
      NoDup (nodeIds ns) ∧
      Forall (λ t, from t ∈ nodeIds ns ∧ to t ∈ nodeIds ns) ts ∧
      id = initialNodeId ∧ initialNodeId ∉ nodeIds ns
  | _ => False
  end.
Proof.
  unfold AnimationController_constructor.
  destruct (argsSchema_parse args); [| by intros [= <-]].
  unfold construct. pose proof (storeNodes_spec ns []) as Hstore.
  destruct (storeNodes ns []) as [e0 | stored] eqn:Hs.
  - intros [= <-].
    apply storeNodes_error in Hs as (id & k & -> & Hk & [Hacc | (j & Hj & Hid)]).
    + by apply elem_of_nil in Hacc.
    + split; [done |]. by exists j, k.
  - destruct Hstore as (-> & Hnd & _). simpl app.
    destruct (validateTransitions _ ts) as [e0 |] eqn:Hval.
    + intros [= <-].
      apply validateTransitions_error in Hval as (t & Ht & Hcase).
      rewrite storeNodes_keys in Hcase.
      destruct Hcase as [[-> Hno] | [-> Hno]];
        (split_and!; [done | done | done | exists t; split; [done |]]);
        [by left | by right].
    + apply validateTransitions_None in Hval. rewrite storeNodes_keys in Hval.
      destruct (jsmap_has initialNodeId _) eqn:Hhas; simpl; [done |].
      intros [= <-]. apply jsmap_has_false in Hhas.
      rewrite storeNodes_keys in Hhas. done.
Qed.

Lemma construct_error_on_repeated_node :
  argsSchema_parse (JsObject []) = true ∧
  ∃ j k, j < k ∧ nodeIds repeatedIdNodes !! j = Some "JumpUp" ∧
         nodeIds repeatedIdNodes !! k = Some "JumpUp".
Proof.
  exact (construct_error_names_the_defect (JsObject []) repeatedIdNodes
           ANIMATION_TRANSITIONS INITIAL_NODE_ID (DuplicateNodeId "JumpUp")
           eq_refl).
Defined.

(** ** Comparators *)

Section Comparators.
Local Open Scope R_scope.

(** X20. The six comparators on a variable that is set. [!=] is the negation
    of [==], [NaN] included. Between two numbers other than [NaN], [>=] is
    the negation of [<], [<=] the negation of [>], and [==] holds exactly
    when both [>=] and [<=] do. As soon as the variable or the literal is a
    boolean or [NaN] the four order comparators are false, also between
    equal booleans; and unless both are booleans, [==] is then false and
    [!=] true, also between [NaN] and [NaN]. *)
Theorem evaluateCondition_comparator_laws
    (c : Controller) (name : string) (v lit : Value) :
  variables c !! name = Some v →
  let holds op := evaluateCondition c (mkCondition name op lit) in
  holds OpNe = negb (holds OpEq) ∧
  match v, lit with
  | VNum a, VNum b =>
      holds OpGe = negb (holds OpLt) ∧ holds OpLe = negb (holds OpGt) ∧
      holds OpEq = holds OpGe && holds OpLe ∧
      (holds OpEq = true ↔ a = b) ∧ (holds OpGt = true ↔ a > b)
  | VBool a, VBool b =>
      holds OpGt = false ∧ holds OpLt = false ∧
      holds OpGe = false ∧ holds OpLe = false ∧
      (holds OpEq = true ↔ a = b)
  | _, _ =>
      holds OpGt = false ∧ holds OpLt = false ∧
      holds OpGe = false ∧ holds OpLe = false ∧
      holds OpEq = false ∧ holds OpNe = true
  end.
Proof.
  intros Hv holds. subst holds. unfold evaluateCondition.
  cbn [variable operator value]. rewrite Hv. split; [done |].
  destruct v as [a | a |], lit as [b | b |];
    cbn [strictEq bothNumbers negb]; try done.
  - split_and!.
    + repeat case_bool_decide; try done; lra.
    + repeat case_bool_decide; try done; lra.
    + repeat case_bool_decide; try done; lra.
    + apply bool_decide_eq_true.
    + apply bool_decide_eq_true.
  - split_and!; try done. apply bool_decide_eq_true.
Qed.

Lemma evaluateCondition_comparators_on_numbers_and_NaN :
  (let holds op :=
     evaluateCondition (setVariable constructed "directionX" (VNum 1))
       (mkCondition "directionX" op (VNum 0)) in
   holds OpNe = negb (holds OpEq) ∧
   holds OpGe = negb (holds OpLt) ∧ holds OpLe = negb (holds OpGt) ∧
   holds OpEq = holds OpGe && holds OpLe ∧
   (holds OpEq = true ↔ 1 = 0) ∧ (holds OpGt = true ↔ 1 > 0)) ∧
  (let holds op :=
     evaluateCondition (setVariable constructed "directionX" VNaN)
       (mkCondition "directionX" op VNaN) in
   holds OpNe = negb (holds OpEq) ∧
   holds OpGt = false ∧ holds OpLt = false ∧
   holds OpGe = false ∧ holds OpLe = false ∧
   holds OpEq = false ∧ holds OpNe = true).
Proof.
  split.
  - exact (evaluateCondition_comparator_laws
             (setVariable constructed "directionX" (VNum 1)) "directionX"
             (VNum 1) (VNum 0) eq_refl).
  - exact (evaluateCondition_comparator_laws
             (setVariable constructed "directionX" VNaN) "directionX"
             VNaN VNaN eq_refl).
Defined.
End Comparators.

(** * The movement controller and the graph *)

(** ** Direction keys *)

Section DirectionKeys.
Import Movement.
Local Open Scope R_scope.

Lemma Vector3_length_nonneg v : 0 <= Vector3_length v.
Proof. apply sqrt_pos. Qed.

Lemma Vector3_length_sqr v :
  Vector3_length v * Vector3_length v
  = vec_x v * vec_x v + vec_y v * vec_y v + vec_z v * vec_z v.
Proof. unfold Vector3_length. apply sqrt_sqrt. nra. Qed.

Lemma Vector3_length_one v :
  vec_x v * vec_x v + vec_y v * vec_y v + vec_z v * vec_z v = 1 →
  Vector3_length v = 1.
Proof. intros H. unfold Vector3_length. rewrite H. apply sqrt_1. Qed.

Lemma Vector3_length_zero v :
  vec_x v * vec_x v + vec_y v * vec_y v + vec_z v * vec_z v = 0 →
  Vector3_length v = 0.
Proof. intros H. unfold Vector3_length. rewrite H. apply sqrt_0. Qed.

(** A vector longer than 1 is scaled to length 1, each component keeping
    its sign. *)
Lemma Vector3_normalize_long v :
  Vector3_length v > 1 →
  Vector3_normalize v = scaleInPlace v (1 / Vector3_length v)
  ∧ Vector3_length (Vector3_normalize v) = 1.
Proof.
  intros Hlen. unfold Vector3_normalize. cbv zeta.
  rewrite decide_False by lra. split; [done |].
  apply Vector3_length_one. cbn [scaleInPlace vec_x vec_y vec_z].
  pose proof (Vector3_length_sqr v) as Hsq.
  set (l := Vector3_length v) in *.
  assert (1 / l * l = 1) as Hinv by (field; lra).
  transitivity ((1 / l) * (1 / l)
                * (vec_x v * vec_x v + vec_y v * vec_y v + vec_z v * vec_z v));
    [ring |].
  rewrite <- Hsq. nra.
Qed.

(** The direction before normalisation: one unit per axis key, opposite
    keys cancelling. *)
Lemma updateDirectionalInput_direction m :
  let axis (neg pos : bool) := (if pos then 1 else 0) - (if neg then 1 else 0) in
  let raw :=
    mkVector3 (axis (leftKey m) (rightKey m)) 0
      (axis (forwardKey m) (backwardKey m)) in
  inputDirection (updateDirectionalInput m)
  = if decide (Vector3_length raw > 1) then Vector3_normalize raw else raw.
Proof.
  intros axis raw. unfold updateDirectionalInput. cbv zeta.
  cbn [inputDirection].
  fold (forwardKey m) (backwardKey m) (leftKey m) (rightKey m).
  match goal with
  | |- (if decide (Vector3_length ?d > 1) then _ else _) = _ =>
      replace d with raw; [done |]
  end.
  subst raw axis. cbv beta.
  destruct (forwardKey m), (backwardKey m), (leftKey m), (rightKey m);
    unfold setAll; cbn [vec_x vec_y vec_z]; f_equal; lra.
Qed.

Lemma direction_after_normalising raw :
  let d := if decide (Vector3_length raw > 1)
           then Vector3_normalize raw else raw in
  let sq := vec_x raw * vec_x raw + vec_y raw * vec_y raw
            + vec_z raw * vec_z raw in
  (sq = 0 → d = raw ∧ Vector3_length d = 0) ∧
  (sq = 1 → d = raw ∧ Vector3_length d = 1) ∧
  (sq = 2 →
   d = scaleInPlace raw (1 / Vector3_length raw)
   ∧ Vector3_length d = 1 ∧ 0 < 1 / Vector3_length raw).
Proof.
  intros d sq. subst d.
  split_and!; intros Hsq.
  - pose proof (Vector3_length_zero raw Hsq) as Hl.
    rewrite decide_False by lra. done.
  - pose proof (Vector3_length_one raw Hsq) as Hl.
    rewrite decide_False by lra. done.
  - assert (Vector3_length raw > 1) as Hl.
    { pose proof (Vector3_length_sqr raw) as Hl.
      pose proof (Vector3_length_nonneg raw). fold sq in Hl. nra. }
    rewrite decide_True by done.
    destruct (Vector3_normalize_long raw Hl) as [-> Hone].
    split_and!; [done | | apply Rdiv_lt_0_compat; lra].
    by destruct (Vector3_normalize_long raw Hl) as [<- ?].
Qed.

(** In exact arithmetic the direction is the zero vector or a unit vector,
    with the signs the keys give it. *)
Lemma updateDirectionalInput_in_exact_arithmetic (m : MovementController) :
  let d := inputDirection (updateDirectionalInput m) in
  vec_y d = 0 ∧
  (Vector3_length d = 0 ∨ Vector3_length d = 1) ∧
  (Vector3_length d = 0
   ↔ forwardKey m = backwardKey m ∧ leftKey m = rightKey m) ∧
  (vec_z d < 0 ↔ forwardKey m = true ∧ backwardKey m = false) ∧
  (0 < vec_z d ↔ backwardKey m = true ∧ forwardKey m = false) ∧
  (vec_x d < 0 ↔ leftKey m = true ∧ rightKey m = false) ∧
  (0 < vec_x d ↔ rightKey m = true ∧ leftKey m = false).
Proof.
  intros d. subst d. rewrite updateDirectionalInput_direction. cbv zeta.
  match goal with
  | |- context [Vector3_normalize ?r] =>
      destruct (direction_after_normalising r) as (H0 & H1 & H2)
  end.
  cbn [vec_x vec_y vec_z] in H0, H1, H2.
  destruct (forwardKey m), (backwardKey m), (leftKey m), (rightKey m);
    first
      [ destruct H0 as [-> ->]; [lra |]
      | destruct H1 as [-> ->]; [lra |]
      | destruct H2 as (-> & -> & Hpos); [lra |];
        set (k := 1 / Vector3_length _) in * ];
    cbn [scaleInPlace vec_x vec_y vec_z];
    (split_and!;
     [ lra
     | first [by left | by right]
     | split; [intros ?; first [by split | exfalso; lra]
              | intros [? ?]; first [discriminate | lra]]
     | split; [intros ?; first [by split | exfalso; nra]
              | intros [? ?]; first [discriminate | nra]] .. ]).
Qed.

(** X21. Whatever keys are down, [updateDirectionalInput] leaves a
    horizontal direction of length at most 1, so a diagonal is no faster
    than a straight line. It is zero exactly when the keys of each axis are
    both down or both up, and a unit vector when only one axis is active;
    the forward key moves it towards negative [z], the backward key towards
    positive [z], the left key towards negative [x] and the right key
    towards positive [x], opposite keys cancelling. In binary64 the same
    holds for each of the sixteen key combinations, a diagonal coming out
    with length [0.9999999999999999]. *)
Theorem updateDirectionalInput_at_most_unit (m : MovementController) :
  (let d := inputDirection (updateDirectionalInput m) in
   vec_y d = 0 ∧
   Vector3_length d <= 1 ∧
   (Vector3_length d = 0
    ↔ forwardKey m = backwardKey m ∧ leftKey m = rightKey m) ∧
   (forwardKey m = backwardKey m ∨ leftKey m = rightKey m →
    Vector3_length d = 0 ∨ Vector3_length d = 1) ∧
   (vec_z d < 0 ↔ forwardKey m = true ∧ backwardKey m = false) ∧
   (0 < vec_z d ↔ backwardKey m = true ∧ forwardKey m = false) ∧
   (vec_x d < 0 ↔ leftKey m = true ∧ rightKey m = false) ∧
   (0 < vec_x d ↔ rightKey m = true ∧ leftKey m = false)) ∧
  (∀ forward backward left right : bool,
     let d := Binary64.updateDirectionalInput forward backward left right in
     let len := Binary64.Vector3_length d in
     Binary64.vec_y d = 0%float ∧
     (len <=? 1)%float = true ∧
     (len = 0%float ↔ forward = backward ∧ left = right) ∧
     (forward = backward ∨ left = right → len = 0%float ∨ len = 1%float) ∧
     (forward ≠ backward → left ≠ right → len = 0.9999999999999999%float) ∧
     (Binary64.vec_z d <? 0)%float = forward && negb backward ∧
     (0 <? Binary64.vec_z d)%float = backward && negb forward ∧
     (Binary64.vec_x d <? 0)%float = left && negb right ∧
     (0 <? Binary64.vec_x d)%float = right && negb left).
Proof.
  split.
  - destruct (updateDirectionalInput_in_exact_arithmetic m)
      as (Hy & Hlen & Hzero & Hz1 & Hz2 & Hx1 & Hx2).
    cbv zeta. split_and!; try done.
    destruct Hlen as [-> | ->]; lra.
  - intros [] [] [] []; cbv zeta; split_and!;
      try (vm_compute; reflexivity);
      try (intros ? ?; first [done | vm_compute; reflexivity]);
      try (intros [? | ?]; first [done
                                  | left; vm_compute; reflexivity
                                  | right; vm_compute; reflexivity]);
      (split; [ intros Hlen; first [by split | vm_compute in Hlen;
                                               discriminate Hlen]
              | intros [? ?]; first [done | vm_compute; reflexivity] ]).
Qed.

Lemma updateDirectionalInput_on_a_diagonal :
  let m := mkMovement ON_GROUND true {[ "KeyW"; "KeyD" ]} (setAll 0)
             false false false None in
  Vector3_length (inputDirection (updateDirectionalInput m)) <= 1 ∧
  Binary64.Vector3_length (Binary64.updateDirectionalInput true false false true)
  = 0.9999999999999999%float.
Proof.
  intros m.
  destruct (updateDirectionalInput_at_most_unit m)
    as [(_ & Hlen & _) Hfloat].
  split; [exact Hlen |].
  destruct (Hfloat true false false true) as (_ & _ & _ & _ & Hdiag & _).
  apply Hdiag; discriminate.
Defined.

End DirectionKeys.

(** ** Jump requests *)

Section JumpRequests.
Import Movement.
Local Open Scope R_scope.

Lemma updateAnimation_fields m :
  state (updateAnimation m) = state m
  ∧ hasHit (updateAnimation m) = hasHit m
  ∧ pressedKeys (updateAnimation m) = pressedKeys m
  ∧ inputDirection (updateAnimation m) = inputDirection m
  ∧ inputRun (updateAnimation m) = inputRun m
  ∧ inputJump (updateAnimation m) = inputJump m
  ∧ jumpRequested (updateAnimation m) = jumpRequested m.
Proof. unfold updateAnimation. by destruct (animationController m). Qed.

Lemma physicsUpdate_gameplay m dt supported hit :
  dt ≠ 0 →
  let m' := physicsUpdate m dt true supported hit in
  state m' = state (enterNextState m supported)
  ∧ hasHit m' = hit
  ∧ inputJump m' = inputJump (enterNextState m supported)
  ∧ jumpRequested m' = jumpRequested (enterNextState m supported).
Proof.
  intros Hdt m'. subst m'. unfold physicsUpdate.
  rewrite decide_False by done. cbn [negb].
  match goal with
  | |- context [updateAnimation ?a] =>
      destruct (updateAnimation_fields a) as (-> & -> & _ & _ & _ & -> & ->)
  end.
  done.
Qed.

Lemma enterNextState_cases m supported :
  let m' := enterNextState m supported in
  inputJump m' = inputJump m
  ∧ state m' = getNextState m supported
  ∧ jumpRequested m'
    = (if decide (getNextState m supported = START_JUMP) then false
       else jumpRequested m).
Proof.
  intros m'. subst m'. unfold enterNextState. cbv zeta.
  case_decide as Hne; cbn [inputJump state jumpRequested]; [done |].
  rewrite Hne.
  split_and!; [done | done |].
  case_decide as Hs; [| done].
  unfold getNextState in Hne. rewrite Hs in Hne.
  by destruct supported, (jumpRequested m).
Qed.

Lemma keyEvent_fields m e :
  state (keyEvent m e) = state m
  ∧ (jumpRequested m = true → jumpRequested (keyEvent m e) = true)
  ∧ (inputJump m = true → e ≠ KeyUp "Space" →
     inputJump (keyEvent m e) = true
     ∧ jumpRequested (keyEvent m e) = jumpRequested m).
Proof.
  destruct e as [code | code]; cbn [keyEvent]; unfold onKeyDown, onKeyUp,
    updateDirectionalInput; cbv zeta; cbn [state jumpRequested inputJump].
  - split_and!; [done | |].
    + intros ->. by case_match.
    + intros -> _. rewrite andb_false_r. done.
  - split_and!; [done | done |].
    intros -> Hne. rewrite bool_decide_eq_false_2; [done |].
    intros ->. by apply Hne.
Qed.

(** X22. In gameplay mode a pending jump request is never dropped: through
    any sequence of key events and physics steps, [jumpRequested] goes from
    true to false only after a step that entered [START_JUMP]. *)
Theorem jump_request_is_cleared_only_by_a_jump
    (m : MovementController) (evs : list Event) :
  Forall gameplayEvent evs →
  jumpRequested m = true →
  jumpRequested (foldl handle m evs) = false →
  ∃ n, (n ≤ length evs)%nat
       ∧ state (foldl handle m (take n evs)) = START_JUMP
       ∧ jumpRequested (foldl handle m (take n evs)) = false.
Proof.
  intros Hevs. revert m.
  induction Hevs as [| ev evs Hev _ IH]; intros m Hreq Hend.
  { simpl in Hend. congruence. }
  cbn [foldl] in Hend.
  destruct (jumpRequested (handle m ev)) eqn:Hstep.
  - destruct (IH _ Hstep Hend) as (n & Hn & Hstate & Hoff).
    exists (S n). cbn [length take foldl]. split_and!; [lia | done | done].
  - exists 1%nat. cbn [length take foldl]. rewrite take_0. cbn [foldl].
    split_and!; [lia | | done].
    destruct ev as [e | dt gameplay supported hit]; cbn [handle] in *.
    + destruct (keyEvent_fields m e) as (_ & Hkeep & _).
      rewrite Hkeep in Hstep; [discriminate | done].
    + cbn [gameplayEvent] in Hev. subst gameplay.
      destruct (decide (dt = 0)) as [Hdt | Hdt].
      { unfold physicsUpdate in Hstep. rewrite decide_True in Hstep by done.
        congruence. }
      destruct (physicsUpdate_gameplay m dt supported hit Hdt)
        as (Hs & _ & _ & Hj).
      destruct (enterNextState_cases m supported) as (_ & Hs' & Hj').
      rewrite Hs, Hs'. rewrite Hj, Hj' in Hstep.
      case_decide; [done | congruence].
Qed.

Lemma jump_request_survives_key_release :
  let m := mkMovement ON_GROUND true ∅ (setAll 0) false true true None in
  let evs := [ Key (KeyUp "Space"); Physics 1 true true false ] in
  Forall gameplayEvent evs
  ∧ jumpRequested m = true
  ∧ jumpRequested (foldl handle m evs) = false
  ∧ ∃ n, (n ≤ length evs)%nat
         ∧ state (foldl handle m (take n evs)) = START_JUMP
         ∧ jumpRequested (foldl handle m (take n evs)) = false.
Proof.
  intros m evs.
  assert (Forall gameplayEvent evs) as Hevs by (repeat constructor).
  assert (jumpRequested (foldl handle m evs) = false) as Hend.
  { assert (1 ≠ 0) as Hdt by lra.
    subst m evs. cbn [foldl handle keyEvent].
    rewrite (proj2 (proj2 (proj2
               (physicsUpdate_gameplay _ 1 true false Hdt)))).
    reflexivity. }
  split_and!; [done | done | done |].
  exact (jump_request_is_cleared_only_by_a_jump m evs Hevs eq_refl Hend).
Defined.

(** X23. A jump requested at any moment is performed once the character
    stands: with [jumpRequested] set, at most three consecutive supported
    physics steps in gameplay mode reach [START_JUMP], whatever the state
    was, and entering it consumes the request. *)
Theorem requested_jump_starts_within_three_supported_steps
    (m : MovementController) (dt : R) (h1 h2 h3 : bool) :
  dt ≠ 0 →
  jumpRequested m = true →
  let step m hit := physicsUpdate m dt true true hit in
  ∃ n, (1 ≤ n ≤ 3)%nat ∧
       let m' := foldl step m (take n [h1; h2; h3]) in
       state m' = START_JUMP ∧ jumpRequested m' = false.
Proof.
  intros Hdt Hreq step.
  assert (Hstep : ∀ m hit,
    state (step m hit) = getNextState m true
    ∧ jumpRequested (step m hit)
      = if decide (getNextState m true = START_JUMP) then false
        else jumpRequested m).
  { intros m0 hit. subst step. cbv beta.
    destruct (physicsUpdate_gameplay m0 dt true hit Hdt) as (-> & _ & _ & ->).
    destruct (enterNextState_cases m0 true) as (_ & -> & ->). done. }
  destruct (state m) eqn:Hstate.
  - exists 2%nat. split; [lia |]. cbn [take foldl].
    destruct (Hstep m h1) as [Hs1 Hj1].
    unfold getNextState in Hs1, Hj1. rewrite Hstate in Hs1, Hj1.
    rewrite decide_False in Hj1 by done.
    destruct (Hstep (step m h1) h2) as [Hs2 Hj2].
    unfold getNextState in Hs2, Hj2. rewrite Hs1, Hj1, Hreq in Hs2, Hj2.
    done.
  - exists 1%nat. split; [lia |]. cbn [take foldl].
    destruct (Hstep m h1) as [Hs1 Hj1].
    unfold getNextState in Hs1, Hj1. rewrite Hstate, Hreq in Hs1, Hj1.
    done.
  - exists 3%nat. split; [lia |]. cbn [take foldl].
    destruct (Hstep m h1) as [Hs1 Hj1].
    unfold getNextState in Hs1, Hj1. rewrite Hstate in Hs1, Hj1.
    rewrite decide_False in Hj1 by done.
    destruct (Hstep (step m h1) h2) as [Hs2 Hj2].
    unfold getNextState in Hs2, Hj2. rewrite Hs1 in Hs2, Hj2.
    rewrite decide_False in Hj2 by done.
    destruct (Hstep (step (step m h1) h2) h3) as [Hs3 Hj3].
    unfold getNextState in Hs3, Hj3. rewrite Hs2, Hj2, Hj1, Hreq in Hs3, Hj3.
    done.
Qed.

Lemma requested_jump_starts_from_the_air :
  let m := mkMovement IN_AIR false ∅ (setAll 0) false true true None in
  let step m hit := physicsUpdate m 1 true true hit in
  ∃ n, (1 ≤ n ≤ 3)%nat ∧
       let m' := foldl step m (take n [true; true; true]) in
       state m' = START_JUMP ∧ jumpRequested m' = false.
Proof.
  intros m.
  apply (requested_jump_starts_within_three_supported_steps m 1
           true true true); [lra | reflexivity].
Defined.

(** X24. Holding the space bar requests one jump. While [inputJump] is set,
    no sequence of key events without a release of [Space] changes
    [jumpRequested], so key repeat cannot request a second jump after the
    first was consumed; the first press after a release requests one. *)
Theorem held_space_requests_no_second_jump
    (m : MovementController) (es : list KeyEvent) :
  inputJump m = true →
  KeyUp "Space" ∉ es →
  let m' := foldl keyEvent m es in
  inputJump m' = true
  ∧ jumpRequested m' = jumpRequested m
  ∧ jumpRequested (onKeyDown (onKeyUp m' "Space") "Space") = true.
Proof.
  revert m. induction es as [| e es IH]; intros m Hheld Hno m'; subst m'.
  - cbn [foldl]. split_and!; [done | done |].
    unfold onKeyDown. cbv zeta. unfold updateDirectionalInput at 1. cbv zeta.
    cbn [jumpRequested]. unfold onKeyUp at 1. cbv zeta.
    unfold updateDirectionalInput at 1. cbv zeta. cbn [inputJump].
    rewrite (bool_decide_eq_true_2 ("Space" = "Space")) by reflexivity.
    reflexivity.
  - cbn [foldl]. apply not_elem_of_cons in Hno as [Hne Hno].
    destruct (keyEvent_fields m e) as (_ & _ & Hkeep).
    destruct (Hkeep Hheld (not_eq_sym Hne)) as [Hheld' Hsame].
    destruct (IH (keyEvent m e) Hheld' Hno) as (H1 & H2 & H3).
    split_and!; [done | congruence | done].
Qed.

Lemma held_space_with_key_repeat :
  let m := mkMovement ON_GROUND true {[ "Space" ]} (setAll 0)
             false true false None in
  let m' := foldl keyEvent m [ KeyDown "Space"; KeyDown "KeyW";
                               KeyDown "Space"; KeyUp "KeyW" ] in
  inputJump m' = true
  ∧ jumpRequested m' = jumpRequested m
  ∧ jumpRequested (onKeyDown (onKeyUp m' "Space") "Space") = true.
Proof.
  intros m.
  apply (held_space_requests_no_second_jump m); [reflexivity |].
  intros Hin. repeat (apply elem_of_cons in Hin as [Hin | Hin];
                      [discriminate Hin |]).
  by apply elem_of_nil in Hin.
Defined.

End JumpRequests.

(** ** The variables the movement controller writes *)

Section MovementVariables.
Import Movement.
Local Open Scope R_scope.

(** [updateAnimation] with a controller attached: the three variables it
    writes, and everything it leaves alone. *)
Lemma updateAnimation_attached m c :
  animationController m = Some c →
  ∃ c', animationController (updateAnimation m) = Some c'
    ∧ c' = with_variables c (variables c')
    ∧ variables c' !! "isJumping"
      = Some (VBool (airborne m && negb (hasHit m)))
    ∧ inputX c' = vec_x (inputDirection m) * (if inputRun m then 2 else 1)
    ∧ inputZ c' = vec_z (inputDirection m) * (if inputRun m then 2 else 1)
    ∧ ∀ name, name ∉ ["isJumping"; "directionX"; "directionZ"] →
              variables c' !! name = variables c !! name.
Proof.
  intros Hc. unfold updateAnimation. rewrite Hc. cbv zeta.
  eexists. split; [reflexivity |].
  unfold inputX, inputZ, setVariable, with_variables.
  cbn [variables currentNodeId nodes animationGroups activeBlend blendWeights
       transitions].
  split_and!.
  - done.
  - do 2 (rewrite lookup_insert_ne by done). by rewrite lookup_insert_eq.
  - rewrite lookup_insert_ne by done. by rewrite lookup_insert_eq.
  - by rewrite lookup_insert_eq.
  - intros name Hname.
    rewrite !lookup_insert_ne; [done | | |];
      intros <-; apply Hname; repeat constructor.
Qed.

(** The squared length of the direction the key handlers leave. *)
Lemma updateDirectionalInput_sq m :
  let d := inputDirection (updateDirectionalInput m) in
  vec_x d * vec_x d + vec_z d * vec_z d
  = if decide (forwardKey m = backwardKey m ∧ leftKey m = rightKey m)
    then 0 else 1.
Proof.
  intros d. subst d. rewrite updateDirectionalInput_direction. cbv zeta.
  match goal with
  | |- context [Vector3_normalize ?r] =>
      destruct (direction_after_normalising r) as (H0 & H1 & H2)
  end.
  cbn [vec_x vec_y vec_z] in H0, H1, H2.
  destruct (forwardKey m), (backwardKey m), (leftKey m), (rightKey m);
    first
      [ destruct H0 as [Heq Hl]; [lra |]
      | destruct H1 as [Heq Hl]; [lra |]
      | destruct H2 as (Heq & Hl & Hpos); [lra |] ];
    match type of Hl with
    | Vector3_length ?d = _ =>
        pose proof (Vector3_length_sqr d) as Hsq;
        assert (vec_y d = 0) as Hy
          by (rewrite Heq; cbn [scaleInPlace vec_y]; lra);
        rewrite Hl, Hy in Hsq
    end;
    (destruct (decide (_ = _ ∧ _ = _)) as [Hkeys | Hkeys];
     [ try (destruct Hkeys; discriminate)
     | try (exfalso; apply Hkeys; by split) ]);
    lra.
Qed.

(** X25. With a controller attached, [updateDirectionalInput] (the last
    step of either key handler) followed by [updateAnimation] leaves the
    blend input within the disc of radius 1 (walking) or of radius 2 (a run
    key down): at the origin exactly when the keys of each axis are both
    down or both up, and on the circle when only one axis is active. It
    stores a boolean in [isJumping], true exactly when the state is
    [START_JUMP] or [IN_AIR] and the downward ray found no ground; and it
    changes nothing of the controller but these three variables. *)
Theorem input_point_lies_in_walk_or_run_disc
    (m : MovementController) (c : Controller) :
  animationController m = Some c →
  ∃ c', animationController (updateAnimation (updateDirectionalInput m))
        = Some c'
    ∧ c' = with_variables c (variables c')
    ∧ getVariable c' "isJumping"
      = Some (VBool (airborne m && negb (hasHit m)))
    ∧ (let r := if runKey m then 2 else 1 in
       let sq := inputX c' * inputX c' + inputZ c' * inputZ c' in
       sq <= r * r ∧
       (sq = 0 ↔ forwardKey m = backwardKey m ∧ leftKey m = rightKey m) ∧
       (forwardKey m ≠ backwardKey m → leftKey m = rightKey m →
        sq = r * r) ∧
       (forwardKey m = backwardKey m → leftKey m ≠ rightKey m →
        sq = r * r))
    ∧ ∀ name, name ∉ ["isJumping"; "directionX"; "directionZ"] →
              getVariable c' name = getVariable c name.
Proof.
  intros Hc.
  destruct (updateAnimation_attached (updateDirectionalInput m) c Hc)
    as (c' & Hc' & Hrest & Hjump & Hx & Hz & Hother).
  exists c'. split_and!; [done | done | done | | done].
  pose proof (updateDirectionalInput_sq m) as Hsq. cbv zeta in Hsq.
  cbv zeta. rewrite Hx, Hz.
  change (inputRun (updateDirectionalInput m)) with (runKey m).
  set (d := inputDirection (updateDirectionalInput m)) in *.
  destruct (decide (forwardKey m = backwardKey m ∧ leftKey m = rightKey m))
    as [[Hfb Hlr] | Hkeys].
  - split_and!.
    + destruct (runKey m); nra.
    + split; [done |]. intros _. destruct (runKey m); nra.
    + intros Hne _. by destruct Hne.
    + intros _ Hne. by destruct Hne.
  - split_and!.
    + destruct (runKey m); nra.
    + split; [| by intros ?]. intros H0. exfalso. destruct (runKey m); nra.
    + intros _ _. destruct (runKey m); nra.
    + intros _ _. destruct (runKey m); nra.
Qed.

Lemma input_point_with_forward_key :
  let m := mkMovement ON_GROUND true {[ "KeyW" ]} (setAll 0)
             false false false (Some constructed) in
  ∃ c', animationController (updateAnimation (updateDirectionalInput m))
        = Some c'
    ∧ getVariable c' "isJumping" = Some (VBool false)
    ∧ inputX c' * inputX c' + inputZ c' * inputZ c' = 1 * 1.
Proof.
  intros m.
  destruct (input_point_lies_in_walk_or_run_disc m constructed eq_refl)
    as (c' & Hc' & _ & Hjump & (_ & _ & Haxis & _) & _).
  exists c'. split_and!; [exact Hc' | exact Hjump |].
  apply Haxis; [discriminate | reflexivity].
Defined.

(** The evaluator on the source's graph once [isJumping] holds a boolean. *)
Lemma evaluateTransitions_with_isJumping c (b : bool) :
  nodes c = nodes constructed →
  transitions c = ANIMATION_TRANSITIONS →
  variables c !! "isJumping" = Some (VBool b) →
  (currentNodeId c = "movement" →
   evaluateTransitions c
   = if b then Some (mkTransition "movement" "JumpUp"
                       [ mkCondition "isJumping" OpEq (VBool true) ] 0)
     else None) ∧
  (currentNodeId c = "JumpFalling" →
   evaluateTransitions c
   = if b then None
     else Some (mkTransition "JumpFalling" "movement"
                  [ mkCondition "isJumping" OpEq (VBool false) ] 0)).
Proof.
  intros Hnodes Htrans Hvar. unfold evaluateTransitions. rewrite Htrans.
  unfold ANIMATION_TRANSITIONS. rewrite !evaluateTransitionsFrom_cons.
  unfold transitionFires, transitionSatisfied, currentClipStopped,
    evaluateCondition.
  cbn [from conditions forallb variable operator value evaluateTransitionsFrom].
  rewrite Hnodes, Hvar.
  split; intros ->.
  - repeat (case_bool_decide; try done). cbn [andb]. by destruct b.
  - repeat (case_bool_decide; try done). cbn [andb]. by destruct b.
Qed.

(** X26. Every physics step with a non-zero frame time leaves the source's
    graph with a decided jump flag: afterwards the evaluator leaves
    [movement] for [JumpUp] exactly when the character is in [START_JUMP] or
    [IN_AIR] and the downward ray found no ground, and leaves [JumpFalling]
    for [movement] exactly when it is not. The step does not move the
    controller's current node itself. *)
Theorem physicsUpdate_drives_source_graph
    (m : MovementController) (c : Controller) (dt : R)
    (gameplay supported hit : bool) :
  dt ≠ 0 →
  animationController m = Some c →
  nodes c = nodes constructed →
  transitions c = ANIMATION_TRANSITIONS →
  let m' := physicsUpdate m dt gameplay supported hit in
  let jumping := airborne m' && negb (hasHit m') in
  ∃ c', animationController m' = Some c'
    ∧ currentNodeId c' = currentNodeId c
    ∧ (currentNodeId c = "movement" →
       evaluateTransitions c'
       = if jumping
         then Some (mkTransition "movement" "JumpUp"
                      [ mkCondition "isJumping" OpEq (VBool true) ] 0)
         else None)
    ∧ (currentNodeId c = "JumpFalling" →
       evaluateTransitions c'
       = if jumping then None
         else Some (mkTransition "JumpFalling" "movement"
                      [ mkCondition "isJumping" OpEq (VBool false) ] 0)).
Proof.
  intros Hdt Hc Hnodes Htrans m' jumping. subst jumping m'.
  unfold physicsUpdate. rewrite decide_False by done.
  match goal with
  | |- context [animationController (if negb gameplay
                                     then updateAnimation ?a
                                     else updateAnimation ?b)] =>
      set (m1 := a); set (m2 := b);
      assert (∃ m0, (if negb gameplay then updateAnimation m1
                     else updateAnimation m2) = updateAnimation m0
                    ∧ animationController m0 = Some c) as (m0 & -> & Hc0)
  end.
  { destruct gameplay; cbn [negb].
    - exists m2. split; [done |]. subst m2. cbn [animationController].
      unfold enterNextState. cbv zeta. by case_decide.
    - by exists m1. }
  clear m1 m2.
  destruct (updateAnimation_attached m0 c Hc0)
    as (c' & Hc' & Hrest & Hjump & _ & _ & _).
  destruct (updateAnimation_fields m0) as (Hs & Hh & _).
  unfold airborne. rewrite Hs, Hh. fold (airborne m0).
  exists c'. split; [done |].
  assert (currentNodeId c' = currentNodeId c) as Hid by (by rewrite Hrest).
  split; [done |].
  rewrite <- Hid.
  apply evaluateTransitions_with_isJumping; [| | done].
  - rewrite Hrest. done.
  - rewrite Hrest. done.
Qed.

Lemma physicsUpdate_drives_source_graph_on_take_off :
  let m := mkMovement START_JUMP false ∅ (setAll 0) false true false
             (Some constructed) in
  let m' := physicsUpdate m 1 true false false in
  let jumping := airborne m' && negb (hasHit m') in
  ∃ c', animationController m' = Some c'
    ∧ currentNodeId c' = currentNodeId constructed
    ∧ (currentNodeId constructed = "movement" →
       evaluateTransitions c'
       = if jumping
         then Some (mkTransition "movement" "JumpUp"
                      [ mkCondition "isJumping" OpEq (VBool true) ] 0)
         else None)
    ∧ (currentNodeId constructed = "JumpFalling" →
       evaluateTransitions c'
       = if jumping then None
         else Some (mkTransition "JumpFalling" "movement"
                      [ mkCondition "isJumping" OpEq (VBool false) ] 0)).
Proof.
  intros m.
  assert (1 ≠ 0) as Hdt by lra.
  exact (physicsUpdate_drives_source_graph m constructed 1 true false false
           Hdt eq_refl eq_refl eq_refl).
Defined.

End MovementVariables.

(** ** Keys and clips *)

Section KeysAndClips.
Import Movement.
Local Open Scope R_scope.

(** In the source's movement node the sample at the input point has
    strictly the largest weight. *)
Lemma movement_sample_strictly_largest c a :
  a ∈ animations movementNode →
  inputX c = position_x a → inputZ c = position_z a →
  strictlyLargestWeight c movementNode (sample_state a).
Proof.
  intros Ha Hx Hz. unfold strictlyLargestWeight. cbv zeta.
  intros s' (b & -> & Hb)%list_elem_of_fmap Hne.
  assert (Hnd : NoDup (sample_state <$> animations movementNode))
    by compute_done.
  rewrite updateBlendNodeWeights_blendWeights, Hx, Hz.
  rewrite !blendWeightOrZero_distinct by done.
  assert (0 < totalRawWeight (position_x a) (position_z a)
                (animations movementNode)) as Htot
    by (by apply totalRawWeight_pos).
  assert (rawWeight (position_x a) (position_z a) b < 1 / 0.001) as Hlt.
  { apply rawWeight_away. intros Heq.
    apply list_elem_of_lookup in Ha as [i Hi].
    apply list_elem_of_lookup in Hb as [j Hj].
    destruct (decide (j = i)) as [-> | Hij].
    - rewrite Hi in Hj. injection Hj as <-. by apply Hne.
    - by apply (movementNode_positions i j a b Hi Hj). }
  rewrite rawWeight_at_position.
  unfold Rdiv at 1 3. apply Rmult_lt_compat_r; [| done].
  by apply Rinv_0_lt_compat.
Qed.

(** The direction a single axis key, or none, leaves. *)
Lemma updateDirectionalInput_axis m :
  forwardKey m && backwardKey m = false →
  leftKey m && rightKey m = false →
  (forwardKey m || backwardKey m) && (leftKey m || rightKey m) = false →
  let axis (neg pos : bool) := (if pos then 1 else 0) - (if neg then 1 else 0) in
  inputDirection (updateDirectionalInput m)
  = mkVector3 (axis (leftKey m) (rightKey m)) 0
      (axis (forwardKey m) (backwardKey m)).
Proof.
  intros Hz Hx Hxz axis. rewrite updateDirectionalInput_direction. cbv zeta.
  subst axis. cbv beta.
  match goal with
  | |- context [Vector3_normalize ?r] =>
      destruct (direction_after_normalising r) as (H0 & H1 & _)
  end.
  cbn [vec_x vec_y vec_z] in H0, H1.
  destruct (forwardKey m), (backwardKey m), (leftKey m), (rightKey m);
    try discriminate;
    first [ by destruct H0 as [-> _]; [lra |]
          | by destruct H1 as [-> _]; [lra |] ].
Qed.

(** X27. Which clip of the source's movement node a single direction key
    makes the heaviest, after [updateDirectionalInput], [updateAnimation]
    and the controller's weight update: the forward key the backward clip, the
    backward key the forward clip, the left key the left clip, the right key
    the right clip, the walking one without a run key and the running one
    with it; with no direction key the idle clip. *)
Theorem single_direction_key_selects_a_sample
    (m : MovementController) (c : Controller) :
  animationController m = Some c →
  ∃ c', animationController (updateAnimation (updateDirectionalInput m))
        = Some c' ∧
    let keys := (forwardKey m, backwardKey m, leftKey m, rightKey m) in
    let largest (walk run : AnimationState) :=
      strictlyLargestWeight c' movementNode (if runKey m then run else walk) in
    (keys = (true, false, false, false) → largest WALK_BACKWARD RUN_BACKWARD) ∧
    (keys = (false, true, false, false) → largest WALK_FORWARD RUN_FORWARD) ∧
    (keys = (false, false, true, false) → largest WALK_LEFT RUN_LEFT) ∧
    (keys = (false, false, false, true) → largest WALK_RIGHT RUN_RIGHT) ∧
    (keys = (false, false, false, false) → largest IDLE IDLE).
Proof.
  intros Hc.
  destruct (updateAnimation_attached (updateDirectionalInput m) c Hc)
    as (c' & Hc' & _ & _ & Hx & Hz & _).
  exists c'. split; [done |]. cbv zeta.
  change (inputRun (updateDirectionalInput m)) with (runKey m) in Hx, Hz.
  assert (Hsel : ∀ a, a ∈ animations movementNode →
            vec_x (inputDirection (updateDirectionalInput m))
            * (if runKey m then 2 else 1) = position_x a →
            vec_z (inputDirection (updateDirectionalInput m))
            * (if runKey m then 2 else 1) = position_z a →
            strictlyLargestWeight c' movementNode (sample_state a)).
  { intros a Ha Hax Haz. apply movement_sample_strictly_largest; [done | |];
      congruence. }
  split_and!; intros [= Hf Hb Hl Hr];
    (rewrite updateDirectionalInput_axis in Hsel
       by (by rewrite ?Hf, ?Hb, ?Hl, ?Hr));
    rewrite Hf, Hb, Hl, Hr in Hsel; cbn [vec_x vec_z] in Hsel;
    destruct (runKey m).
  - apply (Hsel (mkSample RUN_BACKWARD 0 (-2)));
      [in_list | simpl; lra | simpl; lra].
  - apply (Hsel (mkSample WALK_BACKWARD 0 (-1)));
      [in_list | simpl; lra | simpl; lra].
  - apply (Hsel (mkSample RUN_FORWARD 0 2));
      [in_list | simpl; lra | simpl; lra].
  - apply (Hsel (mkSample WALK_FORWARD 0 1));
      [in_list | simpl; lra | simpl; lra].
  - apply (Hsel (mkSample RUN_LEFT (-2) 0));
      [in_list | simpl; lra | simpl; lra].
  - apply (Hsel (mkSample WALK_LEFT (-1) 0));
      [in_list | simpl; lra | simpl; lra].
  - apply (Hsel (mkSample RUN_RIGHT 2 0));
      [in_list | simpl; lra | simpl; lra].
  - apply (Hsel (mkSample WALK_RIGHT 1 0));
      [in_list | simpl; lra | simpl; lra].
  - apply (Hsel (mkSample IDLE 0 0));
      [in_list | simpl; lra | simpl; lra].
  - apply (Hsel (mkSample IDLE 0 0));
      [in_list | simpl; lra | simpl; lra].
Qed.

Lemma forward_key_selects_walk_backward :
  let m := mkMovement ON_GROUND true {[ "KeyW" ]} (setAll 0)
             false false false (Some constructed) in
  ∃ c', animationController (updateAnimation (updateDirectionalInput m))
        = Some c'
    ∧ strictlyLargestWeight c' movementNode WALK_BACKWARD.
Proof.
  intros m.
  destruct (single_direction_key_selects_a_sample m constructed eq_refl)
    as (c' & Hc' & Hforward & _).
  exists c'. split; [exact Hc' |]. exact (Hforward eq_refl).
Defined.

(** X28. A physics step outside gameplay mode resets the input: every key
    counts as released, a pending jump request is dropped, the blend input
    is the origin, so the idle clip of the source's movement node becomes
    the heaviest, while the movement state and the ray result stay what
    they were. *)
Theorem physicsUpdate_outside_gameplay_resets_input
    (m : MovementController) (c : Controller) (dt : R)
    (supported hit : bool) :
  dt ≠ 0 →
  animationController m = Some c →
  let m' := physicsUpdate m dt false supported hit in
  state m' = state m ∧ hasHit m' = hasHit m
  ∧ pressedKeys m' = ∅ ∧ inputRun m' = false
  ∧ inputJump m' = false ∧ jumpRequested m' = false
  ∧ ∃ c', animationController m' = Some c'
      ∧ inputX c' = 0 ∧ inputZ c' = 0
      ∧ strictlyLargestWeight c' movementNode IDLE.
Proof.
  intros Hdt Hc m'. subst m'. unfold physicsUpdate.
  rewrite decide_False by done. cbn [negb].
  destruct (updateAnimation_fields (clearMovementState m))
    as (-> & -> & -> & _ & -> & -> & ->).
  split_and!; try done.
  destruct (updateAnimation_attached (clearMovementState m) c Hc)
    as (c' & Hc' & _ & _ & Hx & Hz & _).
  cbn [clearMovementState inputDirection inputRun setAll vec_x vec_z]
    in Hx, Hz.
  assert (inputX c' = 0) as Hx0 by lra.
  assert (inputZ c' = 0) as Hz0 by lra.
  exists c'. split_and!; [done | done | done |].
  by apply (movement_sample_strictly_largest c' (mkSample IDLE 0 0));
    [in_list | |].
Qed.

Lemma physicsUpdate_outside_gameplay_while_running :
  let m := mkMovement ON_GROUND true {[ "KeyW"; "ShiftLeft" ]}
             (mkVector3 0 0 (-1)) true true true (Some constructed) in
  let m' := physicsUpdate m 1 false true true in
  state m' = state m ∧ hasHit m' = hasHit m
  ∧ pressedKeys m' = ∅ ∧ inputRun m' = false
  ∧ inputJump m' = false ∧ jumpRequested m' = false
  ∧ ∃ c', animationController m' = Some c'
      ∧ inputX c' = 0 ∧ inputZ c' = 0
      ∧ strictlyLargestWeight c' movementNode IDLE.
Proof.
  intros m.
  assert (1 ≠ 0) as Hdt by lra.
  exact (physicsUpdate_outside_gameplay_resets_input m constructed 1
           true true Hdt eq_refl).
Defined.

End KeysAndClips.
